(** * chessV3: the search-and-evaluation core of a small chess engine

    The repository holds two near-duplicate Python programs,
    [chessEngine_uci.py] (a UCI protocol front end) and [chess_engine_v3.py]
    (a console front end).  Both contain the same static evaluator
    [evaluate_position] and the same depth-limited search [alpha_beta]; each
    has its own root move selector [find_best_move].

    The chess rules themselves (legal move generation, mate detection, the
    effect of a move on a position) come from the external [chess] package.
    They are an interface here: the class [Rules].  The board object of that
    package is modelled with the state the engine can observe and with its
    undo stack, so that [push] and [pop] are the mutations the package
    performs. *)

From Stdlib Require Import ZArith List Bool Lia String Ascii.
Import ListNotations.
Local Open Scope Z_scope.

(** ** Pieces, squares, positions *)

(** [chess.WHITE] is [True] and [chess.BLACK] is [False] in the package. *)
Inductive Color := WHITE | BLACK.

Inductive PieceType := PAWN | KNIGHT | BISHOP | ROOK | QUEEN | KING.

Record Piece := mkPiece { piece_type : PieceType; color : Color }.

Definition Color_eqb (a b : Color) : bool :=
  match a, b with
  | WHITE, WHITE | BLACK, BLACK => true
  | _, _ => false
  end.

Definition PieceType_eqb (a b : PieceType) : bool :=
  match a, b with
  | PAWN, PAWN | KNIGHT, KNIGHT | BISHOP, BISHOP
  | ROOK, ROOK | QUEEN, QUEEN | KING, KING => true
  | _, _ => false
  end.

Definition opposite (c : Color) : Color :=
  match c with WHITE => BLACK | BLACK => WHITE end.

(** Squares are the integers 0..63, a1 = 0, h1 = 7, a8 = 56, h8 = 63. *)
Definition Square := Z.

(** [chess.SQUARES = list(range(64))]. *)
Definition SQUARES : list Square := map Z.of_nat (seq 0 64).

(** [chess.square_mirror(square) = square ^ 0x38]: the same file on the
    vertically opposite rank. *)
Definition square_mirror (square : Square) : Square := Z.lxor square 56.

(** [chess.Move]: origin, destination and an optional promotion piece. *)
Record Move := mkMove {
  from_square : Square;
  to_square : Square;
  promotion : option PieceType
}.

Definition Move_eqb (a b : Move) : bool :=
  (from_square a =? from_square b) && (to_square a =? to_square b) &&
  match promotion a, promotion b with
  | None, None => true
  | Some p, Some q => PieceType_eqb p q
  | _, _ => false
  end.

(** What a FEN string records of a position. *)
Record Position := mkPosition {
  pos_pieces : Square -> option Piece;
  pos_turn : Color;
  pos_castling_rights : Z;
  pos_ep_square : option Square;
  pos_halfmove_clock : Z;
  pos_fullmove_number : Z
}.

(** A [chess.Board] object: the current position and the stack that [push]
    fills and [pop] empties (the package keeps the played move and the full
    state that preceded it). *)
Record Board := mkBoard {
  position : Position;
  move_stack : list (Move * Position)
}.

Definition turn (board : Board) : Color := pos_turn (position board).

Definition piece_at (board : Board) (square : Square) : option Piece :=
  pos_pieces (position board) square.

(** ** The rules collaborator *)

(** The part of the [chess] package the engine calls and that is not
    modelled further.  Game-over detection looks at the whole board object
    (repetition rules read the stack); a move acts on the current position. *)
Class Rules := {
  legal_moves : Board -> list Move;
  is_checkmate : Board -> bool;
  is_stalemate : Board -> bool;
  is_insufficient_material : Board -> bool;
  is_game_over : Board -> bool;
  make_move : Position -> Move -> Position
}.

(** [board.push(move)]: save the current state, play the move. *)
Definition push `{Rules} (board : Board) (move : Move) : Board :=
  {| position := make_move (position board) move;
     move_stack := (move, position board) :: move_stack board |}.

(** [board.pop()]: restore the state saved by the last [push] and return its
    move; on an empty stack the package raises [IndexError]. *)
Definition pop (board : Board) : option (Move * Board) :=
  match move_stack board with
  | [] => None
  | (move, previous) :: rest =>
      Some (move, {| position := previous; move_stack := rest |})
  end.

(** [board.copy()]: a new object with the same state. *)
Definition copy (board : Board) : Board := board.

(** ** Scores *)

(** The engine's numbers are Python ints together with [float('-inf')] and
    [float('inf')]. *)
Inductive Score := NegInf | Fin (z : Z) | PosInf.

Definition Score_ltb (a b : Score) : bool :=
  match a, b with
  | NegInf, NegInf => false
  | NegInf, _ => true
  | Fin _, NegInf => false
  | Fin x, Fin y => x <? y
  | Fin _, PosInf => true
  | PosInf, _ => false
  end.

Definition Score_leb (a b : Score) : bool := negb (Score_ltb b a).

(** Python's [max(a, b)] returns [a] unless [b > a]; [min(a, b)] returns [a]
    unless [b < a]. *)
Definition Score_max (a b : Score) : Score := if Score_ltb a b then b else a.
Definition Score_min (a b : Score) : Score := if Score_ltb b a then b else a.

Definition Score_lt (a b : Score) : Prop := Score_ltb a b = true.
Definition Score_le (a b : Score) : Prop := Score_leb a b = true.

(** ** Evaluation tables *)

Definition PIECE_VALUES (pt : PieceType) : Z :=
  match pt with
  | PAWN => 100
  | KNIGHT => 320
  | BISHOP => 330
  | ROOK => 500
  | QUEEN => 900
  | KING => 20000
  end.

Definition PAWN_PST : list Z := [
    0;  0;  0;  0;  0;  0;  0;  0;
    50; 50; 50; 50; 50; 50; 50; 50;
    10; 10; 20; 30; 30; 20; 10; 10;
    5;  5; 10; 25; 25; 10;  5;  5;
    0;  0;  0; 20; 20;  0;  0;  0;
    5; -5;-10;  0;  0;-10; -5;  5;
    5; 10; 10;-20;-20; 10; 10;  5;
    0;  0;  0;  0;  0;  0;  0;  0
].

Definition KNIGHT_PST : list Z := [
    -50;-40;-30;-30;-30;-30;-40;-50;
    -40;-20;  0;  0;  0;  0;-20;-40;
    -30;  0; 10; 15; 15; 10;  0;-30;
    -30;  5; 15; 20; 20; 15;  5;-30;
    -30;  0; 15; 20; 20; 15;  0;-30;
    -30;  5; 10; 15; 15; 10;  5;-30;
    -40;-20;  0;  5;  5;  0;-20;-40;
    -50;-40;-30;-30;-30;-30;-40;-50
].

Definition BISHOP_PST : list Z := KNIGHT_PST.
Definition ROOK_PST : list Z := KNIGHT_PST.
Definition QUEEN_PST : list Z := KNIGHT_PST.

Definition KING_PST : list Z := [
    -30;-40;-40;-50;-50;-40;-40;-30;
    -30;-40;-40;-50;-50;-40;-40;-30;
    -30;-40;-40;-50;-50;-40;-40;-30;
    -30;-40;-40;-50;-50;-40;-40;-30;
    -20;-30;-30;-40;-40;-30;-30;-20;
    -10;-20;-20;-20;-20;-20;-20;-10;
    20; 20;  0;  0;  0;  0; 20; 20;
    20; 30; 10;  0;  0; 10; 30; 20
].

Definition PST_TABLES (pt : PieceType) : list Z :=
  match pt with
  | PAWN => PAWN_PST
  | KNIGHT => KNIGHT_PST
  | BISHOP => BISHOP_PST
  | ROOK => ROOK_PST
  | QUEEN => QUEEN_PST
  | KING => KING_PST
  end.

(** [pst[i]] for an index in 0..63; every index the evaluator forms is in
    that range (see [square_mirror_range]). *)
Definition pst_get (pst : list Z) (i : Z) : Z := nth (Z.to_nat i) pst 0.

(** ** The evaluator *)

(** One pass of the body of [for square in chess.SQUARES], on the pair
    [(material, piece_square_score)]. *)
Definition evaluate_square (board : Board) (acc : Z * Z) (square : Square)
  : Z * Z :=
  let '(material, piece_square_score) := acc in
  match piece_at board square with
  | None => acc
  | Some piece =>
      let value := PIECE_VALUES (piece_type piece) in
      let pst := PST_TABLES (piece_type piece) in
      let square_idx :=
        if Color_eqb (color piece) WHITE then square
        else square_mirror square in
      let pst_value := pst_get pst square_idx in
      if Color_eqb (color piece) WHITE
      then (material + value, piece_square_score + pst_value)
      else (material - value, piece_square_score - pst_value)
  end.

(** [total_score] of the source: material plus piece-square score, positive
    for White. *)
Definition total_score (board : Board) : Z :=
  let '(material, piece_square_score) :=
    fold_left (evaluate_square board) SQUARES (0, 0) in
  material + piece_square_score.

Definition evaluate_position `{Rules} (board : Board) : Z :=
  if is_checkmate board then
    if Color_eqb (turn board) WHITE then -99999 else 99999
  else if is_stalemate board || is_insufficient_material board then 0
  else
    let total_score := total_score board in
    if Color_eqb (turn board) WHITE then total_score else - total_score.

(** ** Effects: Python exceptions, recursion budget, mutable state *)

Inductive exn := IndexError | ValueError.

(** The outcome of running a piece of the program: a value, a Python
    exception, or a recursion that did not finish within the budget given to
    the model. *)
Inductive result (A : Type) :=
| Ok (a : A)
| Raise (e : exn)
| OutOfFuel.
Arguments Ok {A} a.
Arguments Raise {A} e.
Arguments OutOfFuel {A}.

(** A computation over a mutable store of type [S]. *)
Definition M (S A : Type) : Type := S -> result (A * S).

Definition ret {S A : Type} (a : A) : M S A := fun s => Ok (a, s).

Definition bind {S A B : Type} (c : M S A) (k : A -> M S B) : M S B :=
  fun s =>
    match c s with
    | Ok (a, s') => k a s'
    | Raise e => Raise e
    | OutOfFuel => OutOfFuel
    end.

Definition get {S : Type} : M S S := fun s => Ok (s, s).

Declare Scope prog_scope.
Delimit Scope prog_scope with prog.
Notation "x <- c ;; k" := (bind c (fun x => k))
  (at level 61, c at next level, right associativity) : prog_scope.
Notation "c ;; k" := (bind c (fun _ => k))
  (at level 61, right associativity) : prog_scope.

(** Run a computation on one board object held in a larger store. *)
Definition on_board {S A : Type} (rd : S -> Board) (wr : Board -> S -> S)
  (c : M Board A) : M S A :=
  fun s =>
    match c (rd s) with
    | Ok (a, b') => Ok (a, wr b' s)
    | Raise e => Raise e
    | OutOfFuel => OutOfFuel
    end.

Definition do_push `{Rules} (move : Move) : M Board unit :=
  fun board => Ok (tt, push board move).

Definition do_pop : M Board Move :=
  fun board =>
    match pop board with
    | Some (move, board') => Ok (move, board')
    | None => Raise IndexError
    end.

(** A computation that hands the board back as it received it. *)
Definition restores {A : Type} (c : M Board A) : Prop :=
  forall board a board', c board = Ok (a, board') -> board' = board.

(** ** The search *)

Section Search.
Context `{Rules}.
Local Open Scope prog_scope.

(** The loop of a maximizing node: [rec alpha beta] is the recursive call on
    the board after the move. *)
Fixpoint max_loop (rec : Score -> Score -> M Board Score)
  (legal : list Move) (max_eval alpha beta : Score) : M Board Score :=
  match legal with
  | [] => ret max_eval
  | move :: rest =>
      do_push move ;;
      eval_score <- rec alpha beta ;;
      do_pop ;;
      let max_eval := Score_max max_eval eval_score in
      let alpha := Score_max alpha eval_score in
      if Score_leb beta alpha then ret max_eval
      else max_loop rec rest max_eval alpha beta
  end.

(** The loop of a minimizing node. *)
Fixpoint min_loop (rec : Score -> Score -> M Board Score)
  (legal : list Move) (min_eval alpha beta : Score) : M Board Score :=
  match legal with
  | [] => ret min_eval
  | move :: rest =>
      do_push move ;;
      eval_score <- rec alpha beta ;;
      do_pop ;;
      let min_eval := Score_min min_eval eval_score in
      let beta := Score_min beta eval_score in
      if Score_leb beta alpha then ret min_eval
      else min_loop rec rest min_eval alpha beta
  end.

(** [alpha_beta(board, depth, alpha, beta, maximizing_player)].  [depth] is a
    Python int; [fuel] bounds the number of nested calls the model follows. *)
Fixpoint alpha_beta (fuel : nat) (depth : Z) (alpha beta : Score)
  (maximizing_player : bool) : M Board Score :=
  match fuel with
  | O => fun _ => OutOfFuel
  | S fuel' =>
      board <- get ;;
      if (depth =? 0) || is_game_over board
      then ret (Fin (evaluate_position board))
      else
        let legal := legal_moves board in
        match legal with
        | [] => ret (Fin (evaluate_position board))
        | _ :: _ =>
            if maximizing_player
            then max_loop (fun a b => alpha_beta fuel' (depth - 1) a b false)
                   legal NegInf alpha beta
            else min_loop (fun a b => alpha_beta fuel' (depth - 1) a b true)
                   legal PosInf alpha beta
        end
  end.

(** Reference search, after the specification's words: an unpruned full
    minimax over the same tree (same depth limit, same stop at a finished
    game or an empty move list, children in the same order) with the same
    evaluator at the leaves. *)
Fixpoint minimax (depth : nat) (board : Board) (maximizing_player : bool)
  : Z :=
  match depth with
  | O => evaluate_position board
  | S depth' =>
      if is_game_over board then evaluate_position board
      else
        let child move := minimax depth' (push board move)
                            (negb maximizing_player) in
        match legal_moves board with
        | [] => evaluate_position board
        | first :: others =>
            if maximizing_player
            then fold_left Z.max (map child others) (child first)
            else fold_left Z.min (map child others) (child first)
        end
  end.

(** Boards the search can stand on within [n] plies of [board]. *)
Inductive within_plies : nat -> Board -> Board -> Prop :=
| within_here : forall n board, within_plies n board board
| within_step : forall n board move board',
    In move (legal_moves board) ->
    within_plies n (push board move) board' ->
    within_plies (S n) board board'.

(** [s] is the evaluation of a board within [n] plies of [board]. *)
Definition leaf_score (n : nat) (board : Board) (s : Score) : Prop :=
  exists board', within_plies n board board' /\
                 s = Fin (evaluate_position board').

End Search.

(** ** Wall-clock time *)

(** [time.time()] read for the [k]-th time returns [clock k]; readings and
    the time limit are on one integer scale of ticks.  The readings are
    arbitrary, so a search may take any amount of time. *)
Definition Clock := nat -> Z.

(** ** Root move selection, protocol front end ([chessEngine_uci.py]) *)

Module Uci.
Section Select.
Context `{Rules}.
Variable clock : Clock.
Local Open Scope prog_scope.

(** The store: the caller's board object and how often the clock was read. *)
Record World := mkWorld { w_board : Board; w_reads : nat }.

Definition time_time : M World Z :=
  fun w => Ok (clock (w_reads w),
               {| w_board := w_board w; w_reads := S (w_reads w) |}).

Definition the_board {A : Type} (c : M Board A) : M World A :=
  on_board w_board
    (fun b w => {| w_board := b; w_reads := w_reads w |}) c.

(** The [for move in legal_moves] loop of [find_best_move]. *)
Fixpoint root_loop (fuel : nat) (depth time_limit start_time : Z)
  (legal : list Move) (best_move : option Move) (best_score : Score)
  : M World (option Move) :=
  match legal with
  | [] => ret best_move
  | move :: rest =>
      now <- time_time ;;
      if now - start_time >? time_limit then ret best_move
      else
        the_board (do_push move) ;;
        board <- the_board get ;;
        score <- the_board (alpha_beta fuel (depth - 1) NegInf PosInf
                              (Color_eqb (turn board) BLACK)) ;;
        the_board do_pop ;;
        board <- the_board get ;;
        if Color_eqb (turn board) WHITE then
          if Score_ltb best_score score
          then root_loop fuel depth time_limit start_time rest
                 (Some move) score
          else root_loop fuel depth time_limit start_time rest
                 best_move best_score
        else
          if Score_ltb score best_score
          then root_loop fuel depth time_limit start_time rest
                 (Some move) score
          else root_loop fuel depth time_limit start_time rest
                 best_move best_score
  end.

Definition find_best_move (fuel : nat) (depth time_limit : Z)
  : M World (option Move) :=
  start_time <- time_time ;;
  board <- the_board get ;;
  let best_move := None in
  let best_score :=
    if Color_eqb (turn board) WHITE then NegInf else PosInf in
  let legal := legal_moves board in
  match legal with
  | [] => ret None
  | _ :: _ =>
      root_loop fuel depth time_limit start_time legal best_move best_score
  end.

End Select.
End Uci.

(** ** Root move selection, console front end ([chess_engine_v3.py]) *)

(** The console program also prints progress lines; output is not part of
    the model. *)
Module V3.
Section Select.
Context `{Rules}.
Variable clock : Clock.
Local Open Scope prog_scope.

(** The store while [find_best_move] runs: the caller's [board], the local
    [search_board] made by [board.copy()], and the clock reads. *)
Record World := mkWorld {
  w_board : Board;
  w_search_board : Board;
  w_reads : nat
}.

Definition time_time : M World Z :=
  fun w => Ok (clock (w_reads w),
               {| w_board := w_board w;
                  w_search_board := w_search_board w;
                  w_reads := S (w_reads w) |}).

Definition the_search_board {A : Type} (c : M Board A) : M World A :=
  on_board w_search_board
    (fun b w => {| w_board := w_board w;
                   w_search_board := b;
                   w_reads := w_reads w |}) c.

Definition the_board : M World Board := fun w => Ok (w_board w, w).

(** The loop that fills [move_scores]. *)
Fixpoint root_loop (fuel : nat) (depth time_limit start_time : Z)
  (legal : list Move) (move_scores : list (Move * Score))
  : M World (list (Move * Score)) :=
  match legal with
  | [] => ret move_scores
  | move :: rest =>
      now <- time_time ;;
      if now - start_time >? time_limit then ret move_scores
      else
        the_search_board (do_push move) ;;
        search_board <- the_search_board get ;;
        score <- the_search_board
                   (alpha_beta fuel (depth - 1) NegInf PosInf
                      (Color_eqb (turn search_board) BLACK)) ;;
        the_search_board do_pop ;;
        root_loop fuel depth time_limit start_time rest
          (move_scores ++ [(move, score)])
  end.

(** [max(move_scores, key=lambda x: x[1])] with the running best [best]:
    a later element replaces it only when its score is strictly greater. *)
Fixpoint max_by_score (best : Move * Score) (l : list (Move * Score))
  : Move * Score :=
  match l with
  | [] => best
  | x :: rest =>
      if Score_ltb (snd best) (snd x) then max_by_score x rest
      else max_by_score best rest
  end.

(** [min(move_scores, key=lambda x: x[1])]. *)
Fixpoint min_by_score (best : Move * Score) (l : list (Move * Score))
  : Move * Score :=
  match l with
  | [] => best
  | x :: rest =>
      if Score_ltb (snd x) (snd best) then min_by_score x rest
      else min_by_score best rest
  end.

(** The end of [find_best_move], from [if not move_scores] on. *)
Definition select (legal : list Move) (move_scores : list (Move * Score))
  : M World (option Move) :=
  match move_scores with
  | [] => ret (hd_error legal)
  | first :: others =>
      board <- the_board ;;
      let '(best_move, best_score) :=
        if Color_eqb (turn board) WHITE
        then max_by_score first others
        else min_by_score first others in
      if negb (existsb (Move_eqb best_move) (legal_moves board))
      then ret (hd_error legal)
      else ret (Some best_move)
  end.

(** The body of [find_best_move] once [search_board] exists. *)
Definition find_best_move_body (fuel : nat) (depth time_limit : Z)
  : M World (option Move) :=
  start_time <- time_time ;;
  search_board <- the_search_board get ;;
  let legal := legal_moves search_board in
  match legal with
  | [] => ret None
  | _ :: _ =>
      move_scores <- root_loop fuel depth time_limit start_time legal [] ;;
      select legal move_scores
  end.

(** [find_best_move(board, depth, time_limit)], on the caller's board and the
    number of clock reads so far; the copy is allocated first (the source
    reads the clock just before copying, and copying reads no clock). *)
Definition find_best_move (fuel : nat) (depth time_limit : Z)
  : M (Board * nat) (option Move) :=
  fun '(board, reads) =>
    match find_best_move_body fuel depth time_limit
            {| w_board := board;
               w_search_board := copy board;
               w_reads := reads |} with
    | Ok (r, w) => Ok (r, (w_board w, w_reads w))
    | Raise e => Raise e
    | OutOfFuel => OutOfFuel
    end.

End Select.
End V3.

(** ** The [position] command of the protocol loop *)

(** A [string] stands for the Python [str] with one character per element,
    the character whose code point is the number of the element (0 to 255);
    a line with any other character has no counterpart here.  [is_space c]
    is [c.isspace()], the test by which [str.split()] and [str.strip()] find
    white space: among these code points it holds of 9 to 13, 28 to 32,
    133 (U+0085, next line) and 160 (U+00A0, no-break space). *)
Definition is_space (c : ascii) : bool :=
  let n := nat_of_ascii c in
  ((9 <=? n) && (n <=? 13) || (28 <=? n) && (n <=? 32)
   || (n =? 133) || (n =? 160))%nat.

(** [line.split()]: the maximal runs of non-space characters; [token] is the
    run being read. *)
Fixpoint split_from (token : string) (line : string) : list string :=
  match line with
  | EmptyString =>
      match token with EmptyString => [] | _ => [token] end
  | String c rest =>
      if is_space c then
        match token with
        | EmptyString => split_from EmptyString rest
        | _ => token :: split_from EmptyString rest
        end
      else split_from (token ++ String c EmptyString)%string rest
  end.

Definition split (line : string) : list string := split_from EmptyString line.

(** [l[start:stop]] with Python's treatment of negative and oversized
    bounds. *)
Definition slice {A : Type} (l : list A) (start stop : Z) : list A :=
  let len := Z.of_nat (List.length l) in
  let norm i := if i <? 0 then Z.max (i + len) 0 else Z.min i len in
  let lo := norm start in
  let hi := norm stop in
  firstn (Z.to_nat (hi - lo)) (skipn (Z.to_nat lo) l).

(** [l[start:]] for a non-negative [start]. *)
Definition slice_from {A : Type} (l : list A) (start : nat) : list A :=
  skipn start l.

(** [x in parts]. *)
Definition contains (x : string) (parts : list string) : bool :=
  existsb (String.eqb x) parts.

(** [parts.index(x)], used only where [x in parts]. *)
Fixpoint index (x : string) (parts : list string) : Z :=
  match parts with
  | [] => 0
  | p :: rest => if String.eqb p x then 0 else 1 + index x rest
  end.

(** [" ".join(l)]. *)
Definition join (l : list string) : string := String.concat " "%string l.

(** The local [fen] of the [position fen] branch:
    [" ".join(parts[2:parts.index("moves") if "moves" in parts else -1])]. *)
Definition fen_of (parts : list string) : string :=
  join (slice parts 2
          (if contains "moves"%string parts
           then index "moves"%string parts else -1)).

(** What the [position] branch of [uci_loop] asks of the rules package:
    [chess.Board()] or [chess.Board(fen)], then [push_uci] of each move
    token; or nothing, when the second word is neither [startpos] nor
    [fen]. *)
Inductive BoardRequest :=
| Startpos (moves : list string)
| Fen (fen : string) (moves : list string)
| Keep.

Definition item (parts : list string) (i : nat) : result string :=
  match nth_error parts i with
  | Some p => Ok p
  | None => Raise IndexError
  end.

(** The branch [elif line.startswith("position")] of [uci_loop]. *)
Definition position_command (line : string) : result BoardRequest :=
  let parts := split line in
  match item parts 1 with
  | Ok word =>
      if String.eqb word "startpos"%string then
        match item parts 2 with
        | Ok third =>
            let moves_start := if String.eqb third "moves"%string then 3%nat
                               else 2%nat in
            if (moves_start <? List.length parts)%nat
            then Ok (Startpos (slice_from parts moves_start))
            else Ok (Startpos [])
        | Raise e => Raise e
        | OutOfFuel => OutOfFuel
        end
      else if String.eqb word "fen"%string then
        let fen := fen_of parts in
        if contains "moves"%string parts then
          let moves_start := Z.to_nat (index "moves"%string parts + 1) in
          Ok (Fen fen (slice_from parts moves_start))
        else Ok (Fen fen [])
      else Ok Keep
  | Raise e => Raise e
  | OutOfFuel => OutOfFuel
  end.

(** ** The protocol loop ([uci_loop] of [chessEngine_uci.py]) *)

(** [s.strip()]: [s] without its leading and its trailing white space. *)
Fixpoint lstrip (s : string) : string :=
  match s with
  | EmptyString => EmptyString
  | String c rest => if is_space c then lstrip rest else s
  end.

Fixpoint rstrip (s : string) : string :=
  match s with
  | EmptyString => EmptyString
  | String c rest =>
      match rstrip rest with
      | EmptyString =>
          if is_space c then EmptyString else String c EmptyString
      | kept => String c kept
      end
  end.

Definition strip (s : string) : string := rstrip (lstrip s).

(** [s.startswith(p)]. *)
Definition startswith (s p : string) : bool := String.prefix p s.

(** The text side of the [chess] package, not modelled further:
    [chess.Board()], [chess.Board(fen)] (it raises [ValueError] on a string
    it does not accept), the parsing done by [board.push_uci] and
    [board.parse_san] (they raise [ValueError] on a word they do not accept
    as a move of the board), [move.uci()], and the truth value of a move
    object, which [if move:] tests. *)
Class Codec := {
  initial_position : Position;
  parse_fen : string -> option Position;
  parse_uci : Board -> string -> option Move;
  parse_san : Board -> string -> option Move;
  uci : Move -> string;
  truthy : Move -> bool
}.

(** What one pass of [while True] asks for: another pass, or [break]. *)
Inductive Next := Continue | Break.

(** How the program ends: [uci_loop] returns, an exception leaves it
    ([EOFError] when [input()] finds no line), or the budget of the model
    runs out. *)
Inductive Ending :=
| Returned
| Uncaught (e : exn)
| UncaughtEOFError
| Unfinished.

(** The store of [uci_loop]: the local [board], the clock reads so far, the
    lines printed so far. *)
Record Session := mkSession {
  s_board : Board;
  s_reads : nat;
  s_output : list string
}.

Section Protocol.
Context `{Rules} `{Codec}.
Variable clock : Clock.

(** The number of clock ticks in a second. *)
Variable second : Z.

Local Open Scope prog_scope.

(** [chess.Board()]. *)
Definition new_board : Board :=
  {| position := initial_position; move_stack := [] |}.

(** [chess.Board(fen)]. *)
Definition board_of_fen (fen : string) : result Board :=
  match parse_fen fen with
  | Some p => Ok {| position := p; move_stack := [] |}
  | None => Raise ValueError
  end.

(** [board.push_uci(text)]. *)
Definition push_uci (text : string) : M Board unit :=
  fun board =>
    match parse_uci board text with
    | Some move => Ok (tt, push board move)
    | None => Raise ValueError
    end.

(** [for move in moves: board.push_uci(move)]. *)
Fixpoint push_each (moves : list string) : M Board unit :=
  match moves with
  | [] => ret tt
  | move :: rest => push_uci move ;; push_each rest
  end.

Definition print (text : string) : M Session unit :=
  fun s => Ok (tt, {| s_board := s_board s;
                      s_reads := s_reads s;
                      s_output := s_output s ++ [text] |}).

(** [board = b]. *)
Definition set_board (b : Board) : M Session unit :=
  fun s => Ok (tt, {| s_board := b;
                      s_reads := s_reads s;
                      s_output := s_output s |}).

Definition the_session_board {A : Type} (c : M Board A) : M Session A :=
  on_board s_board
    (fun b s => {| s_board := b;
                   s_reads := s_reads s;
                   s_output := s_output s |}) c.

(** [find_best_move(board, depth=3, time_limit=2.0)]. *)
Definition search (fuel : nat) : M Session (option Move) :=
  fun s =>
    match Uci.find_best_move clock fuel 3 (2 * second)
            (Uci.mkWorld (s_board s) (s_reads s)) with
    | Ok (move, w) => Ok (move, {| s_board := Uci.w_board w;
                                   s_reads := Uci.w_reads w;
                                   s_output := s_output s |})
    | Raise e => Raise e
    | OutOfFuel => OutOfFuel
    end.

(** The branch [elif line.startswith("position")], acting on the board. *)
Definition position_branch (line : string) : M Session unit :=
  fun s =>
    match position_command line with
    | Ok (Startpos moves) =>
        (set_board new_board ;; the_session_board (push_each moves)) s
    | Ok (Fen fen moves) =>
        match board_of_fen fen with
        | Ok b => (set_board b ;; the_session_board (push_each moves)) s
        | Raise e => Raise e
        | OutOfFuel => OutOfFuel
        end
    | Ok Keep => Ok (tt, s)
    | Raise e => Raise e
    | OutOfFuel => OutOfFuel
    end.

(** The branch [elif line.startswith("go")]. *)
Definition go_branch (fuel : nat) : M Session unit :=
  move <- search fuel ;;
  match move with
  | Some m =>
      if truthy m then print ("bestmove " ++ uci m)%string
      else print "bestmove (none)"%string
  | None => print "bestmove (none)"%string
  end.

(** One pass of the body of [while True], [raw] being what [input()]
    returned. *)
Definition uci_body (fuel : nat) (raw : string) : M Session Next :=
  let line := strip raw in
  if String.eqb line "uci" then
    print "id name SimpleChess 1500"%string ;;
    print "id author xAI"%string ;;
    print "uciok"%string ;;
    ret Continue
  else if String.eqb line "isready" then
    print "readyok"%string ;; ret Continue
  else if String.eqb line "ucinewgame" then
    set_board new_board ;; ret Continue
  else if startswith line "position" then
    position_branch line ;; ret Continue
  else if startswith line "go" then
    go_branch fuel ;; ret Continue
  else if String.eqb line "quit" then ret Break
  else ret Continue.

(** The loop on the lines standard input still holds; the result is how the
    program ends and what it has printed by then. *)
Fixpoint uci_loop_on (fuel : nat) (input : list string) (s : Session)
  : Ending * list string :=
  match input with
  | [] => (UncaughtEOFError, s_output s)
  | raw :: rest =>
      match uci_body fuel raw s with
      | Ok (Continue, s') => uci_loop_on fuel rest s'
      | Ok (Break, s') => (Returned, s_output s')
      | Raise e => (Uncaught e, s_output s)
      | OutOfFuel => (Unfinished, s_output s)
      end
  end.

(** [uci_loop()], run on the lines of standard input. *)
Definition uci_loop (fuel : nat) (input : list string)
  : Ending * list string :=
  uci_loop_on fuel input
    {| s_board := new_board; s_reads := 0; s_output := [] |}.

(** The lines the program can print. *)
Definition protocol_line (line : string) : Prop :=
  In line ["id name SimpleChess 1500"; "id author xAI"; "uciok"; "readyok";
           "bestmove (none)"]%string \/
  exists move, line = ("bestmove " ++ uci move)%string.

End Protocol.

(** ** The console game ([play_game] of [chess_engine_v3.py]) *)

(** How [play_game] leaves its loop or ends; the lines it prints are not
    part of the model. *)
Inductive GameEnding :=
| GameOver
| InvalidEngineMove
| EngineHasNoMoves
| GameUncaughtEOFError
| GameUncaught (e : exn)
| GameUnfinished.

Section Console.
Context `{Rules} `{Codec}.
Variable clock : Clock.

(** The number of clock ticks in a second. *)
Variable second : Z.

(** The inner [while True] of White's turn on the lines standard input
    still holds: the first line that [parse_san] accepts and that is among
    the legal moves is played; [None] when the input runs out first
    ([input] raises [EOFError], which nothing catches). *)
Fixpoint human_turn (input : list string) (board : Board)
  : option (Board * list string) :=
  match input with
  | [] => None
  | text :: rest =>
      match parse_san board text with
      | Some move =>
          if existsb (Move_eqb move) (legal_moves board)
          then Some (push board move, rest)
          else human_turn rest board
      | None => human_turn rest board
      end
  end.

(** The loop [while not board.is_game_over()], followed for at most
    [rounds] passes; the result is how it ended and the board then. *)
Fixpoint play_loop (rounds fuel : nat) (input : list string) (board : Board)
  (reads : nat) : GameEnding * Board :=
  match rounds with
  | O => (GameUnfinished, board)
  | S rounds' =>
      if is_game_over board then (GameOver, board)
      else if Color_eqb (turn board) WHITE then
        match human_turn input board with
        | Some (board', rest) => play_loop rounds' fuel rest board' reads
        | None => (GameUncaughtEOFError, board)
        end
      else
        match V3.find_best_move clock fuel 5 (3 * second) (board, reads) with
        | Ok (Some move, (board', reads')) =>
            if truthy move then
              if existsb (Move_eqb move) (legal_moves board')
              then play_loop rounds' fuel input (push board' move) reads'
              else (InvalidEngineMove, board')
            else (EngineHasNoMoves, board')
        | Ok (None, (board', _)) => (EngineHasNoMoves, board')
        | Raise e => (GameUncaught e, board)
        | OutOfFuel => (GameUnfinished, board)
        end
  end.

(** [play_game()], on the lines of standard input. *)
Definition play_game (rounds fuel : nat) (input : list string)
  : GameEnding * Board :=
  play_loop rounds fuel input
    {| position := initial_position; move_stack := [] |} 0.

End Console.

(** ** The search without the store *)

(** The value [alpha_beta] computes, written on board values: each child is
    the board after [push], and nothing is undone because nothing is
    mutated.  [alpha_beta_runs] relates the two. *)
Section SearchValue.
Context `{Rules}.

Fixpoint max_value (child : Move -> Score -> Score -> Score)
  (legal : list Move) (max_eval alpha beta : Score) : Score :=
  match legal with
  | [] => max_eval
  | move :: rest =>
      let eval_score := child move alpha beta in
      let max_eval := Score_max max_eval eval_score in
      let alpha := Score_max alpha eval_score in
      if Score_leb beta alpha then max_eval
      else max_value child rest max_eval alpha beta
  end.

Fixpoint min_value (child : Move -> Score -> Score -> Score)
  (legal : list Move) (min_eval alpha beta : Score) : Score :=
  match legal with
  | [] => min_eval
  | move :: rest =>
      let eval_score := child move alpha beta in
      let min_eval := Score_min min_eval eval_score in
      let beta := Score_min beta eval_score in
      if Score_leb beta alpha then min_eval
      else min_value child rest min_eval alpha beta
  end.

Fixpoint alpha_beta_value (depth : nat) (board : Board) (alpha beta : Score)
  (maximizing_player : bool) : Score :=
  match depth with
  | O => Fin (evaluate_position board)
  | S depth' =>
      if is_game_over board then Fin (evaluate_position board)
      else
        match legal_moves board with
        | [] => Fin (evaluate_position board)
        | _ :: _ =>
            if maximizing_player
            then max_value
                   (fun move a b =>
                      alpha_beta_value depth' (push board move) a b false)
                   (legal_moves board) NegInf alpha beta
            else min_value
                   (fun move a b =>
                      alpha_beta_value depth' (push board move) a b true)
                   (legal_moves board) PosInf alpha beta
        end
  end.

(** The score [find_best_move] computes for one root move. *)
Definition root_score (fuel : nat) (depth : Z) (board : Board) (move : Move)
  : result Score :=
  match alpha_beta fuel (depth - 1) NegInf PosInf
          (Color_eqb (turn (push board move)) BLACK) (push board move) with
  | Ok (score, _) => Ok score
  | Raise e => Raise e
  | OutOfFuel => OutOfFuel
  end.

(** The root moves with the minimax values [find_best_move] compares. *)
Definition minimax_scores (depth : Z) (board : Board) (moves : list Move)
  : list (Move * Score) :=
  map (fun move =>
         (move, Fin (minimax (Z.to_nat (depth - 1)) (push board move)
                       (Color_eqb (turn (push board move)) BLACK))))
    moves.

End SearchValue.

(** The root moves reached before the time check fires: the check before the
    [k]-th move reads the clock for the [reads + k]-th time. *)
Fixpoint within_budget (clock : Clock) (time_limit start_time : Z)
  (reads : nat) (legal : list Move) : list Move :=
  match legal with
  | [] => []
  | move :: rest =>
      if clock reads - start_time >? time_limit then []
      else move :: within_budget clock time_limit start_time (S reads) rest
  end.

(** [move] is the first entry of [scored] with the best score for the side
    [side]: no entry is better, and every earlier entry is strictly worse. *)
Definition first_best (side : Color) (scored : list (Move * Score))
  (move : Move) : Prop :=
  exists (i : nat) (s : Score),
    nth_error scored i = Some (move, s) /\
    forall (j : nat) (move' : Move) (s' : Score),
      nth_error scored j = Some (move', s') ->
      match side with
      | WHITE => Score_le s' s /\ ((j < i)%nat -> Score_lt s' s)
      | BLACK => Score_le s s' /\ ((j < i)%nat -> Score_lt s s')
      end.

(** [score] replaces the best score so far: strictly greater for White,
    strictly less for Black. *)
Definition improves (side : Color) (best_score score : Score) : bool :=
  match side with
  | WHITE => Score_ltb best_score score
  | BLACK => Score_ltb score best_score
  end.

(** The best move and score after going through [scored], starting from
    [best_move] and [best_score]. *)
Fixpoint running_best (side : Color) (scored : list (Move * Score))
  (best_move : option Move) (best_score : Score) : option Move * Score :=
  match scored with
  | [] => (best_move, best_score)
  | (move, score) :: rest =>
      if improves side best_score score
      then running_best side rest (Some move) score
      else running_best side rest best_move best_score
  end.

(** No score of [scored] is better than [best_score]; [best_move], when
    there is one, is the first entry of [scored] that has this score. *)
Definition best_so_far (side : Color) (scored : list (Move * Score))
  (best_move : option Move) (best_score : Score) : Prop :=
  (forall j move' s', nth_error scored j = Some (move', s') ->
     improves side best_score s' = false) /\
  match best_move with
  | None => True
  | Some move =>
      exists i, nth_error scored i = Some (move, best_score) /\
        forall j move' s', nth_error scored j = Some (move', s') ->
          (j < i)%nat -> improves side s' best_score = true
  end.

(** The result [r] of a search with window [(alpha, beta)] stands for the
    exact value [v]: at or below [alpha] it is an upper bound of [v], at or
    above [beta] a lower bound, and strictly inside the window it is [v]. *)
Definition bounded_by (v : Z) (alpha beta r : Score) : Prop :=
  (Score_le r alpha -> Score_le (Fin v) r) /\
  (Score_le beta r -> Score_le r (Fin v)) /\
  (Score_lt alpha r -> Score_lt r beta -> r = Fin v).

(** ** Mirrored positions *)

(** The same piece in the other colour. *)
Definition relabel (piece : Piece) : Piece :=
  {| piece_type := piece_type piece; color := opposite (color piece) |}.

(** A bitboard with its ranks in reverse order. *)
Definition flip_vertical (bb : Z) : Z :=
  fold_left
    (fun acc rank =>
       Z.lor acc
         (Z.shiftl (Z.land (Z.shiftr bb (8 * rank)) 255) (8 * (7 - rank))))
    [0; 1; 2; 3; 4; 5; 6; 7] 0.

(** Colours relabelled and the board mirrored vertically; the side to move is
    kept. *)
Definition mirror_pieces (p : Position) : Position :=
  {| pos_pieces := fun square =>
       option_map relabel (pos_pieces p (square_mirror square));
     pos_turn := pos_turn p;
     pos_castling_rights := flip_vertical (pos_castling_rights p);
     pos_ep_square := option_map square_mirror (pos_ep_square p);
     pos_halfmove_clock := pos_halfmove_clock p;
     pos_fullmove_number := pos_fullmove_number p |}.


(** Mirrored boards are fresh objects with an empty stack. *)
Definition mirror_keep_turn (board : Board) : Board :=
  {| position := mirror_pieces (position board); move_stack := [] |}.


(** Neither checkmate, stalemate nor insufficient material. *)
Definition non_terminal `{Rules} (board : Board) : Prop :=
  is_checkmate board = false /\
  is_stalemate board = false /\
  is_insufficient_material board = false.

(** ** Per-square contributions *)

Definition Zsum (l : list Z) : Z := fold_right Z.add 0 l.

(** What one square adds to [material] and to [piece_square_score]. *)
Definition material_at (board : Board) (square : Square) : Z :=
  match piece_at board square with
  | None => 0
  | Some piece =>
      if Color_eqb (color piece) WHITE
      then PIECE_VALUES (piece_type piece)
      else - PIECE_VALUES (piece_type piece)
  end.

Definition pst_at (board : Board) (square : Square) : Z :=
  match piece_at board square with
  | None => 0
  | Some piece =>
      if Color_eqb (color piece) WHITE
      then pst_get (PST_TABLES (piece_type piece)) square
      else - pst_get (PST_TABLES (piece_type piece)) (square_mirror square)
  end.

(** Whether [square] holds the king of colour [c], and how many squares
    do. *)
Definition is_king_of (c : Color) (board : Board) (square : Square) : bool :=
  match piece_at board square with
  | None => false
  | Some piece =>
      PieceType_eqb (piece_type piece) KING && Color_eqb (color piece) c
  end.

Definition kings_in (c : Color) (board : Board) (l : list Square) : nat :=
  List.length (filter (is_king_of c board) l).

Definition kings (c : Color) (board : Board) : nat := kings_in c board SQUARES.

(** The squares rank by rank. *)
Definition ranks : list (list Square) :=
  map (fun r => map (fun f => 8 * r + f) [0; 1; 2; 3; 4; 5; 6; 7])
    [0; 1; 2; 3; 4; 5; 6; 7].

(** ** Example positions *)

Module Examples.

Definition piece (c : Color) (pt : PieceType) : option Piece :=
  Some {| piece_type := pt; color := c |}.

(** A placement from its 64 squares listed a1, b1, ..., h8. *)
Definition placement (l : list (option Piece)) : Square -> option Piece :=
  fun square => if square <? 0 then None else nth (Z.to_nat square) l None.

Definition empty_rank : list (option Piece) := repeat None 8.

Definition back_rank (c : Color) : list (option Piece) :=
  map (piece c) [ROOK; KNIGHT; BISHOP; QUEEN; KING; BISHOP; KNIGHT; ROOK].

Definition pawn_rank (c : Color) : list (option Piece) :=
  repeat (piece c PAWN) 8.

(** rnbqkbnr/pppppppp/8/8/8/8/PPPPPPPP/RNBQKBNR w KQkq - 0 1 *)
Definition starting_position : Position :=
  {| pos_pieces := placement
       (back_rank WHITE ++ pawn_rank WHITE ++
        empty_rank ++ empty_rank ++ empty_rank ++ empty_rank ++
        pawn_rank BLACK ++ back_rank BLACK);
     pos_turn := WHITE;
     pos_castling_rights := Z.lor (Z.lor 1 128)
                              (Z.lor (Z.shiftl 1 56) (Z.shiftl 1 63));
     pos_ep_square := None;
     pos_halfmove_clock := 0;
     pos_fullmove_number := 1 |}.

(** R5k1/5ppp/8/8/8/8/8/6K1 b - - 0 1: the white rook on a8 mates the black
    king on g8 behind its own pawns; Black is to move. *)
Definition back_rank_mate : Position :=
  {| pos_pieces := placement
       ([None; None; None; None; None; None; piece WHITE KING; None] ++
        empty_rank ++ empty_rank ++ empty_rank ++ empty_rank ++ empty_rank ++
        [None; None; None; None; None;
         piece BLACK PAWN; piece BLACK PAWN; piece BLACK PAWN] ++
        [piece WHITE ROOK; None; None; None; None; None;
         piece BLACK KING; None]);
     pos_turn := BLACK;
     pos_castling_rights := 0;
     pos_ep_square := None;
     pos_halfmove_clock := 0;
     pos_fullmove_number := 1 |}.

Definition Piece_eqb (a b : option Piece) : bool :=
  match a, b with
  | None, None => true
  | Some p, Some q =>
      PieceType_eqb (piece_type p) (piece_type q) &&
      Color_eqb (color p) (color q)
  | _, _ => false
  end.

(** Same pieces on the 64 squares and same side to move. *)
Definition same_position (p q : Position) : bool :=
  forallb (fun sq => Piece_eqb (pos_pieces p sq) (pos_pieces q sq)) SQUARES
  && Color_eqb (pos_turn p) (pos_turn q).

Definition mv (from to : Square) : Move :=
  {| from_square := from; to_square := to; promotion := None |}.

(** The legal moves of the starting position in the order the package
    yields them: g1h3 g1f3 b1c3 b1a3, h2h3 ... a2a3, h2h4 ... a2a4. *)
Definition starting_moves : list Move :=
  [mv 6 23; mv 6 21; mv 1 18; mv 1 16;
   mv 15 23; mv 14 22; mv 13 21; mv 12 20;
   mv 11 19; mv 10 18; mv 9 17; mv 8 16;
   mv 15 31; mv 14 30; mv 13 29; mv 12 28;
   mv 11 27; mv 10 26; mv 9 25; mv 8 24].

(** The effect of a move that is neither castling nor an en passant capture
    and leaves the castling rights alone, as all moves of
    [starting_moves] are. *)
Definition play (p : Position) (m : Move) : Position :=
  let moved := pos_pieces p (from_square m) in
  let placed :=
    match promotion m, moved with
    | Some pt, Some pc => piece (color pc) pt
    | _, _ => moved
    end in
  let is_pawn :=
    match moved with
    | Some pc => PieceType_eqb (piece_type pc) PAWN
    | None => false
    end in
  let is_capture :=
    match pos_pieces p (to_square m) with Some _ => true | None => false end in
  {| pos_pieces := fun sq =>
       if sq =? to_square m then placed
       else if sq =? from_square m then None
       else pos_pieces p sq;
     pos_turn := opposite (pos_turn p);
     pos_castling_rights := pos_castling_rights p;
     pos_ep_square :=
       if is_pawn && (Z.abs (to_square m - from_square m) =? 16)
       then Some ((from_square m + to_square m) / 2) else None;
     pos_halfmove_clock :=
       if is_pawn || is_capture then 0 else pos_halfmove_clock p + 1;
     pos_fullmove_number :=
       if Color_eqb (pos_turn p) BLACK then pos_fullmove_number p + 1
       else pos_fullmove_number p |}.

(** The answers of the rules package on the example positions: the starting
    position has its twenty moves and is not over, the positions one move
    later are not over either, [back_rank_mate] is checkmate.  Deeper
    positions are outside this table. *)
#[local] Instance example_rules : Rules :=
  {| legal_moves := fun board =>
       if same_position (position board) starting_position
       then starting_moves else [];
     is_checkmate := fun board =>
       same_position (position board) back_rank_mate;
     is_stalemate := fun _ => false;
     is_insufficient_material := fun _ => false;
     is_game_over := fun board =>
       same_position (position board) back_rank_mate;
     make_move := play |}.

(** 7k/8/5KQ1/8/8/8/8/8 w - - 0 1: king f6 and queen g6 against the king on
    h8, White to move. *)
Definition queen_ending : Position :=
  {| pos_pieces := placement
       (empty_rank ++ empty_rank ++ empty_rank ++ empty_rank ++ empty_rank ++
        [None; None; None; None; None;
         piece WHITE KING; piece WHITE QUEEN; None] ++
        empty_rank ++
        [None; None; None; None; None; None; None; piece BLACK KING]);
     pos_turn := WHITE;
     pos_castling_rights := 0;
     pos_ep_square := None;
     pos_halfmove_clock := 0;
     pos_fullmove_number := 1 |}.

(** The answers of the rules package on [queen_ending] and on its transform
    with White still to move, 8/8/8/8/8/5kq1/8/7K w: the first is an ordinary
    position, in the second the king on h1 is not attacked and g1, g2 and h2
    are, which is stalemate.  Move lists are outside this table. *)
Definition queen_ending_rules : Rules :=
  {| legal_moves := fun _ => [];
     is_checkmate := fun _ => false;
     is_stalemate := fun board =>
       same_position (position board) (mirror_pieces queen_ending);
     is_insufficient_material := fun _ => false;
     is_game_over := fun board =>
       same_position (position board) (mirror_pieces queen_ending);
     make_move := play |}.

Definition queen_ending_board : Board :=
  {| position := queen_ending; move_stack := [] |}.

Definition starting_board : Board :=
  {| position := starting_position; move_stack := [] |}.

Definition mated_board : Board :=
  {| position := back_rank_mate; move_stack := [] |}.

(** The board after 1. e4 (e2 = 12, e4 = 28). *)
Definition e4_board : Board := push starting_board (mv 12 28).

(** A clock that advances three ticks (seconds) between any two reads. *)
Definition slow_clock : Clock := fun k => 3 * Z.of_nat k.

(** A clock that does not advance at all. *)
Definition frozen_clock : Clock := fun _ => 0.

End Examples.

(** ** Example text interface *)

Module ProtocolExamples.

(** ["a1"], ..., ["h8"]. *)
Definition square_name (square : Square) : string :=
  String (ascii_of_nat (97 + Z.to_nat (square mod 8)))
    (String (ascii_of_nat (49 + Z.to_nat (square / 8))) EmptyString).

Definition promotion_letter (p : option PieceType) : string :=
  match p with
  | None => ""
  | Some KNIGHT => "n"
  | Some BISHOP => "b"
  | Some ROOK => "r"
  | Some QUEEN => "q"
  | Some _ => "?"
  end%string.

Definition move_name (m : Move) : string :=
  (square_name (from_square m) ++ square_name (to_square m)
   ++ promotion_letter (promotion m))%string.

(** Moves are read back from their names among the legal moves (one notation
    serves for both parsers); the one FEN
    string known is that of the starting position; every move but the null
    move counts as true. *)
#[local] Instance example_codec : Codec :=
  {| initial_position := Examples.starting_position;
     parse_fen := fun fen =>
       if String.eqb fen
            "rnbqkbnr/pppppppp/8/8/8/8/PPPPPPPP/RNBQKBNR w KQkq - 0 1"
       then Some Examples.starting_position else None;
     parse_uci := fun board text =>
       find (fun m => String.eqb (move_name m) text)
         (@legal_moves Examples.example_rules board);
     parse_san := fun board text =>
       find (fun m => String.eqb (move_name m) text)
         (@legal_moves Examples.example_rules board);
     uci := move_name;
     truthy := fun m =>
       negb ((from_square m =? 0) && (to_square m =? 0) &&
             match promotion m with None => true | Some _ => false end) |}.

(** A session on the starting position in which nothing was read or
    printed. *)
Definition fresh : Session :=
  {| s_board := Examples.starting_board; s_reads := 0; s_output := [] |}.

End ProtocolExamples.

(** * Properties *)

(** ** Scores *)

Ltac score_unfold :=
  unfold Score_le, Score_lt, Score_leb, Score_max, Score_min in *;
  simpl Score_ltb in *.

Ltac score_hyps :=
  repeat match goal with
    | H : _ /\ _ |- _ => destruct H
    | H : true = true -> _ |- _ => specialize (H eq_refl)
    | H : false = true -> _ |- _ => clear H
    | H : Fin _ = Fin _ |- _ => injection H as H
    | H : true = false |- _ => discriminate H
    | H : false = true |- _ => discriminate H
    end.

Ltac score_prune :=
  score_hyps; try solve [exfalso; congruence]; try solve [exfalso; lia].

Ltac split_one_ltb :=
  match goal with
  | |- context [?a <? ?b] => destruct (Z.ltb_spec a b)
  | H : context [?a <? ?b] |- _ => destruct (Z.ltb_spec a b)
  end.

(** Score facts with implications among the hypotheses: case analysis on the
    scores and on the comparisons, dropping impossible cases as they appear,
    then linear arithmetic. *)
Ltac score_crush :=
  unfold bounded_by in *;
  repeat match goal with s : Score |- _ => destruct s end;
  score_unfold; cbn [Score_ltb negb] in *; score_prune;
  repeat (split_one_ltb; cbn [Score_ltb negb] in *; score_prune);
  repeat split; intros; score_hyps;
  try discriminate; try reflexivity; try (f_equal; lia); try lia.

(** ** The evaluator *)


Lemma evaluate_square_step (board : Board) (m p : Z) (square : Square) :
  evaluate_square board (m, p) square
  = (m + material_at board square, p + pst_at board square).
Proof.
  unfold evaluate_square, material_at, pst_at.
  destruct (piece_at board square) as [pc|].
  - destruct (Color_eqb (color pc) WHITE); f_equal; lia.
  - f_equal; lia.
Qed.

Lemma fold_evaluate_square (board : Board) (l : list Square) (m p : Z) :
  fold_left (evaluate_square board) l (m, p)
  = (m + Zsum (map (material_at board) l), p + Zsum (map (pst_at board) l)).
Proof.
  revert m p. unfold Zsum.
  induction l as [|sq l IH]; intros m p; cbn [fold_left map fold_right].
  - f_equal; lia.
  - rewrite evaluate_square_step, IH. f_equal; lia.
Qed.

Lemma total_score_sum (board : Board) :
  total_score board
  = Zsum (map (material_at board) SQUARES) + Zsum (map (pst_at board) SQUARES).
Proof.
  unfold total_score. rewrite fold_evaluate_square. lia.
Qed.




(** The board as eight ranks, and the mirrored board as the same ranks in
    reverse order. *)
Lemma SQUARES_ranks : SQUARES = List.concat ranks.
Proof. vm_compute. reflexivity. Qed.

Lemma mirror_ranks : map square_mirror SQUARES = List.concat (rev ranks).
Proof. vm_compute. reflexivity. Qed.




(** The indices looked up in the tables stay in 0..63. *)
Lemma square_mirror_range (square : Square) :
  In square SQUARES -> In (square_mirror square) SQUARES.
Proof.
  intros Hin. apply (in_map square_mirror) in Hin.
  rewrite mirror_ranks in Hin. rewrite SQUARES_ranks.
  apply in_concat in Hin as (l & Hl & Hx). apply in_concat.
  exists l. split; [now apply in_rev|assumption].
Qed.




Section Evaluator.
Context `{Rules}.

Lemma evaluate_position_non_terminal (board : Board) :
  non_terminal board ->
  evaluate_position board
  = if Color_eqb (turn board) WHITE then total_score board
    else - total_score board.
Proof.
  intros (Hc & Hs & Hi). unfold evaluate_position.
  now rewrite Hc, Hs, Hi.
Qed.

(** C1, as the code has it: in a checkmate position [evaluate_position]
    returns -99999 when White is the side to move (the mated side) and
    +99999 when Black is; the sentinel is White-positive, not relative to
    the side to move. *)
Theorem evaluate_position_checkmate (board : Board) :
  is_checkmate board = true ->
  evaluate_position board
  = match turn board with WHITE => -99999 | BLACK => 99999 end.
Proof.
  intros Hmate. unfold evaluate_position. rewrite Hmate.
  now destruct (turn board).
Qed.


End Evaluator.

(** C1 fails as stated: in the back-rank mate Black is to move and mated,
    and the evaluator returns +99999. *)
Lemma evaluate_position_checkmate_black_positive :
  is_checkmate (Rules := Examples.example_rules) Examples.mated_board = true
  /\ turn Examples.mated_board = BLACK
  /\ evaluate_position (H := Examples.example_rules) Examples.mated_board
     <> -99999.
Proof. vm_compute. repeat split; discriminate. Qed.

Lemma evaluate_position_checkmate_witness :
  is_checkmate (Rules := Examples.example_rules) Examples.mated_board = true
  /\ evaluate_position (H := Examples.example_rules) Examples.mated_board
     = 99999.
Proof.
  split; [vm_compute; reflexivity|].
  rewrite (evaluate_position_checkmate (H := Examples.example_rules)
             Examples.mated_board); vm_compute; reflexivity.
Defined.



(** With the side to move kept, the transform of a position that is not
    finished can be stalemate: the scores are then 915 and 0. *)
Lemma evaluate_position_mirror_keep_turn_stalemate :
  non_terminal (H := Examples.queen_ending_rules) Examples.queen_ending_board
  /\ evaluate_position (H := Examples.queen_ending_rules)
       Examples.queen_ending_board = 915
  /\ is_stalemate (Rules := Examples.queen_ending_rules)
       (mirror_keep_turn Examples.queen_ending_board) = true
  /\ evaluate_position (H := Examples.queen_ending_rules)
       (mirror_keep_turn Examples.queen_ending_board) = 0.
Proof. vm_compute. repeat split. Qed.

(** ** The search: the board is restored *)

Lemma pop_push `{Rules} (board : Board) (move : Move) :
  pop (push board move) = Some (move, board).
Proof. destruct board; reflexivity. Qed.

Section SearchFrame.
Context `{Rules}.

Lemma max_loop_restores (rec : Score -> Score -> M Board Score) :
  (forall a b, restores (rec a b)) ->
  forall legal max_eval alpha beta,
    restores (max_loop rec legal max_eval alpha beta).
Proof.
  intros Hrec legal.
  induction legal as [|move rest IH]; intros max_eval alpha beta board s board'.
  - cbn. intros [= _ <-]. reflexivity.
  - cbn [max_loop]. unfold bind, do_push, do_pop.
    destruct (rec alpha beta (push board move)) as [[e b1]| |] eqn:E;
      try discriminate.
    apply Hrec in E. subst b1. rewrite pop_push.
    destruct (Score_leb beta (Score_max alpha e)).
    + intros [= _ <-]. reflexivity.
    + apply IH.
Qed.

Lemma min_loop_restores (rec : Score -> Score -> M Board Score) :
  (forall a b, restores (rec a b)) ->
  forall legal min_eval alpha beta,
    restores (min_loop rec legal min_eval alpha beta).
Proof.
  intros Hrec legal.
  induction legal as [|move rest IH]; intros min_eval alpha beta board s board'.
  - cbn. intros [= _ <-]. reflexivity.
  - cbn [min_loop]. unfold bind, do_push, do_pop.
    destruct (rec alpha beta (push board move)) as [[e b1]| |] eqn:E;
      try discriminate.
    apply Hrec in E. subst b1. rewrite pop_push.
    destruct (Score_leb (Score_min beta e) alpha).
    + intros [= _ <-]. reflexivity.
    + apply IH.
Qed.

Lemma alpha_beta_restores (fuel : nat) :
  forall depth alpha beta maximizing_player,
    restores (alpha_beta fuel depth alpha beta maximizing_player).
Proof.
  induction fuel as [|fuel IH]; intros depth alpha beta mx board s board'.
  - discriminate.
  - cbn [alpha_beta]. unfold bind, get.
    destruct ((depth =? 0) || is_game_over board).
    + intros [= _ <-]. reflexivity.
    + destruct (legal_moves board) as [|m ms].
      * intros [= _ <-]. reflexivity.
      * destruct mx.
        -- apply max_loop_restores. intros a b. apply IH.
        -- apply min_loop_restores. intros a b. apply IH.
Qed.

End SearchFrame.

(** ** The search: it returns, and what it returns *)

Section SearchRuns.
Context `{Rules}.

Lemma max_loop_runs (rec : Score -> Score -> M Board Score)
  (child : Move -> Score -> Score -> Score) (board : Board) :
  forall legal,
    (forall move a b, In move legal ->
       rec a b (push board move) = Ok (child move a b, push board move)) ->
    forall max_eval alpha beta,
      max_loop rec legal max_eval alpha beta board
      = Ok (max_value child legal max_eval alpha beta, board).
Proof.
  induction legal as [|move rest IH]; intros Hrec max_eval alpha beta.
  - reflexivity.
  - cbn [max_loop max_value]. unfold bind, do_push, do_pop.
    rewrite (Hrec move alpha beta (or_introl eq_refl)), pop_push.
    destruct (Score_leb beta (Score_max alpha (child move alpha beta))).
    + reflexivity.
    + apply IH. intros m a b Hin. apply Hrec. now right.
Qed.

Lemma min_loop_runs (rec : Score -> Score -> M Board Score)
  (child : Move -> Score -> Score -> Score) (board : Board) :
  forall legal,
    (forall move a b, In move legal ->
       rec a b (push board move) = Ok (child move a b, push board move)) ->
    forall min_eval alpha beta,
      min_loop rec legal min_eval alpha beta board
      = Ok (min_value child legal min_eval alpha beta, board).
Proof.
  induction legal as [|move rest IH]; intros Hrec min_eval alpha beta.
  - reflexivity.
  - cbn [min_loop min_value]. unfold bind, do_push, do_pop.
    rewrite (Hrec move alpha beta (or_introl eq_refl)), pop_push.
    destruct (Score_leb (Score_min beta (child move alpha beta)) alpha).
    + reflexivity.
    + apply IH. intros m a b Hin. apply Hrec. now right.
Qed.

(** With more fuel than [depth], [alpha_beta] returns the value
    [alpha_beta_value] and leaves the board as it was. *)
Lemma alpha_beta_runs (n : nat) :
  forall fuel depth alpha beta maximizing_player board,
    depth = Z.of_nat n -> (n < fuel)%nat ->
    alpha_beta fuel depth alpha beta maximizing_player board
    = Ok (alpha_beta_value n board alpha beta maximizing_player, board).
Proof.
  induction n as [|n IH]; intros fuel depth alpha beta mx board Hd Hf;
    (destruct fuel as [|fuel]; [lia|]); cbn [alpha_beta alpha_beta_value];
    unfold bind, get.
  - subst depth. reflexivity.
  - replace (depth =? 0) with false by (symmetry; apply Z.eqb_neq; lia).
    cbn [orb]. destruct (is_game_over board); [reflexivity|].
    destruct (legal_moves board) as [|m ms] eqn:El; [reflexivity|].
    destruct mx.
    + apply max_loop_runs. intros move a b _. apply IH; lia.
    + apply min_loop_runs. intros move a b _. apply IH; lia.
Qed.

End SearchRuns.

(** ** The search: the result is a leaf evaluation *)

Section SearchLeaf.
Context `{Rules}.

(** The loops return the running best or one of the children's scores; with
    a running best that is still the initial sentinel and at least one move
    it is a child's score. *)
Lemma max_value_pick (P : Score -> Prop)
  (child : Move -> Score -> Score -> Score) (beta : Score) :
  (forall s, P s -> exists z, s = Fin z) ->
  forall legal,
    (forall move a, In move legal -> P (child move a beta)) ->
    forall max_eval alpha,
      max_eval = NegInf \/ P max_eval ->
      (legal = [] -> P max_eval) ->
      P (max_value child legal max_eval alpha beta).
Proof.
  intros HP legal.
  induction legal as [|move rest IH]; intros Hc max_eval alpha Hme Hnil.
  - now apply Hnil.
  - cbn [max_value].
    pose proof (Hc move alpha (or_introl eq_refl)) as Hs.
    destruct (HP _ Hs) as [z Ez].
    assert (Hbest : P (Score_max max_eval (child move alpha beta))).
    { destruct Hme as [-> | Hme].
      - rewrite Ez. cbn. now rewrite <- Ez.
      - unfold Score_max.
        now destruct (Score_ltb max_eval (child move alpha beta)). }
    destruct (Score_leb beta (Score_max alpha (child move alpha beta)));
      [exact Hbest|].
    apply IH; auto. intros m a Hin. apply Hc. now right.
Qed.

Lemma min_value_pick (P : Score -> Prop)
  (child : Move -> Score -> Score -> Score) (alpha : Score) :
  (forall s, P s -> exists z, s = Fin z) ->
  forall legal,
    (forall move b, In move legal -> P (child move alpha b)) ->
    forall min_eval beta,
      min_eval = PosInf \/ P min_eval ->
      (legal = [] -> P min_eval) ->
      P (min_value child legal min_eval alpha beta).
Proof.
  intros HP legal.
  induction legal as [|move rest IH]; intros Hc min_eval beta Hme Hnil.
  - now apply Hnil.
  - cbn [min_value].
    pose proof (Hc move beta (or_introl eq_refl)) as Hs.
    destruct (HP _ Hs) as [z Ez].
    assert (Hbest : P (Score_min min_eval (child move alpha beta))).
    { destruct Hme as [-> | Hme].
      - rewrite Ez. cbn. now rewrite <- Ez.
      - unfold Score_min.
        now destruct (Score_ltb (child move alpha beta) min_eval). }
    destruct (Score_leb (Score_min beta (child move alpha beta)) alpha);
      [exact Hbest|].
    apply IH; auto. intros m b Hin. apply Hc. now right.
Qed.

Lemma leaf_score_child (n : nat) (board : Board) (move : Move) (s : Score) :
  In move (legal_moves board) ->
  leaf_score n (push board move) s -> leaf_score (S n) board s.
Proof.
  intros Hin (b' & Hw & ->). exists b'. split; [|reflexivity].
  now apply within_step with move.
Qed.

Lemma alpha_beta_value_leaf (n : nat) :
  forall board alpha beta maximizing_player,
    leaf_score n board
      (alpha_beta_value n board alpha beta maximizing_player).
Proof.
  induction n as [|n IH]; intros board alpha beta mx;
    cbn [alpha_beta_value].
  - exists board. split; [constructor | reflexivity].
  - assert (Hhere : leaf_score (S n) board (Fin (evaluate_position board)))
      by (exists board; split; [constructor | reflexivity]).
    destruct (is_game_over board); [exact Hhere|].
    destruct (legal_moves board) as [|m ms] eqn:El; [exact Hhere|].
    rewrite <- El.
    assert (Hfin : forall s, leaf_score (S n) board s -> exists z, s = Fin z)
      by (intros s (b' & _ & ->); eauto).
    assert (Hne : legal_moves board = [] -> False)
      by (rewrite El; discriminate).
    destruct mx.
    + apply max_value_pick; auto; try tauto.
      intros move a Hin. apply leaf_score_child with move; auto.
    + apply min_value_pick; auto; try tauto.
      intros move b Hin. apply leaf_score_child with move; auto.
Qed.

End SearchLeaf.

(** ** The search: pruning does not change the value *)

Section SearchMinimax.
Context `{Rules}.

Lemma fold_max_init (l : list Z) (x0 : Z) : x0 <= fold_left Z.max l x0.
Proof.
  revert x0. induction l as [|z l IH]; intros x0; cbn; [lia|].
  etransitivity; [|apply IH]. lia.
Qed.

Lemma fold_min_init (l : list Z) (x0 : Z) : fold_left Z.min l x0 <= x0.
Proof.
  revert x0. induction l as [|z l IH]; intros x0; cbn; [lia|].
  etransitivity; [apply IH|]. lia.
Qed.

Lemma fold_max_upper (l : list Z) (x0 x : Z) :
  x = x0 \/ In x l -> x <= fold_left Z.max l x0.
Proof.
  revert x0. induction l as [|y l IH]; intros x0 [Hx | Hx]; cbn.
  - lia.
  - destruct Hx.
  - subst. etransitivity; [|apply fold_max_init]. lia.
  - destruct Hx as [-> | Hx].
    + etransitivity; [|apply fold_max_init]. lia.
    + apply IH. now right.
Qed.

Lemma fold_max_attained (l : list Z) (x0 : Z) :
  fold_left Z.max l x0 = x0 \/ In (fold_left Z.max l x0) l.
Proof.
  revert x0. induction l as [|y l IH]; intros x0; cbn; [now left|].
  destruct (IH (Z.max x0 y)) as [E | Hin].
  - rewrite E. destruct (Z.max_spec x0 y) as [[_ ->] | [_ ->]]; auto.
  - right. now right.
Qed.

Lemma fold_min_lower (l : list Z) (x0 x : Z) :
  x = x0 \/ In x l -> fold_left Z.min l x0 <= x.
Proof.
  revert x0. induction l as [|y l IH]; intros x0 [Hx | Hx]; cbn.
  - lia.
  - destruct Hx.
  - subst. etransitivity; [apply fold_min_init|]. lia.
  - destruct Hx as [-> | Hx].
    + etransitivity; [apply fold_min_init|]. lia.
    + apply IH. now right.
Qed.

Lemma fold_min_attained (l : list Z) (x0 : Z) :
  fold_left Z.min l x0 = x0 \/ In (fold_left Z.min l x0) l.
Proof.
  revert x0. induction l as [|y l IH]; intros x0; cbn; [now left|].
  destruct (IH (Z.min x0 y)) as [E | Hin].
  - rewrite E. destruct (Z.min_spec x0 y) as [[_ ->] | [_ ->]]; auto.
  - right. now right.
Qed.

End SearchMinimax.

Section SearchSound.
Context `{Rules}.

Lemma max_value_sound (child : Move -> Score -> Score -> Score)
  (val : Move -> Z) (beta : Score) :
  forall legal,
    (forall move a, In move legal -> Score_lt a beta ->
       exists r, child move a beta = Fin r /\
                 bounded_by (val move) a beta (Fin r)) ->
    forall max_eval alpha,
      Score_lt alpha beta -> Score_le max_eval alpha ->
      let R := max_value child legal max_eval alpha beta in
      Score_le max_eval R /\
      (Score_le R alpha ->
       forall move, In move legal -> Score_le (Fin (val move)) R) /\
      (Score_le beta R ->
       exists move, In move legal /\ Score_le R (Fin (val move))) /\
      (Score_lt alpha R -> Score_lt R beta ->
       (forall move, In move legal -> Score_le (Fin (val move)) R) /\
       exists move, In move legal /\ R = Fin (val move)).
Proof.
  induction legal as [|m rest IH]; intros Hc me alpha Hab Hme; cbn zeta.
  - cbn [max_value]. repeat split.
    + score_crush.
    + intros _ move [].
    + intros Hb. exfalso. score_crush.
    + intros move [].
    + exfalso. score_crush.
  - cbn [max_value].
    destruct (Hc m alpha (or_introl eq_refl) Hab) as (r & Er & Hb).
    rewrite Er.
    destruct (Score_leb beta (Score_max alpha (Fin r))) eqn:Ecut.
    + (* cutoff *)
      assert (Hr : Score_le beta (Fin r) /\ Score_max me (Fin r) = Fin r)
        by (clear IH Hc Er; score_crush).
      destruct Hr as [Hbr ->]. repeat split.
      * clear IH Hc Er. score_crush.
      * intros Hlow. exfalso. clear IH Hc Er. score_crush.
      * intros _. exists m. split; [now left|].
        clear IH Hc Er. score_crush.
      * exfalso. clear IH Hc Er. score_crush.
      * exfalso. clear IH Hc Er. score_crush.
    + (* the loop goes on *)
      assert (Hc' : forall move a, In move rest -> Score_lt a beta ->
                exists r0, child move a beta = Fin r0 /\
                           bounded_by (val move) a beta (Fin r0))
        by (intros move a Hin; apply Hc; now right).
      assert (Hab' : Score_lt (Score_max alpha (Fin r)) beta)
        by (clear IH Hc Hc' Er; score_crush).
      assert (Hme' : Score_le (Score_max me (Fin r)) (Score_max alpha (Fin r)))
        by (clear IH Hc Hc' Er; score_crush).
      specialize (IH Hc' _ _ Hab' Hme'). cbn zeta in IH.
      remember (max_value child rest (Score_max me (Fin r))
                  (Score_max alpha (Fin r)) beta) as R eqn:ER.
      clear ER Hc Hc' Er.
      destruct IH as (I1 & I2 & I3 & I4). repeat split.
      * clear I2 I3 I4. score_crush.
      * intros Hlow move [<- | Hin].
        -- clear I2 I3 I4. score_crush.
        -- apply I2; [|exact Hin]. clear I2 I3 I4. score_crush.
      * intros Hhigh. destruct (I3 Hhigh) as (move & Hin & Hle).
        exists move. split; [now right | exact Hle].
      * intros move Hin.
        destruct (Score_leb R (Score_max alpha (Fin r))) eqn:Ecase.
        -- destruct Hin as [<- | Hin].
           ++ clear I2 I3 I4. score_crush.
           ++ apply I2; [exact Ecase | exact Hin].
        -- assert (Hin' : Score_lt (Score_max alpha (Fin r)) R)
             by (clear I2 I3 I4; score_crush).
           destruct (I4 Hin' H1) as [Hall _].
           destruct Hin as [<- | Hin]; [|now apply Hall].
           clear I2 I3 I4 Hall. score_crush.
      * destruct (Score_leb R (Score_max alpha (Fin r))) eqn:Ecase.
        -- exists m. split; [now left|]. clear I2 I3 I4. score_crush.
        -- assert (Hin' : Score_lt (Score_max alpha (Fin r)) R)
             by (clear I2 I3 I4; score_crush).
           destruct (I4 Hin' H1) as [_ (move & Hin & E)].
           exists move. split; [now right | exact E].
Qed.

Lemma min_value_sound (child : Move -> Score -> Score -> Score)
  (val : Move -> Z) (alpha : Score) :
  forall legal,
    (forall move b, In move legal -> Score_lt alpha b ->
       exists r, child move alpha b = Fin r /\
                 bounded_by (val move) alpha b (Fin r)) ->
    forall min_eval beta,
      Score_lt alpha beta -> Score_le beta min_eval ->
      let R := min_value child legal min_eval alpha beta in
      Score_le R min_eval /\
      (Score_le beta R ->
       forall move, In move legal -> Score_le R (Fin (val move))) /\
      (Score_le R alpha ->
       exists move, In move legal /\ Score_le (Fin (val move)) R) /\
      (Score_lt alpha R -> Score_lt R beta ->
       (forall move, In move legal -> Score_le R (Fin (val move))) /\
       exists move, In move legal /\ R = Fin (val move)).
Proof.
  induction legal as [|m rest IH]; intros Hc me beta Hab Hme; cbn zeta.
  - cbn [min_value]. repeat split.
    + score_crush.
    + intros _ move [].
    + intros Hb. exfalso. score_crush.
    + intros move [].
    + exfalso. score_crush.
  - cbn [min_value].
    destruct (Hc m beta (or_introl eq_refl) Hab) as (r & Er & Hb).
    rewrite Er.
    destruct (Score_leb (Score_min beta (Fin r)) alpha) eqn:Ecut.
    + (* cutoff *)
      assert (Hr : Score_le (Fin r) alpha /\ Score_min me (Fin r) = Fin r)
        by (clear IH Hc Er; score_crush).
      destruct Hr as [Hbr ->]. repeat split.
      * clear IH Hc Er. score_crush.
      * intros Hhigh. exfalso. clear IH Hc Er. score_crush.
      * intros _. exists m. split; [now left|].
        clear IH Hc Er. score_crush.
      * exfalso. clear IH Hc Er. score_crush.
      * exfalso. clear IH Hc Er. score_crush.
    + (* the loop goes on *)
      assert (Hc' : forall move b, In move rest -> Score_lt alpha b ->
                exists r0, child move alpha b = Fin r0 /\
                           bounded_by (val move) alpha b (Fin r0))
        by (intros move b Hin; apply Hc; now right).
      assert (Hab' : Score_lt alpha (Score_min beta (Fin r)))
        by (clear IH Hc Hc' Er; score_crush).
      assert (Hme' : Score_le (Score_min beta (Fin r)) (Score_min me (Fin r)))
        by (clear IH Hc Hc' Er; score_crush).
      specialize (IH Hc' _ _ Hab' Hme'). cbn zeta in IH.
      remember (min_value child rest (Score_min me (Fin r)) alpha
                  (Score_min beta (Fin r))) as R eqn:ER.
      clear ER Hc Hc' Er.
      destruct IH as (I1 & I2 & I3 & I4). repeat split.
      * clear I2 I3 I4. score_crush.
      * intros Hhigh move [<- | Hin].
        -- clear I2 I3 I4. score_crush.
        -- apply I2; [|exact Hin]. clear I2 I3 I4. score_crush.
      * intros Hlow. destruct (I3 Hlow) as (move & Hin & Hle).
        exists move. split; [now right | exact Hle].
      * intros move Hin.
        destruct (Score_leb (Score_min beta (Fin r)) R) eqn:Ecase.
        -- destruct Hin as [<- | Hin].
           ++ clear I2 I3 I4. score_crush.
           ++ apply I2; [exact Ecase | exact Hin].
        -- assert (Hin' : Score_lt R (Score_min beta (Fin r)))
             by (clear I2 I3 I4; score_crush).
           destruct (I4 H0 Hin') as [Hall _].
           destruct Hin as [<- | Hin]; [|now apply Hall].
           clear I2 I3 I4 Hall. score_crush.
      * destruct (Score_leb (Score_min beta (Fin r)) R) eqn:Ecase.
        -- exists m. split; [now left|]. clear I2 I3 I4. score_crush.
        -- assert (Hin' : Score_lt R (Score_min beta (Fin r)))
             by (clear I2 I3 I4; score_crush).
           destruct (I4 H0 Hin') as [_ (move & Hin & E)].
           exists move. split; [now right | exact E].
Qed.

End SearchSound.

Section SearchExact.
Context `{Rules}.

Lemma bounded_by_exact (v : Z) (alpha beta : Score) :
  bounded_by v alpha beta (Fin v).
Proof. score_crush. Qed.

Lemma fold_max_children (val : Move -> Z) (m : Move) (ms : list Move) :
  let V := fold_left Z.max (map val ms) (val m) in
  (forall move, In move (m :: ms) -> val move <= V) /\
  (exists move, In move (m :: ms) /\ V = val move).
Proof.
  cbn zeta. split.
  - intros move [<- | Hin]; apply fold_max_upper; [now left|].
    right. now apply in_map.
  - destruct (fold_max_attained (map val ms) (val m)) as [E | Hin].
    + exists m. split; [now left | exact E].
    + apply in_map_iff in Hin as (move & E & Hin).
      exists move. split; [now right | now rewrite E].
Qed.

Lemma fold_min_children (val : Move -> Z) (m : Move) (ms : list Move) :
  let V := fold_left Z.min (map val ms) (val m) in
  (forall move, In move (m :: ms) -> V <= val move) /\
  (exists move, In move (m :: ms) /\ V = val move).
Proof.
  cbn zeta. split.
  - intros move [<- | Hin]; apply fold_min_lower; [now left|].
    right. now apply in_map.
  - destruct (fold_min_attained (map val ms) (val m)) as [E | Hin].
    + exists m. split; [now left | exact E].
    + apply in_map_iff in Hin as (move & E & Hin).
      exists move. split; [now right | now rewrite E].
Qed.

Lemma Score_le_NegInf (a : Score) : Score_le NegInf a.
Proof. now destruct a. Qed.

Lemma Score_le_PosInf (a : Score) : Score_le a PosInf.
Proof. now destruct a. Qed.

Lemma Score_le_Fin (a b : Z) : Score_le (Fin a) (Fin b) <-> a <= b.
Proof.
  unfold Score_le, Score_leb. cbn [Score_ltb].
  destruct (Z.ltb_spec b a); cbn; split; intros; try lia; discriminate.
Qed.

(** The value of the pruning search stands for the minimax value of the
    same tree, in the sense of [bounded_by]. *)
Lemma alpha_beta_value_sound (n : nat) :
  forall board alpha beta maximizing_player,
    Score_lt alpha beta ->
    exists r,
      alpha_beta_value n board alpha beta maximizing_player = Fin r /\
      bounded_by (minimax n board maximizing_player) alpha beta (Fin r).
Proof.
  induction n as [|n IH]; intros board alpha beta mx Hab;
    cbn [alpha_beta_value minimax].
  - eexists. split; [reflexivity | apply bounded_by_exact].
  - destruct (is_game_over board);
      [eexists; split; [reflexivity | apply bounded_by_exact]|].
    destruct (legal_moves board) as [|m ms] eqn:El;
      [eexists; split; [reflexivity | apply bounded_by_exact]|].
    destruct mx; cbn [negb].
    + pose proof (fold_max_children
                    (fun move => minimax n (push board move) false) m ms)
        as [Hup (m0 & Hin0 & EV)].
      cbn zeta beta in Hup, EV.
      set (V := fold_left Z.max _ _) in *. clearbody V.
      set (child := fun move a b =>
               alpha_beta_value n (push board move) a b false).
      set (val := fun move => minimax n (push board move) false) in *.
      assert (Hc : forall move a, In move (m :: ms) -> Score_lt a beta ->
                exists r, child move a beta = Fin r /\
                          bounded_by (val move) a beta (Fin r))
        by (intros move a _ Ha; apply IH; exact Ha).
      assert (Hfin : exists r, max_value child (m :: ms) NegInf alpha beta
                               = Fin r).
      { apply (max_value_pick (fun s => exists z, s = Fin z)); auto.
        - intros move a _. unfold child.
          destruct (alpha_beta_value_leaf n (push board move) a beta false)
            as (b' & _ & ->). eauto.
        - discriminate. }
      destruct Hfin as [r Er]. exists r. split; [exact Er|].
      destruct (max_value_sound child val beta (m :: ms) Hc NegInf alpha Hab
                  (Score_le_NegInf alpha)) as (_ & P1 & P2 & P3).
      rewrite Er in P1, P2, P3. clear Hc Er.
      unfold val in *. cbn beta in *.
      unfold bounded_by. repeat split.
      * intros Hlow. specialize (P1 Hlow m0 Hin0).
        apply Score_le_Fin. apply Score_le_Fin in P1. lia.
      * intros Hhigh. destruct (P2 Hhigh) as (move & Hin & Hle).
        apply Score_le_Fin. apply Score_le_Fin in Hle.
        specialize (Hup move Hin). lia.
      * intros Hlo Hhi. destruct (P3 Hlo Hhi) as [Hall (move & Hin & E)].
        injection E as E. f_equal.
        specialize (Hup move Hin).
        specialize (Hall m0 Hin0). apply Score_le_Fin in Hall. lia.
    + pose proof (fold_min_children
                    (fun move => minimax n (push board move) true) m ms)
        as [Hlow (m0 & Hin0 & EV)].
      cbn zeta beta in Hlow, EV.
      set (V := fold_left Z.min _ _) in *. clearbody V.
      set (child := fun move a b =>
               alpha_beta_value n (push board move) a b true).
      set (val := fun move => minimax n (push board move) true) in *.
      assert (Hc : forall move b, In move (m :: ms) -> Score_lt alpha b ->
                exists r, child move alpha b = Fin r /\
                          bounded_by (val move) alpha b (Fin r))
        by (intros move b _ Hb; apply IH; exact Hb).
      assert (Hfin : exists r, min_value child (m :: ms) PosInf alpha beta
                               = Fin r).
      { apply (min_value_pick (fun s => exists z, s = Fin z)); auto.
        - intros move b _. unfold child.
          destruct (alpha_beta_value_leaf n (push board move) alpha b true)
            as (b' & _ & ->). eauto.
        - discriminate. }
      destruct Hfin as [r Er]. exists r. split; [exact Er|].
      destruct (min_value_sound child val alpha (m :: ms) Hc PosInf beta Hab
                  (Score_le_PosInf beta)) as (_ & P1 & P2 & P3).
      rewrite Er in P1, P2, P3. clear Hc Er.
      unfold val in *. cbn beta in *.
      unfold bounded_by. repeat split.
      * intros Hl. destruct (P2 Hl) as (move & Hin & Hle).
        apply Score_le_Fin. apply Score_le_Fin in Hle.
        specialize (Hlow move Hin). lia.
      * intros Hhigh. specialize (P1 Hhigh m0 Hin0).
        apply Score_le_Fin. apply Score_le_Fin in P1. lia.
      * intros Hlo Hhi. destruct (P3 Hlo Hhi) as [Hall (move & Hin & E)].
        injection E as E. f_equal.
        specialize (Hlow move Hin).
        specialize (Hall m0 Hin0). apply Score_le_Fin in Hall. lia.
Qed.

End SearchExact.

(** ** The search: the claims *)

Section SearchClaims.
Context `{Rules}.

(** C9: for every board and every depth >= 0, [alpha_beta] terminates
    without failing: a recursion budget of more than [depth] nested calls is
    enough for it to return a score (and the board as it was), whatever the
    window and the side. *)
Theorem alpha_beta_terminates (fuel : nat) (depth : Z) (alpha beta : Score)
  (maximizing_player : bool) (board : Board) :
  0 <= depth -> (Z.to_nat depth < fuel)%nat ->
  exists score,
    alpha_beta fuel depth alpha beta maximizing_player board
    = Ok (score, board).
Proof.
  intros Hd Hf. eexists.
  apply (alpha_beta_runs (Z.to_nat depth)); [lia | exact Hf].
Qed.

(** C10: [alpha_beta] never returns an infinite sentinel: for every board
    and every depth >= 0 its result is the integer that [evaluate_position]
    gives on some board reachable within [depth] plies. *)
Theorem alpha_beta_returns_leaf_evaluation (fuel : nat) (depth : Z)
  (alpha beta : Score) (maximizing_player : bool) (board : Board) :
  0 <= depth -> (Z.to_nat depth < fuel)%nat ->
  exists leaf,
    within_plies (Z.to_nat depth) board leaf /\
    alpha_beta fuel depth alpha beta maximizing_player board
    = Ok (Fin (evaluate_position leaf), board).
Proof.
  intros Hd Hf.
  destruct (alpha_beta_value_leaf (Z.to_nat depth) board alpha beta
              maximizing_player) as (leaf & Hw & E).
  exists leaf. split; [exact Hw|]. rewrite <- E.
  apply (alpha_beta_runs (Z.to_nat depth)); [lia | exact Hf].
Qed.

(** C2: for every board and every depth >= 0, [alpha_beta] with the full
    window (-inf, +inf) returns the score of the unpruned [minimax] search
    of the same tree with the same evaluator. *)
Theorem alpha_beta_full_window_minimax (fuel : nat) (depth : Z)
  (maximizing_player : bool) (board : Board) :
  0 <= depth -> (Z.to_nat depth < fuel)%nat ->
  alpha_beta fuel depth NegInf PosInf maximizing_player board
  = Ok (Fin (minimax (Z.to_nat depth) board maximizing_player), board).
Proof.
  intros Hd Hf.
  rewrite (alpha_beta_runs (Z.to_nat depth)) by (lia || exact Hf).
  destruct (alpha_beta_value_sound (Z.to_nat depth) board NegInf PosInf
              maximizing_player eq_refl) as (r & -> & _ & _ & Hin).
  now rewrite (Hin eq_refl eq_refl).
Qed.

End SearchClaims.

Lemma alpha_beta_terminates_witness :
  0 <= 1 /\ (Z.to_nat 1 < 2)%nat /\
  exists score,
    alpha_beta (H := Examples.example_rules) 2 1 (Fin 0) (Fin 30) true
      Examples.starting_board
    = Ok (score, Examples.starting_board).
Proof.
  split; [lia|]. split; [cbn; lia|].
  apply (alpha_beta_terminates (H := Examples.example_rules));
    [lia | cbn; lia].
Defined.

Lemma alpha_beta_returns_leaf_evaluation_witness :
  0 <= 1 /\ (Z.to_nat 1 < 2)%nat /\
  exists leaf,
    within_plies (H := Examples.example_rules) (Z.to_nat 1)
      Examples.starting_board leaf /\
    alpha_beta (H := Examples.example_rules) 2 1 NegInf PosInf true
      Examples.starting_board
    = Ok (Fin (evaluate_position (H := Examples.example_rules) leaf),
          Examples.starting_board).
Proof.
  split; [lia|]. split; [cbn; lia|].
  apply (alpha_beta_returns_leaf_evaluation (H := Examples.example_rules));
    [lia | cbn; lia].
Defined.

Lemma alpha_beta_full_window_minimax_witness :
  0 <= 1 /\ (Z.to_nat 1 < 2)%nat /\
  alpha_beta (H := Examples.example_rules) 2 1 NegInf PosInf true
    Examples.starting_board
  = Ok (Fin (minimax (H := Examples.example_rules) (Z.to_nat 1)
               Examples.starting_board true),
        Examples.starting_board).
Proof.
  split; [lia|]. split; [cbn; lia|].
  apply (alpha_beta_full_window_minimax (H := Examples.example_rules));
    [lia | cbn; lia].
Defined.

(** On the starting position, one ply deep, both searches give 45. *)
Example minimax_starting_board :
  minimax (H := Examples.example_rules) 1 Examples.starting_board true = 45
  /\ alpha_beta (H := Examples.example_rules) 2 1 NegInf PosInf true
       Examples.starting_board
     = Ok (Fin 45, Examples.starting_board).
Proof. vm_compute. split; reflexivity. Qed.

(** ** Choosing among scored root moves *)

Lemma improves_le_lt (side : Color) (a b c : Score) :
  improves side b a = false -> improves side b c = true ->
  improves side a c = true.
Proof. destruct side; unfold improves; intros; score_crush. Qed.

Lemma improves_irrefl (side : Color) (a : Score) : improves side a a = false.
Proof. destruct side; unfold improves; score_crush. Qed.

Lemma improves_asym (side : Color) (a b : Score) :
  improves side a b = true -> improves side b a = false.
Proof. destruct side; unfold improves; intros; score_crush. Qed.

Lemma nth_error_snoc {A : Type} (l : list A) (x : A) (j : nat) (y : A) :
  nth_error (l ++ [x]) j = Some y ->
  (nth_error l j = Some y /\ (j < List.length l)%nat)
  \/ (j = List.length l /\ y = x).
Proof.
  intros Hj. destruct (Nat.lt_ge_cases j (List.length l)) as [Hlt | Hge].
  - left. rewrite nth_error_app1 in Hj by exact Hlt. auto.
  - right. rewrite nth_error_app2 in Hj by exact Hge.
    destruct (j - List.length l)%nat as [|k] eqn:Ek; cbn in Hj.
    + injection Hj as ->. split; [lia | reflexivity].
    + destruct k; discriminate.
Qed.

(** One more scored move keeps [best_so_far]. *)
Lemma best_so_far_step (side : Color) (done : list (Move * Score))
  (best_move : option Move) (best_score : Score) (mv : Move) (s : Score) :
  best_so_far side done best_move best_score ->
  if improves side best_score s
  then best_so_far side (done ++ [(mv, s)]) (Some mv) s
  else best_so_far side (done ++ [(mv, s)]) best_move best_score.
Proof.
  intros [Hall Hbest]. destruct (improves side best_score s) eqn:Eimp.
  - split.
    + intros j m' s' Hj. apply nth_error_snoc in Hj as [[Hj _] | [_ E]].
      * apply improves_asym.
        apply improves_le_lt with best_score; [now apply (Hall j m')|].
        exact Eimp.
      * injection E as _ ->. apply improves_irrefl.
    + exists (List.length done). split.
      * rewrite nth_error_app2 by lia. now rewrite Nat.sub_diag.
      * intros j m' s' Hj Hlt.
        apply nth_error_snoc in Hj as [[Hj _] | [-> _]]; [|lia].
        apply improves_le_lt with best_score; [now apply (Hall j m')|].
        exact Eimp.
  - split.
    + intros j m' s' Hj. apply nth_error_snoc in Hj as [[Hj _] | [_ E]].
      * now apply (Hall j m').
      * now injection E as _ ->.
    + destruct best_move as [move|]; [|exact I].
      destruct Hbest as (i & Hi & Hearlier).
      assert (Hlt : (i < List.length done)%nat)
        by (apply nth_error_Some; now rewrite Hi).
      exists i. split.
      * now rewrite nth_error_app1.
      * intros j m' s' Hj Hji.
        rewrite nth_error_app1 in Hj by lia. now apply (Hearlier j m').
Qed.

Lemma running_best_so_far (side : Color) :
  forall rest done best_move best_score move score,
    best_so_far side done best_move best_score ->
    running_best side rest best_move best_score = (Some move, score) ->
    best_so_far side (done ++ rest) (Some move) score.
Proof.
  induction rest as [|[mv s] rest IH];
    intros done bm bs move score Hinv Hrun; cbn [running_best] in Hrun.
  - injection Hrun as -> ->. now rewrite app_nil_r.
  - replace (done ++ (mv, s) :: rest) with ((done ++ [(mv, s)]) ++ rest)
      by (rewrite <- app_assoc; reflexivity).
    pose proof (best_so_far_step side done bm bs mv s Hinv) as Hstep.
    destruct (improves side bs s); eapply IH; eauto.
Qed.

(** [best_so_far] with a move is [first_best]. *)
Lemma best_so_far_first_best (side : Color) (scored : list (Move * Score))
  (move : Move) (score : Score) :
  best_so_far side scored (Some move) score -> first_best side scored move.
Proof.
  intros [Hall (i & Hi & Hearlier)]. exists i, score. split; [exact Hi|].
  intros j m' s' Hj. specialize (Hall j m' s' Hj).
  specialize (Hearlier j m' s' Hj).
  destruct side; unfold improves, Score_le, Score_lt, Score_leb in *;
    (split; [now rewrite Hall | exact Hearlier]).
Qed.

(** Starting from no move at all, the move the loop ends with is the first
    best one. *)
Lemma running_best_first_best (side : Color) (scored : list (Move * Score))
  (best_score : Score) (move : Move) (score : Score) :
  running_best side scored None best_score = (Some move, score) ->
  first_best side scored move.
Proof.
  intros Hrun. apply best_so_far_first_best with score.
  apply (running_best_so_far side scored [] None best_score); [|exact Hrun].
  split; [|exact I]. intros [|j] m' s'; discriminate.
Qed.


(** ** Root move selection of the protocol front end *)

Section UciSelect.
Context `{Rules}.
Variable clock : Clock.

(** What one run of the root loop amounts to: the board is handed back, the
    moves reached within the time budget were scored by [alpha_beta], and the
    result is the running best over these scores. *)
Lemma Uci_root_loop_ok (fuel : nat) (depth time_limit start_time : Z) :
  forall legal best_move best_score w r w',
    Uci.root_loop clock fuel depth time_limit start_time legal
      best_move best_score w = Ok (r, w') ->
    Uci.w_board w' = Uci.w_board w /\
    exists scored,
      map fst scored
      = within_budget clock time_limit start_time (Uci.w_reads w) legal /\
      Forall (fun ms => root_score fuel depth (Uci.w_board w) (fst ms)
                        = Ok (snd ms)) scored /\
      r = fst (running_best (turn (Uci.w_board w)) scored
                 best_move best_score).
Proof.
  induction legal as [|move rest IH]; intros bm bs [board reads] r w' Hrun.
  - cbn in Hrun. injection Hrun as <- <-. split; [reflexivity|].
    exists []. repeat split; constructor.
  - cbn [Uci.root_loop] in Hrun. cbn [within_budget Uci.w_reads Uci.w_board].
    unfold bind at 1 in Hrun. unfold Uci.time_time at 1 in Hrun.
    cbn [Uci.w_reads Uci.w_board] in Hrun.
    destruct (clock reads - start_time >? time_limit).
    + cbn in Hrun. injection Hrun as <- <-. split; [reflexivity|].
      exists []. repeat split; constructor.
    + unfold bind, Uci.the_board, on_board, do_push, do_pop, get in Hrun.
      cbn [Uci.w_reads Uci.w_board] in Hrun.
      pose proof (alpha_beta_restores fuel (depth - 1) NegInf PosInf
                    (Color_eqb (turn (push board move)) BLACK)
                    (push board move)) as Hrest.
      unfold root_score.
      destruct (alpha_beta fuel (depth - 1) NegInf PosInf
                  (Color_eqb (turn (push board move)) BLACK)
                  (push board move)) as [[score b1]| |] eqn:Eab;
        try discriminate.
      cbn [Uci.w_reads Uci.w_board] in Hrun.
      rewrite (Hrest score b1 eq_refl), pop_push in Hrun.
      cbn [Uci.w_reads Uci.w_board] in Hrun.
      assert (Hnext : exists bm' bs',
                 (bm', bs') = (if improves (turn board) bs score
                               then (Some move, score) else (bm, bs)) /\
                 Uci.root_loop clock fuel depth time_limit start_time rest
                   bm' bs' (Uci.mkWorld board (S reads)) = Ok (r, w')).
      { unfold improves. destruct (turn board); cbn [Color_eqb] in Hrun.
        - destruct (Score_ltb bs score); eauto.
        - destruct (Score_ltb score bs); eauto. }
      destruct Hnext as (bm' & bs' & Ebest & Hnext).
      apply IH in Hnext. cbn [Uci.w_reads Uci.w_board] in Hnext.
      destruct Hnext as [Hb (scored & Hmoves & Hscores & ->)].
      split; [exact Hb|]. exists ((move, score) :: scored).
      cbn [map fst]. rewrite Hmoves. repeat split.
      * constructor; [|exact Hscores]. cbn [fst snd]. unfold root_score.
        now rewrite Eab.
      * cbn [running_best].
        destruct (improves (turn board) bs score);
          now injection Ebest as -> ->.
Qed.

Lemma within_budget_incl (time_limit start_time : Z) :
  forall legal reads move,
    In move (within_budget clock time_limit start_time reads legal) ->
    In move legal.
Proof.
  induction legal as [|m rest IH]; intros reads move; cbn [within_budget].
  - intros [].
  - destruct (clock reads - start_time >? time_limit); [intros []|].
    intros [-> | Hin]; [now left | right; eauto].
Qed.

(** [find_best_move] of [chessEngine_uci.py], when it returns. *)
Lemma Uci_find_best_move_ok (fuel : nat) (depth time_limit : Z)
  (w : Uci.World) (r : option Move) (w' : Uci.World) :
  Uci.find_best_move clock fuel depth time_limit w = Ok (r, w') ->
  Uci.w_board w' = Uci.w_board w /\
  exists scored,
    map fst scored
    = within_budget clock time_limit (clock (Uci.w_reads w))
        (S (Uci.w_reads w)) (legal_moves (Uci.w_board w)) /\
    Forall (fun ms => root_score fuel depth (Uci.w_board w) (fst ms)
                      = Ok (snd ms)) scored /\
    r = fst (running_best (turn (Uci.w_board w)) scored None
               (if Color_eqb (turn (Uci.w_board w)) WHITE
                then NegInf else PosInf)).
Proof.
  destruct w as [board reads]. unfold Uci.find_best_move.
  unfold bind at 1, Uci.time_time at 1. cbn [Uci.w_reads Uci.w_board].
  unfold bind at 1, Uci.the_board at 1, on_board, get.
  cbn [Uci.w_reads Uci.w_board].
  destruct (legal_moves board) as [|m ms] eqn:El.
  - cbn. intros [= <- <-]. split; [reflexivity|].
    exists []. repeat split; constructor.
  - intros Hrun. apply Uci_root_loop_ok in Hrun. exact Hrun.
Qed.

End UciSelect.

(** ** Root move selection of the console front end *)

Lemma PieceType_eqb_eq (p q : PieceType) : PieceType_eqb p q = true <-> p = q.
Proof. destruct p, q; cbn; split; intros; try reflexivity; discriminate. Qed.

Lemma Move_eqb_eq (a b : Move) : Move_eqb a b = true <-> a = b.
Proof.
  destruct a as [fa ta pa], b as [fb tb pb]. unfold Move_eqb.
  cbn [from_square to_square promotion].
  rewrite !andb_true_iff, !Z.eqb_eq. split.
  - intros [[-> ->] Hp]. f_equal.
    destruct pa, pb; try discriminate; [|reflexivity].
    f_equal. now apply PieceType_eqb_eq.
  - intros [= -> -> ->]. repeat split.
    destruct pb; [now apply PieceType_eqb_eq | reflexivity].
Qed.

(** [move in board.legal_moves]. *)
Lemma existsb_Move_eqb (move : Move) (l : list Move) :
  existsb (Move_eqb move) l = true <-> In move l.
Proof.
  rewrite existsb_exists. split.
  - intros (x & Hin & E). apply Move_eqb_eq in E. now subst.
  - intros Hin. exists move. split; [exact Hin | now apply Move_eqb_eq].
Qed.

Lemma max_by_score_running (l : list (Move * Score)) :
  forall best,
    running_best WHITE l (Some (fst best)) (snd best)
    = (Some (fst (V3.max_by_score best l)), snd (V3.max_by_score best l)).
Proof.
  induction l as [|[mv s] l IH]; intros best;
    cbn [running_best V3.max_by_score improves fst snd]; [reflexivity|].
  destruct (Score_ltb (snd best) s); [apply (IH (mv, s)) | apply IH].
Qed.

Lemma min_by_score_running (l : list (Move * Score)) :
  forall best,
    running_best BLACK l (Some (fst best)) (snd best)
    = (Some (fst (V3.min_by_score best l)), snd (V3.min_by_score best l)).
Proof.
  induction l as [|[mv s] l IH]; intros best;
    cbn [running_best V3.min_by_score improves fst snd]; [reflexivity|].
  destruct (Score_ltb s (snd best)); [apply (IH (mv, s)) | apply IH].
Qed.

(** Python's [max] and [min] with a key return the first best element. *)
Lemma by_score_first_best (side : Color) (first : Move * Score)
  (others : list (Move * Score)) :
  let best := match side with
              | WHITE => V3.max_by_score first others
              | BLACK => V3.min_by_score first others
              end in
  first_best side (first :: others) (fst best).
Proof.
  destruct first as [mf sf].
  cbn zeta. apply best_so_far_first_best with
    (snd match side with
         | WHITE => V3.max_by_score (mf, sf) others
         | BLACK => V3.min_by_score (mf, sf) others
         end).
  apply (running_best_so_far side others [(mf, sf)] (Some mf) sf).
  - split.
    + intros [|j] m' s'; cbn; [|destruct j; discriminate].
      intros [= _ <-]. apply improves_irrefl.
    + exists 0%nat. split; [reflexivity|]. intros j m' s' _ Hj. lia.
  - destruct side;
      [apply (max_by_score_running others (mf, sf))
      | apply (min_by_score_running others (mf, sf))].
Qed.

Lemma first_best_in (side : Color) (scored : list (Move * Score))
  (move : Move) : first_best side scored move -> In move (map fst scored).
Proof.
  intros (i & s & Hi & _). apply nth_error_In in Hi.
  now apply (in_map fst) in Hi.
Qed.

Section V3Select.
Context `{Rules}.
Variable clock : Clock.

Lemma V3_root_loop_ok (fuel : nat) (depth time_limit start_time : Z) :
  forall legal move_scores w r w',
    V3.root_loop clock fuel depth time_limit start_time legal move_scores w
    = Ok (r, w') ->
    V3.w_board w' = V3.w_board w /\
    V3.w_search_board w' = V3.w_search_board w /\
    exists scored,
      r = move_scores ++ scored /\
      map fst scored
      = within_budget clock time_limit start_time (V3.w_reads w) legal /\
      Forall (fun ms => root_score fuel depth (V3.w_search_board w) (fst ms)
                        = Ok (snd ms)) scored.
Proof.
  induction legal as [|move rest IH];
    intros acc [board search_board reads] r w' Hrun.
  - cbn in Hrun. injection Hrun as <- <-. repeat split.
    exists []. rewrite app_nil_r. repeat split; constructor.
  - cbn [V3.root_loop] in Hrun.
    cbn [within_budget V3.w_reads V3.w_board V3.w_search_board].
    unfold bind at 1 in Hrun. unfold V3.time_time at 1 in Hrun.
    cbn [V3.w_reads V3.w_board V3.w_search_board] in Hrun.
    destruct (clock reads - start_time >? time_limit).
    + cbn in Hrun. injection Hrun as <- <-. repeat split.
      exists []. rewrite app_nil_r. repeat split; constructor.
    + unfold bind, V3.the_search_board, on_board, do_push, do_pop, get
        in Hrun.
      cbn [V3.w_reads V3.w_board V3.w_search_board] in Hrun.
      pose proof (alpha_beta_restores fuel (depth - 1) NegInf PosInf
                    (Color_eqb (turn (push search_board move)) BLACK)
                    (push search_board move)) as Hrest.
      unfold root_score.
      destruct (alpha_beta fuel (depth - 1) NegInf PosInf
                  (Color_eqb (turn (push search_board move)) BLACK)
                  (push search_board move)) as [[score b1]| |] eqn:Eab;
        try discriminate.
      cbn [V3.w_reads V3.w_board V3.w_search_board] in Hrun.
      rewrite (Hrest score b1 eq_refl), pop_push in Hrun.
      cbn [V3.w_reads V3.w_board V3.w_search_board] in Hrun.
      apply IH in Hrun.
      cbn [V3.w_reads V3.w_board V3.w_search_board] in Hrun.
      destruct Hrun as (Hb & Hs & scored & -> & Hmoves & Hscores).
      repeat split; [exact Hb | exact Hs |].
      exists ((move, score) :: scored). rewrite <- app_assoc.
      cbn [map fst app]. rewrite Hmoves. repeat split.
      constructor; [|exact Hscores]. cbn [fst snd]. unfold root_score.
      now rewrite Eab.
Qed.


(** With scored moves that are legal on the caller's board, the end of
    [find_best_move] returns the first best of them. *)
Lemma V3_select_first_best (first : Move * Score)
  (others : list (Move * Score)) (w : V3.World) :
  (forall move, In move (map fst (first :: others)) ->
                In move (legal_moves (V3.w_board w))) ->
  exists move,
    V3.select (legal_moves (V3.w_board w)) (first :: others) w
    = Ok (Some move, w) /\
    first_best (turn (V3.w_board w)) (first :: others) move.
Proof.
  intros Hlegal. unfold V3.select, bind, V3.the_board.
  pose proof (by_score_first_best (turn (V3.w_board w)) first others) as Hfb.
  cbn zeta in Hfb.
  assert (E : (if Color_eqb (turn (V3.w_board w)) WHITE
               then V3.max_by_score first others
               else V3.min_by_score first others)
              = match turn (V3.w_board w) with
                | WHITE => V3.max_by_score first others
                | BLACK => V3.min_by_score first others
                end) by now destruct (turn (V3.w_board w)).
  rewrite E. clear E.
  destruct (match turn (V3.w_board w) with
            | WHITE => V3.max_by_score first others
            | BLACK => V3.min_by_score first others
            end) as [best_move best_score].
  cbn [fst] in Hfb. exists best_move.
  assert (Hin : In best_move (legal_moves (V3.w_board w)))
    by (apply Hlegal; now apply first_best_in with (turn (V3.w_board w))).
  apply existsb_Move_eqb in Hin. rewrite Hin. cbn [negb ret].
  split; [reflexivity | exact Hfb].
Qed.

(** [find_best_move] of [chess_engine_v3.py], when it returns. *)
Lemma V3_find_best_move_ok (fuel : nat) (depth time_limit : Z)
  (board : Board) (reads : nat) (r : option Move) (board' : Board)
  (reads' : nat) :
  V3.find_best_move clock fuel depth time_limit (board, reads)
  = Ok (r, (board', reads')) ->
  board' = board /\
  exists scored,
    map fst scored
    = within_budget clock time_limit (clock reads) (S reads)
        (legal_moves board) /\
    Forall (fun ms => root_score fuel depth board (fst ms) = Ok (snd ms))
      scored /\
    match scored with
    | [] => r = hd_error (legal_moves board)
    | _ :: _ => exists move, r = Some move /\
                             first_best (turn board) scored move
    end.
Proof.
  unfold V3.find_best_move, V3.find_best_move_body, copy.
  unfold bind at 1, V3.time_time at 1.
  cbn [V3.w_reads V3.w_board V3.w_search_board].
  unfold bind at 1, V3.the_search_board at 1, on_board, get.
  cbn [V3.w_reads V3.w_board V3.w_search_board].
  destruct (legal_moves board) as [|m ms] eqn:El.
  - cbn. intros [= <- <- <-]. split; [reflexivity|].
    exists []. repeat split; constructor.
  - unfold bind.
    destruct (V3.root_loop clock fuel depth time_limit (clock reads)
                (m :: ms) [] (V3.mkWorld board board (S reads)))
      as [[move_scores w1]| |] eqn:Eloop; try discriminate.
    apply V3_root_loop_ok in Eloop.
    cbn [V3.w_reads V3.w_board V3.w_search_board app] in Eloop.
    destruct Eloop as (Hb & _ & scored & -> & Hmoves & Hscores).
    destruct scored as [|first others].
    + cbn. intros [= <- <- <-]. split; [exact Hb|].
      exists []. repeat split; [exact Hmoves | constructor].
    + assert (Hlegal : forall move,
                 In move (map fst (first :: others)) ->
                 In move (legal_moves (V3.w_board w1))).
      { intros move Hin. rewrite Hb, El, Hmoves in *.
        now apply within_budget_incl in Hin. }
      destruct (V3_select_first_best first others w1 Hlegal)
        as (move & Esel & Hfb).
      rewrite Hb, El in Esel. rewrite Esel.
      intros [= <- <- <-]. split; [exact Hb|].
      exists (first :: others). repeat split; [exact Hmoves | exact Hscores|].
      exists move. split; [reflexivity|]. now rewrite Hb in Hfb.
Qed.

End V3Select.

(** ** Root move selection: the claims *)

Section SelectClaims.
Context `{Rules}.

(** C3: after [alpha_beta] or [find_best_move] returns, the caller's board
    is what it was before the call, undo stack included, whichever way the
    loops were left (cutoff, time limit, no legal move). *)
Theorem search_restores_board :
  (forall fuel depth alpha beta maximizing_player board score board',
     alpha_beta fuel depth alpha beta maximizing_player board
     = Ok (score, board') ->
     board' = board) /\
  (forall clock fuel depth time_limit w r w',
     Uci.find_best_move clock fuel depth time_limit w = Ok (r, w') ->
     Uci.w_board w' = Uci.w_board w) /\
  (forall clock fuel depth time_limit board reads r board' reads',
     V3.find_best_move clock fuel depth time_limit (board, reads)
     = Ok (r, (board', reads')) ->
     board' = board).
Proof.
  repeat split.
  - intros fuel depth alpha beta mx board score board'.
    apply alpha_beta_restores.
  - intros clock fuel depth tl w r w' Hrun.
    now apply Uci_find_best_move_ok in Hrun.
  - intros clock fuel depth tl board reads r board' reads' Hrun.
    now apply V3_find_best_move_ok in Hrun.
Qed.


End SelectClaims.

(** ** Running out of time before the first root move *)

Section TimeBudget.
Context `{Rules}.
Variable clock : Clock.

(** [chessEngine_uci.py]: when the first time check fires, no move was
    recorded and the function returns [None], legal moves or not. *)
Lemma Uci_find_best_move_timeout (fuel : nat) (depth time_limit : Z)
  (w : Uci.World) :
  clock (S (Uci.w_reads w)) - clock (Uci.w_reads w) > time_limit ->
  Uci.find_best_move clock fuel depth time_limit w
  = Ok (None, Uci.mkWorld (Uci.w_board w)
                (match legal_moves (Uci.w_board w) with
                 | [] => S (Uci.w_reads w)
                 | _ :: _ => S (S (Uci.w_reads w))
                 end)).
Proof.
  intros Hlate. destruct w as [board reads].
  cbn [Uci.w_reads Uci.w_board] in *.
  unfold Uci.find_best_move.
  unfold bind at 1, Uci.time_time at 1. cbn [Uci.w_reads Uci.w_board].
  unfold bind at 1, Uci.the_board at 1, on_board, get.
  cbn [Uci.w_reads Uci.w_board].
  destruct (legal_moves board) as [|m ms]; [reflexivity|].
  cbn [Uci.root_loop]. unfold bind at 1, Uci.time_time at 1.
  cbn [Uci.w_reads Uci.w_board].
  replace (clock (S reads) - clock reads >? time_limit) with true
    by (symmetry; apply Z.gtb_lt; lia).
  reflexivity.
Qed.

(** [chess_engine_v3.py]: in the same situation the function returns the
    first enumerated legal move. *)
Lemma V3_find_best_move_timeout (fuel : nat) (depth time_limit : Z)
  (board : Board) (reads : nat) (first : Move) (others : list Move) :
  legal_moves board = first :: others ->
  clock (S reads) - clock reads > time_limit ->
  V3.find_best_move clock fuel depth time_limit (board, reads)
  = Ok (Some first, (board, S (S reads))).
Proof.
  intros El Hlate.
  unfold V3.find_best_move, V3.find_best_move_body, copy.
  unfold bind at 1, V3.time_time at 1.
  cbn [V3.w_reads V3.w_board V3.w_search_board].
  unfold bind at 1, V3.the_search_board at 1, on_board, get.
  cbn [V3.w_reads V3.w_board V3.w_search_board].
  assert (Hgt : (clock (S reads) - clock reads >? time_limit) = true)
    by (apply Z.gtb_lt; lia).
  rewrite El. cbn [V3.root_loop]. unfold bind, V3.time_time.
  cbn [V3.w_reads V3.w_board V3.w_search_board]. rewrite Hgt.
  reflexivity.
Qed.

End TimeBudget.

(** C4 at a concrete input: the starting position, depth 3, a time limit of
    2 seconds and a clock that jumps by 3 seconds between the reading of
    [start_time] and the first check.  The position has twenty legal moves,
    the first being g1h3; [chess_engine_v3.py] returns it, and
    [chessEngine_uci.py] returns [None]. *)
Theorem Uci_find_best_move_timeout_none :
  hd_error (legal_moves (Rules := Examples.example_rules)
              Examples.starting_board) = Some (Examples.mv 6 23)
  /\ V3.find_best_move (H := Examples.example_rules) Examples.slow_clock
       3 3 2 (Examples.starting_board, 0%nat)
     = Ok (Some (Examples.mv 6 23), (Examples.starting_board, 2%nat))
  /\ Uci.find_best_move (H := Examples.example_rules) Examples.slow_clock
       3 3 2 (Uci.mkWorld Examples.starting_board 0)
     = Ok (None, Uci.mkWorld Examples.starting_board 2).
Proof. vm_compute. repeat split; reflexivity. Qed.

Lemma V3_find_best_move_timeout_witness :
  legal_moves (Rules := Examples.example_rules) Examples.starting_board
  = Examples.mv 6 23 :: tl Examples.starting_moves
  /\ Examples.slow_clock 1%nat - Examples.slow_clock 0%nat > 2
  /\ V3.find_best_move (H := Examples.example_rules) Examples.slow_clock
       3 3 2 (Examples.starting_board, 0%nat)
     = Ok (Some (Examples.mv 6 23), (Examples.starting_board, 2%nat)).
Proof.
  split; [vm_compute; reflexivity|]. split; [vm_compute; reflexivity|].
  apply (V3_find_best_move_timeout (H := Examples.example_rules)
           Examples.slow_clock 3 3 2 Examples.starting_board 0
           (Examples.mv 6 23) (tl Examples.starting_moves));
    vm_compute; reflexivity.
Defined.

(** ** The [position fen] command *)

Lemma slice_no_moves {A : Type} (l : list A) :
  slice l 2 (-1) = removelast (skipn 2 l).
Proof.
  rewrite removelast_firstn_len, length_skipn.
  destruct l as [|a [|b l]]; try reflexivity.
  unfold slice. cbn [Z.ltb Z.compare].
  set (len := Z.of_nat (List.length (a :: b :: l))).
  assert (Hlen : len = Z.of_nat (List.length l) + 2)
    by (unfold len; cbn [List.length]; lia).
  replace (Z.min 2 len) with 2 by lia.
  replace (Z.max (-1 + len) 0) with (len - 1) by lia.
  change (Z.to_nat 2) with 2%nat. f_equal. cbn [List.length]. lia.
Qed.

(** Without a [moves] token the FEN handed to the rules package is the
    words after [position fen] without the last one. *)
Lemma fen_of_no_moves (parts : list string) :
  contains "moves" parts = false ->
  fen_of parts = join (removelast (skipn 2 parts)).
Proof.
  intros Hno. unfold fen_of. rewrite Hno. now rewrite slice_no_moves.
Qed.

(** C8 at a concrete input: the FEN [8/8/8/8/8/8/8/K1k5 w - - 0 25] sent
    without moves reaches the rules package without its last field, the
    fullmove number 25. *)
Theorem position_fen_drops_last_field :
  position_command "position fen 8/8/8/8/8/8/8/K1k5 w - - 0 25"
  = Ok (Fen "8/8/8/8/8/8/8/K1k5 w - - 0" []).
Proof. vm_compute. reflexivity. Qed.

(** With a [moves] token the same FEN is passed on whole. *)
Example position_fen_with_moves :
  position_command "position fen 8/8/8/8/8/8/8/K1k5 w - - 0 25 moves a1a2"
  = Ok (Fen "8/8/8/8/8/8/8/K1k5 w - - 0 25" ["a1a2"%string]).
Proof. vm_compute. reflexivity. Qed.

Lemma running_best_some (side : Color) :
  forall scored move score,
  exists move' score',
    running_best side scored (Some move) score = (Some move', score').
Proof.
  induction scored as [|[mv s] rest IH]; intros move score;
    cbn [running_best]; [eauto|].
  destruct (improves side score s); apply IH.
Qed.

(** ** Root move selection returns *)

Section SelectReturns.
Context `{Rules}.
Variable clock : Clock.

Lemma Uci_root_loop_returns (fuel : nat) (depth time_limit start_time : Z) :
  1 <= depth -> (Z.to_nat (depth - 1) < fuel)%nat ->
  forall legal best_move best_score board reads,
  exists r reads',
    Uci.root_loop clock fuel depth time_limit start_time legal
      best_move best_score (Uci.mkWorld board reads)
    = Ok (r, Uci.mkWorld board reads').
Proof.
  intros Hd Hf. induction legal as [|move rest IH]; intros bm bs board reads.
  - do 2 eexists; reflexivity.
  - cbn [Uci.root_loop]. unfold bind at 1, Uci.time_time at 1.
    cbn [Uci.w_reads Uci.w_board].
    destruct (clock reads - start_time >? time_limit); [do 2 eexists; reflexivity|].
    unfold bind, Uci.the_board, on_board, do_push, do_pop, get.
    cbn [Uci.w_reads Uci.w_board].
    rewrite (alpha_beta_runs (Z.to_nat (depth - 1))) by (lia || exact Hf).
    cbn [Uci.w_reads Uci.w_board]. rewrite pop_push.
    cbn [Uci.w_reads Uci.w_board].
    destruct (Color_eqb (turn board) WHITE);
      match goal with |- context [if ?c then _ else _] => destruct c end;
      apply IH.
Qed.

(** With a depth of at least 1 and a recursion budget of [depth] nested
    calls, [find_best_move] of [chessEngine_uci.py] returns. *)
Lemma Uci_find_best_move_returns (fuel : nat) (depth time_limit : Z)
  (board : Board) (reads : nat) :
  1 <= depth -> (Z.to_nat (depth - 1) < fuel)%nat ->
  exists r reads',
    Uci.find_best_move clock fuel depth time_limit (Uci.mkWorld board reads)
    = Ok (r, Uci.mkWorld board reads').
Proof.
  intros Hd Hf. unfold Uci.find_best_move.
  unfold bind at 1, Uci.time_time at 1. cbn [Uci.w_reads Uci.w_board].
  unfold bind at 1, Uci.the_board at 1, on_board, get.
  cbn [Uci.w_reads Uci.w_board].
  destruct (legal_moves board) as [|m ms]; [do 2 eexists; reflexivity|].
  now apply Uci_root_loop_returns.
Qed.

Lemma V3_root_loop_returns (fuel : nat) (depth time_limit start_time : Z) :
  1 <= depth -> (Z.to_nat (depth - 1) < fuel)%nat ->
  forall legal move_scores board search_board reads,
  exists r reads',
    V3.root_loop clock fuel depth time_limit start_time legal move_scores
      (V3.mkWorld board search_board reads)
    = Ok (r, V3.mkWorld board search_board reads').
Proof.
  intros Hd Hf.
  induction legal as [|move rest IH]; intros acc board search_board reads.
  - do 2 eexists; reflexivity.
  - cbn [V3.root_loop]. unfold bind at 1, V3.time_time at 1.
    cbn [V3.w_reads V3.w_board V3.w_search_board].
    destruct (clock reads - start_time >? time_limit); [do 2 eexists; reflexivity|].
    unfold bind, V3.the_search_board, on_board, do_push, do_pop, get.
    cbn [V3.w_reads V3.w_board V3.w_search_board].
    rewrite (alpha_beta_runs (Z.to_nat (depth - 1))) by (lia || exact Hf).
    cbn [V3.w_reads V3.w_board V3.w_search_board]. rewrite pop_push.
    cbn [V3.w_reads V3.w_board V3.w_search_board]. apply IH.
Qed.

(** The same for [chess_engine_v3.py]. *)
Lemma V3_find_best_move_returns (fuel : nat) (depth time_limit : Z)
  (board : Board) (reads : nat) :
  1 <= depth -> (Z.to_nat (depth - 1) < fuel)%nat ->
  exists r reads',
    V3.find_best_move clock fuel depth time_limit (board, reads)
    = Ok (r, (board, reads')).
Proof.
  intros Hd Hf.
  unfold V3.find_best_move, V3.find_best_move_body, copy.
  unfold bind at 1, V3.time_time at 1.
  cbn [V3.w_reads V3.w_board V3.w_search_board].
  unfold bind at 1, V3.the_search_board at 1, on_board, get.
  cbn [V3.w_reads V3.w_board V3.w_search_board].
  destruct (legal_moves board) as [|m ms]; [do 2 eexists; reflexivity|].
  unfold bind.
  destruct (V3_root_loop_returns fuel depth time_limit (clock reads) Hd Hf
              (m :: ms) [] board board (S reads)) as (scored & reads' & ->).
  unfold V3.select, bind, V3.the_board, ret.
  destruct scored as [|first others]; [do 2 eexists; reflexivity|].
  cbn [V3.w_reads V3.w_board V3.w_search_board].
  destruct (if Color_eqb (turn board) WHITE
            then V3.max_by_score first others
            else V3.min_by_score first others) as [best_move best_score].
  destruct (negb (existsb (Move_eqb best_move) (legal_moves board)));
    do 2 eexists; reflexivity.
Qed.

End SelectReturns.

(** ** Root move selection: the first best move *)

Section FirstBest.
Context `{Rules}.
Variable clock : Clock.

(** The loops return a number as soon as one child was searched, the
    children returning numbers. *)
Lemma max_loop_finite (rec : Score -> Score -> M Board Score) :
  (forall a b board s board',
     rec a b board = Ok (s, board') -> exists z, s = Fin z) ->
  forall legal max_eval alpha beta board s board',
    max_eval <> PosInf ->
    max_loop rec legal max_eval alpha beta board = Ok (s, board') ->
    (exists z, s = Fin z) \/ (legal = [] /\ s = max_eval).
Proof.
  intros Hrec legal.
  induction legal as [|move rest IH];
    intros me alpha beta board s board' Hme.
  - cbn. intros [= <- _]. now right.
  - cbn [max_loop]. unfold bind, do_push, do_pop.
    destruct (rec alpha beta (push board move)) as [[e b1]| |] eqn:E;
      try discriminate.
    apply Hrec in E as (z & ->).
    destruct (pop b1) as [[m0 b2]|]; [|discriminate].
    assert (Hmax : exists z', Score_max me (Fin z) = Fin z').
    { destruct me as [|a|]; [| |now elim Hme]; unfold Score_max;
        cbn [Score_ltb]; [eauto|]. destruct (a <? z); eauto. }
    destruct Hmax as (z' & Hmax). rewrite Hmax.
    destruct (Score_leb beta (Score_max alpha (Fin z))).
    + cbn. intros [= <- _]. left. eauto.
    + intros Hrun. apply IH in Hrun; [|discriminate]. left.
      destruct Hrun as [Hfin | [_ ->]]; eauto.
Qed.

Lemma min_loop_finite (rec : Score -> Score -> M Board Score) :
  (forall a b board s board',
     rec a b board = Ok (s, board') -> exists z, s = Fin z) ->
  forall legal min_eval alpha beta board s board',
    min_eval <> NegInf ->
    min_loop rec legal min_eval alpha beta board = Ok (s, board') ->
    (exists z, s = Fin z) \/ (legal = [] /\ s = min_eval).
Proof.
  intros Hrec legal.
  induction legal as [|move rest IH];
    intros me alpha beta board s board' Hme.
  - cbn. intros [= <- _]. now right.
  - cbn [min_loop]. unfold bind, do_push, do_pop.
    destruct (rec alpha beta (push board move)) as [[e b1]| |] eqn:E;
      try discriminate.
    apply Hrec in E as (z & ->).
    destruct (pop b1) as [[m0 b2]|]; [|discriminate].
    assert (Hmin : exists z', Score_min me (Fin z) = Fin z').
    { destruct me as [|a|]; [now elim Hme| |]; unfold Score_min;
        cbn [Score_ltb]; [|eauto]. destruct (z <? a); eauto. }
    destruct Hmin as (z' & Hmin). rewrite Hmin.
    destruct (Score_leb (Score_min beta (Fin z)) alpha).
    + cbn. intros [= <- _]. left. eauto.
    + intros Hrun. apply IH in Hrun; [|discriminate]. left.
      destruct Hrun as [Hfin | [_ ->]]; eauto.
Qed.

(** Whatever the depth and the window, a search that returns, returns a
    number. *)
Lemma alpha_beta_finite (fuel : nat) :
  forall depth alpha beta maximizing_player board s board',
    alpha_beta fuel depth alpha beta maximizing_player board
    = Ok (s, board') ->
    exists z, s = Fin z.
Proof.
  induction fuel as [|fuel IH]; intros depth alpha beta mx board s board'.
  - discriminate.
  - cbn [alpha_beta]. unfold bind, get.
    destruct ((depth =? 0) || is_game_over board);
      [intros [= <- _]; eauto|].
    destruct (legal_moves board) as [|m ms]; [intros [= <- _]; eauto|].
    destruct mx; intros Hrun.
    + apply max_loop_finite in Hrun as [Hfin | [Hnil _]];
        [exact Hfin | discriminate | | discriminate].
      intros a b bd s0 bd'. apply IH.
    + apply min_loop_finite in Hrun as [Hfin | [Hnil _]];
        [exact Hfin | discriminate | | discriminate].
      intros a b bd s0 bd'. apply IH.
Qed.

Lemma root_score_finite (fuel : nat) (depth : Z) (board : Board)
  (move : Move) (s : Score) :
  root_score fuel depth board move = Ok s -> exists z, s = Fin z.
Proof.
  unfold root_score.
  destruct (alpha_beta fuel (depth - 1) NegInf PosInf _ _)
    as [[s0 b]| |] eqn:E; try discriminate.
  intros [= <-]. now apply alpha_beta_finite in E.
Qed.

(** The first scored move always replaces the initial [None]. *)
Lemma running_best_scored (fuel : nat) (depth : Z) (board : Board)
  (first : Move * Score) (others : list (Move * Score)) :
  Forall (fun ms => root_score fuel depth board (fst ms) = Ok (snd ms))
    (first :: others) ->
  exists move,
    fst (running_best (turn board) (first :: others) None
           (if Color_eqb (turn board) WHITE then NegInf else PosInf))
    = Some move /\
    first_best (turn board) (first :: others) move.
Proof.
  intros Hscores. destruct first as [m s].
  inversion Hscores as [|? ? Hs _]; subst. cbn [fst snd] in Hs.
  apply root_score_finite in Hs as (z & ->).
  destruct (running_best (turn board) ((m, Fin z) :: others) None
              (if Color_eqb (turn board) WHITE then NegInf else PosInf))
    as [bm bs] eqn:Erun.
  assert (Hsome : exists move, bm = Some move).
  { cbn [running_best] in Erun.
    assert (Himp : improves (turn board)
                     (if Color_eqb (turn board) WHITE then NegInf
                      else PosInf) (Fin z) = true)
      by now destruct (turn board).
    rewrite Himp in Erun.
    destruct (running_best_some (turn board) others m (Fin z))
      as (m' & s' & E).
    rewrite E in Erun. injection Erun as <- _. eauto. }
  destruct Hsome as (move & ->). exists move. split; [reflexivity|].
  now apply running_best_first_best in Erun.
Qed.

(** C7: both programs return, for a depth of at least 1, and whenever
    either returns, with whatever depth, its answer is fixed by the scores of
    the root moves it reached in time: when at least one was scored, it is
    the first of the scored moves with the best score, strictly greater than
    the score of every earlier one for White, strictly less for Black, and
    no later one is better, so that a later move with an equal score never
    replaces it.  When none was scored, [chessEngine_uci.py] returns [None]
    and [chess_engine_v3.py] the first legal move, if any. *)
Theorem find_best_move_first_best (fuel : nat) (depth time_limit : Z)
  (board : Board) (reads : nat) :
  let reached := within_budget clock time_limit (clock reads) (S reads)
                   (legal_moves board) in
  (forall r w',
     Uci.find_best_move clock fuel depth time_limit (Uci.mkWorld board reads)
     = Ok (r, w') ->
     exists scored,
       map fst scored = reached /\
       Forall (fun ms => root_score fuel depth board (fst ms) = Ok (snd ms))
         scored /\
       match scored with
       | [] => r = None
       | _ :: _ =>
           exists move, r = Some move /\ first_best (turn board) scored move
       end) /\
  (forall r st',
     V3.find_best_move clock fuel depth time_limit (board, reads)
     = Ok (r, st') ->
     exists scored,
       map fst scored = reached /\
       Forall (fun ms => root_score fuel depth board (fst ms) = Ok (snd ms))
         scored /\
       match scored with
       | [] => r = hd_error (legal_moves board)
       | _ :: _ =>
           exists move, r = Some move /\ first_best (turn board) scored move
       end) /\
  (1 <= depth -> (Z.to_nat (depth - 1) < fuel)%nat ->
   (exists r reads',
      Uci.find_best_move clock fuel depth time_limit
        (Uci.mkWorld board reads) = Ok (r, Uci.mkWorld board reads')) /\
   (exists r reads',
      V3.find_best_move clock fuel depth time_limit (board, reads)
      = Ok (r, (board, reads')))).
Proof.
  cbv zeta. split; [|split].
  - intros r w' Hrun.
    apply Uci_find_best_move_ok in Hrun
      as (_ & scored & Hmoves & Hscores & Hbest).
    cbn [Uci.w_board Uci.w_reads] in *.
    exists scored. split; [exact Hmoves|]. split; [exact Hscores|].
    destruct scored as [|first others]; [exact Hbest|].
    destruct (running_best_scored fuel depth board first others Hscores)
      as (move & Hfst & Hfb).
    exists move. split; [congruence | exact Hfb].
  - intros r [board' reads'] Hrun.
    apply V3_find_best_move_ok in Hrun
      as (_ & scored & Hmoves & Hscores & Hbest).
    exists scored. split; [exact Hmoves|]. split; [exact Hscores|].
    exact Hbest.
  - intros Hd Hf. split.
    + apply Uci_find_best_move_returns; assumption.
    + apply V3_find_best_move_returns; assumption.
Qed.

End FirstBest.

(** On the starting position, one ply deep, four moves share the best score
    45 (h2h4, g2g4, b2b4, a2a4); both programs return h2h4, the first of
    them. *)
Example find_best_move_starting_board :
  Uci.find_best_move (H := Examples.example_rules) Examples.frozen_clock
    1 1 2 (Uci.mkWorld Examples.starting_board 0)
  = Ok (Some (Examples.mv 15 31), Uci.mkWorld Examples.starting_board 21)
  /\ V3.find_best_move (H := Examples.example_rules) Examples.frozen_clock
       1 1 2 (Examples.starting_board, 0%nat)
     = Ok (Some (Examples.mv 15 31), (Examples.starting_board, 21%nat))
  /\ map (root_score (H := Examples.example_rules) 1 1
            Examples.starting_board)
       [Examples.mv 15 31; Examples.mv 14 30; Examples.mv 9 25;
        Examples.mv 8 24; Examples.mv 12 28]
     = [Ok (Fin 45); Ok (Fin 45); Ok (Fin 45); Ok (Fin 45); Ok (Fin 25)].
Proof. vm_compute. repeat split; reflexivity. Qed.

Lemma search_restores_board_witness :
  Uci.find_best_move (H := Examples.example_rules) Examples.frozen_clock
    1 1 2 (Uci.mkWorld Examples.starting_board 0)
  = Ok (Some (Examples.mv 15 31), Uci.mkWorld Examples.starting_board 21)
  /\ Uci.w_board (Uci.mkWorld Examples.starting_board 21)
     = Uci.w_board (Uci.mkWorld Examples.starting_board 0).
Proof.
  assert (Hrun :
    Uci.find_best_move (H := Examples.example_rules) Examples.frozen_clock
      1 1 2 (Uci.mkWorld Examples.starting_board 0)
    = Ok (Some (Examples.mv 15 31), Uci.mkWorld Examples.starting_board 21))
    by (vm_compute; reflexivity).
  split; [exact Hrun|].
  exact (proj1 (proj2 (search_restores_board (H := Examples.example_rules)))
           _ _ _ _ _ _ _ Hrun).
Defined.


Lemma find_best_move_first_best_witness :
  Uci.find_best_move (H := Examples.example_rules) Examples.frozen_clock
    1 1 2 (Uci.mkWorld Examples.starting_board 0)
  = Ok (Some (Examples.mv 15 31), Uci.mkWorld Examples.starting_board 21)
  /\ V3.find_best_move (H := Examples.example_rules) Examples.frozen_clock
       1 1 2 (Examples.starting_board, 0%nat)
     = Ok (Some (Examples.mv 15 31), (Examples.starting_board, 21%nat))
  /\ exists scored,
       map fst scored = Examples.starting_moves /\
       Forall (fun ms => root_score (H := Examples.example_rules) 1 1
                           Examples.starting_board (fst ms) = Ok (snd ms))
         scored /\
       first_best WHITE scored (Examples.mv 15 31).
Proof.
  assert (Huci :
    Uci.find_best_move (H := Examples.example_rules) Examples.frozen_clock
      1 1 2 (Uci.mkWorld Examples.starting_board 0)
    = Ok (Some (Examples.mv 15 31), Uci.mkWorld Examples.starting_board 21))
    by (vm_compute; reflexivity).
  assert (Hv3 :
    V3.find_best_move (H := Examples.example_rules) Examples.frozen_clock
      1 1 2 (Examples.starting_board, 0%nat)
    = Ok (Some (Examples.mv 15 31), (Examples.starting_board, 21%nat)))
    by (vm_compute; reflexivity).
  split; [exact Huci|]. split; [exact Hv3|].
  destruct (find_best_move_first_best (H := Examples.example_rules)
              Examples.frozen_clock 1 1 2 Examples.starting_board 0)
    as (_ & Hconsole & _).
  destruct (Hconsole _ _ Hv3) as (scored & Hmoves & Hscores & Hbest).
  exists scored. split; [exact Hmoves|]. split; [exact Hscores|].
  destruct scored as [|first others]; [discriminate Hmoves|].
  destruct Hbest as (move & Emove & Hfb).
  injection Emove as <-. exact Hfb.
Defined.

(** * Further properties *)

(** ** Table lookups of the evaluator *)

Lemma In_SQUARES (square : Square) : In square SQUARES <-> 0 <= square < 64.
Proof.
  unfold SQUARES. rewrite in_map_iff. split.
  - intros (n & <- & Hn). apply in_seq in Hn. lia.
  - intros Hs. exists (Z.to_nat square). split; [lia|]. apply in_seq. lia.
Qed.

Lemma PST_TABLES_length (pt : PieceType) : List.length (PST_TABLES pt) = 64%nat.
Proof. destruct pt; reflexivity. Qed.

(** X1: the index [square_idx] that [evaluate_position] forms for a piece
    on one of the 64 squares is a valid index of the piece's table, for
    either colour: the lookup [pst[square_idx]] reads an entry of the table
    and cannot raise [IndexError] or wrap around. *)
Theorem pst_lookup_in_range (piece : Piece) (square : Square) :
  In square SQUARES ->
  let square_idx := if Color_eqb (color piece) WHITE then square
                    else square_mirror square in
  0 <= square_idx < Z.of_nat (List.length (PST_TABLES (piece_type piece))) /\
  nth_error (PST_TABLES (piece_type piece)) (Z.to_nat square_idx)
  = Some (pst_get (PST_TABLES (piece_type piece)) square_idx).
Proof.
  intros Hin. cbn zeta.
  assert (Hidx : In (if Color_eqb (color piece) WHITE then square
                     else square_mirror square) SQUARES)
    by (destruct (Color_eqb (color piece) WHITE);
        [exact Hin | now apply square_mirror_range]).
  apply In_SQUARES in Hidx. rewrite PST_TABLES_length. split; [lia|].
  unfold pst_get. apply nth_error_nth'. rewrite PST_TABLES_length. lia.
Qed.

Lemma pst_lookup_in_range_witness :
  In 12 SQUARES /\
  nth_error (PST_TABLES PAWN) (Z.to_nat (square_mirror 12)) = Some (-20).
Proof.
  assert (Hin : In 12 SQUARES) by (apply In_SQUARES; lia).
  split; [exact Hin|].
  exact (proj2 (pst_lookup_in_range (mkPiece PAWN BLACK) 12 Hin)).
Defined.

(** ** Searching with a window and with a negative depth *)

Section SearchMore.
Context `{Rules}.

(** X2: for a depth >= 0 and any window with alpha < beta, the score [r]
    that [alpha_beta] returns bounds the minimax value [v] of the same tree
    in the fail-soft way: if r <= alpha then v <= r, if r >= beta then
    v >= r, and if alpha < r < beta then r = v. *)
Theorem alpha_beta_window_bound (fuel : nat) (depth : Z) (alpha beta : Score)
  (maximizing_player : bool) (board : Board) :
  0 <= depth -> (Z.to_nat depth < fuel)%nat -> Score_lt alpha beta ->
  exists r,
    alpha_beta fuel depth alpha beta maximizing_player board
    = Ok (Fin r, board) /\
    let v := minimax (Z.to_nat depth) board maximizing_player in
    (Score_le (Fin r) alpha -> v <= r) /\
    (Score_le beta (Fin r) -> r <= v) /\
    (Score_lt alpha (Fin r) -> Score_lt (Fin r) beta -> r = v).
Proof.
  intros Hd Hf Hab.
  destruct (alpha_beta_value_sound (Z.to_nat depth) board alpha beta
              maximizing_player Hab) as (r & Er & Hlow & Hhigh & Hin).
  exists r. split.
  - rewrite <- Er. apply (alpha_beta_runs (Z.to_nat depth)); [lia|exact Hf].
  - cbn zeta. repeat split.
    + intros Hl. now apply Score_le_Fin, Hlow.
    + intros Hh. now apply Score_le_Fin, Hhigh.
    + intros H1 H2. specialize (Hin H1 H2). now injection Hin.
Qed.








End SearchMore.

Lemma alpha_beta_window_bound_witness :
  0 <= 1 /\ (Z.to_nat 1 < 2)%nat /\ Score_lt (Fin 0) (Fin 30) /\
  exists r,
    alpha_beta (H := Examples.example_rules) 2 1 (Fin 0) (Fin 30) true
      Examples.starting_board
    = Ok (Fin r, Examples.starting_board) /\
    let v := minimax (H := Examples.example_rules) (Z.to_nat 1)
               Examples.starting_board true in
    (Score_le (Fin r) (Fin 0) -> v <= r) /\
    (Score_le (Fin 30) (Fin r) -> r <= v) /\
    (Score_lt (Fin 0) (Fin r) -> Score_lt (Fin r) (Fin 30) -> r = v).
Proof.
  split; [lia|]. split; [cbn; lia|]. split; [reflexivity|].
  apply (alpha_beta_window_bound (H := Examples.example_rules));
    [lia | cbn; lia | reflexivity].
Defined.


(** ** More on root move selection *)

Lemma scored_unique {A B : Type} (f : A -> result B) :
  forall l1 l2 : list (A * B),
    map fst l1 = map fst l2 ->
    Forall (fun ms => f (fst ms) = Ok (snd ms)) l1 ->
    Forall (fun ms => f (fst ms) = Ok (snd ms)) l2 ->
    l1 = l2.
Proof.
  induction l1 as [|[a1 b1] l1 IH]; intros [|[a2 b2] l2] Hm H1 H2;
    try discriminate; [reflexivity|].
  cbn in Hm. injection Hm as -> Hm. inversion H1; subst. inversion H2; subst.
  cbn [fst snd] in *. f_equal; [|now apply IH]. f_equal. congruence.
Qed.

Lemma scored_as_map {A B : Type} (f : A -> result B) (g : A -> B) :
  forall (l : list (A * B)),
    Forall (fun ms => f (fst ms) = Ok (snd ms)) l ->
    (forall a, In a (map fst l) -> f a = Ok (g a)) ->
    l = map (fun a => (a, g a)) (map fst l).
Proof.
  induction l as [|[a b] l IH]; intros Hf Hg; [reflexivity|].
  inversion Hf; subst. cbn [map fst snd] in *. f_equal.
  - f_equal. specialize (Hg a (or_introl eq_refl)). congruence.
  - apply IH; [assumption|]. intros a' Hin. apply Hg. now right.
Qed.

Lemma first_best_unique (side : Color) (scored : list (Move * Score))
  (m1 m2 : Move) :
  first_best side scored m1 -> first_best side scored m2 -> m1 = m2.
Proof.
  intros (i1 & s1 & H1 & F1) (i2 & s2 & H2 & F2).
  assert (Hi : i1 = i2).
  { destruct (Nat.lt_trichotomy i1 i2) as [Hlt | [E | Hgt]]; [|exact E|].
    - exfalso. pose proof (F2 i1 m1 s1 H1) as A. pose proof (F1 i2 m2 s2 H2) as B.
      clear F1 F2 H1 H2.
      destruct side; destruct A as [_ A], B as [B _]; specialize (A Hlt);
        score_crush.
    - exfalso. pose proof (F1 i2 m2 s2 H2) as A. pose proof (F2 i1 m1 s1 H1) as B.
      clear F1 F2 H1 H2.
      destruct side; destruct A as [_ A], B as [B _]; specialize (A Hgt);
        score_crush. }
  subst i2. rewrite H1 in H2. now injection H2.
Qed.

Lemma within_budget_stops (clock : Clock) (time_limit start_time : Z) :
  forall legal reads,
  exists rest,
    legal = within_budget clock time_limit start_time reads legal ++ rest /\
    (forall k, (k < List.length
                       (within_budget clock time_limit start_time reads
                          legal))%nat ->
               clock (reads + k)%nat - start_time <= time_limit) /\
    (rest <> [] ->
     clock (reads + List.length
                      (within_budget clock time_limit start_time reads
                         legal))%nat - start_time > time_limit).
Proof.
  induction legal as [|m legal IH]; intros reads; cbn [within_budget].
  - exists []. repeat split; [cbn; lia | congruence].
  - destruct (Z.gtb_spec (clock reads - start_time) time_limit) as [Hgt | Hle].
    + exists (m :: legal). repeat split; [cbn; lia|].
      intros _. cbn. rewrite Nat.add_0_r. lia.
    + destruct (IH (S reads)) as (rest & E & Hpass & Hstop).
      exists rest. cbn [app List.length]. repeat split.
      * now rewrite <- E.
      * intros [|k] Hk; [rewrite Nat.add_0_r; lia|].
        replace (reads + S k)%nat with (S reads + k)%nat by lia.
        apply Hpass. lia.
      * intros Hne.
        replace (reads + S _)%nat
          with (S reads + List.length
                            (within_budget clock time_limit start_time
                               (S reads) legal))%nat by lia.
        now apply Hstop.
Qed.

Section SelectMore.
Context `{Rules}.
Variable clock : Clock.

(** The score of a root move is the minimax value of the position after
    it, one ply less deep, seen from the side that [find_best_move] passes. *)
Lemma root_score_minimax (fuel : nat) (depth : Z) (board : Board)
  (move : Move) :
  1 <= depth -> (Z.to_nat (depth - 1) < fuel)%nat ->
  root_score fuel depth board move
  = Ok (Fin (minimax (Z.to_nat (depth - 1)) (push board move)
               (Color_eqb (turn (push board move)) BLACK))).
Proof.
  intros Hd Hf. unfold root_score.
  rewrite (alpha_beta_runs (Z.to_nat (depth - 1))) by (lia || exact Hf).
  destruct (alpha_beta_value_sound (Z.to_nat (depth - 1)) (push board move)
              NegInf PosInf (Color_eqb (turn (push board move)) BLACK)
              eq_refl) as (r & -> & _ & _ & Hin).
  now rewrite (Hin eq_refl eq_refl).
Qed.

Lemma scored_minimax (fuel : nat) (depth : Z) (board : Board)
  (scored : list (Move * Score)) :
  1 <= depth -> (Z.to_nat (depth - 1) < fuel)%nat ->
  Forall (fun ms => root_score fuel depth board (fst ms) = Ok (snd ms))
    scored ->
  scored = minimax_scores depth board (map fst scored).
Proof.
  intros Hd Hf Hs. unfold minimax_scores.
  apply (scored_as_map (root_score fuel depth board)); [exact Hs|].
  intros move _. now apply root_score_minimax.
Qed.

End SelectMore.

Section SelectExtras.
Context `{Rules}.
Variable clock : Clock.

Lemma within_budget_first (time_limit start_time : Z) (reads : nat)
  (m : Move) (ms : list Move) :
  clock reads - start_time <= time_limit ->
  within_budget clock time_limit start_time reads (m :: ms)
  = m :: within_budget clock time_limit start_time (S reads) ms.
Proof.
  intros Hle. cbn [within_budget].
  destruct (Z.gtb_spec (clock reads - start_time) time_limit); [lia|].
  reflexivity.
Qed.

Lemma within_budget_late (time_limit start_time : Z) (reads : nat)
  (legal : list Move) :
  clock reads - start_time > time_limit ->
  within_budget clock time_limit start_time reads legal = [].
Proof.
  intros Hgt. destruct legal as [|m ms]; [reflexivity|]. cbn [within_budget].
  destruct (Z.gtb_spec (clock reads - start_time) time_limit); [|lia].
  reflexivity.
Qed.

Lemma first_best_minimax_scores (fuel : nat) (depth time_limit : Z)
  (board : Board) (reads : nat) (move : Move) :
  1 <= depth -> (Z.to_nat (depth - 1) < fuel)%nat ->
  let reached := within_budget clock time_limit (clock reads) (S reads)
                   (legal_moves board) in
  (forall w',
     Uci.find_best_move clock fuel depth time_limit
       (Uci.mkWorld board reads) = Ok (Some move, w') ->
     first_best (turn board) (minimax_scores depth board reached) move) /\
  (forall st',
     V3.find_best_move clock fuel depth time_limit (board, reads)
     = Ok (Some move, st') ->
     reached <> [] ->
     first_best (turn board) (minimax_scores depth board reached) move).
Proof.
  intros Hd Hf. cbn zeta. split.
  - intros w' Hrun.
    apply Uci_find_best_move_ok in Hrun
      as (_ & scored & Hmoves & Hscores & Hbest).
    cbn [Uci.w_board Uci.w_reads] in *.
    rewrite <- Hmoves, <- (scored_minimax fuel depth board scored Hd Hf Hscores).
    destruct (running_best (turn board) scored None _) as [bm bs] eqn:Erun.
    cbn [fst] in Hbest. subst bm.
    now apply running_best_first_best in Erun.
  - intros [board' reads'] Hrun Hne.
    apply V3_find_best_move_ok in Hrun
      as (_ & scored & Hmoves & Hscores & Hbest).
    rewrite <- Hmoves in *.
    rewrite <- (scored_minimax fuel depth board scored Hd Hf Hscores).
    destruct scored as [|first others]; [now elim Hne|].
    now destruct Hbest as (move' & [= <-] & Hfb).
Qed.

(** X4: with a depth of at least 1, the move [find_best_move] returns after
    scoring root moves is the first of the root moves reached within the
    time budget whose minimax value, depth - 1 plies deep on the position
    after the move, is the greatest (White to move) or the least (Black to
    move); this holds for both programs. *)
Theorem find_best_move_minimax_choice (fuel : nat) (depth time_limit : Z)
  (board : Board) (reads : nat) (move : Move) :
  1 <= depth -> (Z.to_nat (depth - 1) < fuel)%nat ->
  let reached := within_budget clock time_limit (clock reads) (S reads)
                   (legal_moves board) in
  (forall w',
     Uci.find_best_move clock fuel depth time_limit
       (Uci.mkWorld board reads) = Ok (Some move, w') ->
     first_best (turn board) (minimax_scores depth board reached) move) /\
  (forall st',
     V3.find_best_move clock fuel depth time_limit (board, reads)
     = Ok (Some move, st') ->
     reached <> [] ->
     first_best (turn board) (minimax_scores depth board reached) move).
Proof.
  exact (first_best_minimax_scores fuel depth time_limit board reads move).
Qed.

Lemma Uci_find_best_move_none_cases (fuel : nat) (depth time_limit : Z)
  (board : Board) (reads : nat) (w' : Uci.World) :
  1 <= depth -> (Z.to_nat (depth - 1) < fuel)%nat ->
  Uci.find_best_move clock fuel depth time_limit (Uci.mkWorld board reads)
  = Ok (None, w') ->
  legal_moves board = [] \/ clock (S reads) - clock reads > time_limit.
Proof.
  intros Hd Hf Hrun.
  apply Uci_find_best_move_ok in Hrun
    as (_ & scored & Hmoves & Hscores & Hnone).
  cbn [Uci.w_board Uci.w_reads] in *. symmetry in Hnone.
  destruct (legal_moves board) as [|m ms]; [now left|]. right.
  destruct (Z.gtb_spec (clock (S reads) - clock reads) time_limit)
    as [Hgt | Hle]; [lia|]. exfalso.
  rewrite within_budget_first in Hmoves by exact Hle.
  destruct scored as [|[mv s] scored]; [discriminate|].
  cbn [map fst] in Hmoves. injection Hmoves as -> _.
  inversion Hscores as [|? ? Hs _]; subst. cbn [fst snd] in Hs.
  rewrite root_score_minimax in Hs by assumption. injection Hs as <-.
  cbn [running_best] in Hnone.
  assert (Himp : improves (turn board)
                   (if Color_eqb (turn board) WHITE then NegInf else PosInf)
                   (Fin (minimax (Z.to_nat (depth - 1)) (push board m)
                           (Color_eqb (turn (push board m)) BLACK)))
                 = true) by now destruct (turn board).
  rewrite Himp in Hnone.
  destruct (running_best_some (turn board) scored m
              (Fin (minimax (Z.to_nat (depth - 1)) (push board m)
                      (Color_eqb (turn (push board m)) BLACK))))
    as (m' & s' & E).
  rewrite E in Hnone. discriminate.
Qed.

(** X5: with a depth of at least 1, [find_best_move] of
    [chessEngine_uci.py] returns, and it returns [None] exactly when the
    board has no legal move or the time check before the first root move
    fires. *)
Theorem Uci_find_best_move_none_iff (fuel : nat) (depth time_limit : Z)
  (board : Board) (reads : nat) :
  1 <= depth -> (Z.to_nat (depth - 1) < fuel)%nat ->
  exists r reads',
    Uci.find_best_move clock fuel depth time_limit (Uci.mkWorld board reads)
    = Ok (r, Uci.mkWorld board reads') /\
    (r = None <->
     legal_moves board = [] \/ clock (S reads) - clock reads > time_limit).
Proof.
  intros Hd Hf.
  destruct (Uci_find_best_move_returns clock fuel depth time_limit board
              reads Hd Hf) as (r & reads' & Hrun).
  exists r, reads'. split; [exact Hrun|]. split.
  - intros ->. exact (Uci_find_best_move_none_cases _ _ _ _ _ _ Hd Hf Hrun).
  - intros Hcase.
    apply Uci_find_best_move_ok in Hrun
      as (_ & scored & Hmoves & Hscores & ->).
    cbn [Uci.w_board Uci.w_reads] in *.
    assert (Hnil : within_budget clock time_limit (clock reads) (S reads)
                     (legal_moves board) = []).
    { destruct Hcase as [-> | Hgt]; [reflexivity|].
      now apply within_budget_late. }
    rewrite Hnil in Hmoves. destruct scored; [reflexivity | discriminate].
Qed.

(** X6: with a depth of at least 1, [find_best_move] of
    [chess_engine_v3.py] returns, whatever the clock does, and it returns
    [None] exactly when the board has no legal move; any move it returns is
    a legal move of the board. *)
Theorem V3_find_best_move_none_iff (fuel : nat) (depth time_limit : Z)
  (board : Board) (reads : nat) :
  1 <= depth -> (Z.to_nat (depth - 1) < fuel)%nat ->
  exists r reads',
    V3.find_best_move clock fuel depth time_limit (board, reads)
    = Ok (r, (board, reads')) /\
    (r = None <-> legal_moves board = []) /\
    (forall move, r = Some move -> In move (legal_moves board)).
Proof.
  intros Hd Hf.
  destruct (V3_find_best_move_returns clock fuel depth time_limit board
              reads Hd Hf) as (r & reads' & Hrun).
  exists r, reads'. split; [exact Hrun|].
  apply V3_find_best_move_ok in Hrun
    as (_ & scored & Hmoves & Hscores & Hbest).
  destruct scored as [|first others].
  - subst r. split.
    + destruct (legal_moves board); cbn; split; congruence.
    + intros move E. destruct (legal_moves board); [discriminate|].
      injection E as <-. now left.
  - destruct Hbest as (move & -> & Hfb).
    assert (Hin : In move (legal_moves board)).
    { apply first_best_in in Hfb. rewrite Hmoves in Hfb.
      now apply within_budget_incl in Hfb. }
    split.
    + split; [discriminate|]. intros E. rewrite E in Hin. destruct Hin.
    + now intros move' [= <-].
Qed.

(** X7: the two programs agree: whenever [find_best_move] of
    [chessEngine_uci.py] returns a move, [find_best_move] of
    [chess_engine_v3.py], run on the same board with the same clock, depth
    and time limit, returns the same move if it returns. *)
Theorem find_best_move_variants_agree (fuel : nat) (depth time_limit : Z)
  (board : Board) (reads : nat) (move : Move) (w' : Uci.World)
  (r : option Move) (st' : Board * nat) :
  Uci.find_best_move clock fuel depth time_limit (Uci.mkWorld board reads)
  = Ok (Some move, w') ->
  V3.find_best_move clock fuel depth time_limit (board, reads)
  = Ok (r, st') ->
  r = Some move.
Proof.
  intros Huci Hv3. destruct st' as [board' reads'].
  apply Uci_find_best_move_ok in Huci
    as (_ & scored & Hmoves & Hscores & Hbest).
  apply V3_find_best_move_ok in Hv3
    as (_ & scored' & Hmoves' & Hscores' & Hbest').
  cbn [Uci.w_board Uci.w_reads] in *.
  assert (E : scored' = scored).
  { apply (scored_unique (root_score fuel depth board));
      [congruence | assumption | assumption]. }
  subst scored'.
  destruct (running_best (turn board) scored None _) as [bm bs] eqn:Erun.
  cbn [fst] in Hbest. subst bm.
  destruct scored as [|first others]; [discriminate|].
  apply running_best_first_best in Erun.
  destruct Hbest' as (move' & -> & Hfb).
  f_equal. now apply first_best_unique with (turn board) (first :: others).
Qed.

(** What a reading of the clock costs: one reading when [find_best_move]
    starts, one before each root move, the one that stops the loop
    included. *)
Lemma Uci_root_loop_reads (fuel : nat) (depth time_limit start_time : Z) :
  forall legal best_move best_score w r w',
    Uci.root_loop clock fuel depth time_limit start_time legal
      best_move best_score w = Ok (r, w') ->
    exists rest,
      legal
      = within_budget clock time_limit start_time (Uci.w_reads w) legal
        ++ rest /\
      Uci.w_reads w'
      = (Uci.w_reads w
         + List.length
             (within_budget clock time_limit start_time (Uci.w_reads w)
                legal)
         + match rest with [] => 0 | _ :: _ => 1 end)%nat.
Proof.
  induction legal as [|move rest IH]; intros bm bs [board reads0] r w' Hrun.
  - cbn in Hrun. injection Hrun as <- <-. exists []. cbn. split;
      [reflexivity | lia].
  - cbn [Uci.root_loop] in Hrun. cbn [within_budget Uci.w_reads Uci.w_board].
    unfold bind at 1 in Hrun. unfold Uci.time_time at 1 in Hrun.
    cbn [Uci.w_reads Uci.w_board] in Hrun.
    destruct (clock reads0 - start_time >? time_limit).
    + cbn in Hrun. injection Hrun as <- <-. exists (move :: rest).
      cbn. split; [reflexivity | lia].
    + unfold bind, Uci.the_board, on_board, do_push, do_pop, get in Hrun.
      cbn [Uci.w_reads Uci.w_board] in Hrun.
      pose proof (alpha_beta_restores fuel (depth - 1) NegInf PosInf
                    (Color_eqb (turn (push board move)) BLACK)
                    (push board move)) as Hrest.
      destruct (alpha_beta fuel (depth - 1) NegInf PosInf
                  (Color_eqb (turn (push board move)) BLACK)
                  (push board move)) as [[score b1]| |] eqn:Eab;
        try discriminate.
      cbn [Uci.w_reads Uci.w_board] in Hrun.
      rewrite (Hrest score b1 eq_refl), pop_push in Hrun.
      cbn [Uci.w_reads Uci.w_board] in Hrun.
      assert (Hnext : exists bm' bs',
                 Uci.root_loop clock fuel depth time_limit start_time rest
                   bm' bs' (Uci.mkWorld board (S reads0)) = Ok (r, w')).
      { destruct (Color_eqb (turn board) WHITE);
          match type of Hrun with
          | context [if ?c then _ else _] => destruct c
          end; eauto. }
      destruct Hnext as (bm' & bs' & Hnext).
      apply IH in Hnext as (rest' & E & Hreads).
      cbn [Uci.w_reads] in E, Hreads.
      exists rest'. cbn [app List.length]. split; [now rewrite <- E | lia].
Qed.

Lemma Uci_find_best_move_reads (fuel : nat) (depth time_limit : Z)
  (board : Board) (reads : nat) (r : option Move) (w' : Uci.World) :
  Uci.find_best_move clock fuel depth time_limit (Uci.mkWorld board reads)
  = Ok (r, w') ->
  exists rest,
    legal_moves board
    = within_budget clock time_limit (clock reads) (S reads)
        (legal_moves board) ++ rest /\
    Uci.w_reads w'
    = (S reads
       + List.length
           (within_budget clock time_limit (clock reads) (S reads)
              (legal_moves board))
       + match rest with [] => 0 | _ :: _ => 1 end)%nat.
Proof.
  unfold Uci.find_best_move.
  unfold bind at 1, Uci.time_time at 1. cbn [Uci.w_reads Uci.w_board].
  unfold bind at 1, Uci.the_board at 1, on_board, get.
  cbn [Uci.w_reads Uci.w_board].
  destruct (legal_moves board) as [|m ms] eqn:El.
  - cbn. intros [= <- <-]. exists []. cbn. split; [reflexivity | lia].
  - intros Hrun. apply Uci_root_loop_reads in Hrun. exact Hrun.
Qed.

Lemma V3_root_loop_reads (fuel : nat) (depth time_limit start_time : Z) :
  forall legal move_scores w r w',
    V3.root_loop clock fuel depth time_limit start_time legal move_scores w
    = Ok (r, w') ->
    exists rest,
      legal
      = within_budget clock time_limit start_time (V3.w_reads w) legal
        ++ rest /\
      V3.w_reads w'
      = (V3.w_reads w
         + List.length
             (within_budget clock time_limit start_time (V3.w_reads w)
                legal)
         + match rest with [] => 0 | _ :: _ => 1 end)%nat.
Proof.
  induction legal as [|move rest IH];
    intros acc [board search_board reads0] r w' Hrun.
  - cbn in Hrun. injection Hrun as <- <-. exists []. cbn. split;
      [reflexivity | lia].
  - cbn [V3.root_loop] in Hrun.
    cbn [within_budget V3.w_reads V3.w_board V3.w_search_board].
    unfold bind at 1 in Hrun. unfold V3.time_time at 1 in Hrun.
    cbn [V3.w_reads V3.w_board V3.w_search_board] in Hrun.
    destruct (clock reads0 - start_time >? time_limit).
    + cbn in Hrun. injection Hrun as <- <-. exists (move :: rest).
      cbn. split; [reflexivity | lia].
    + unfold bind, V3.the_search_board, on_board, do_push, do_pop, get
        in Hrun.
      cbn [V3.w_reads V3.w_board V3.w_search_board] in Hrun.
      pose proof (alpha_beta_restores fuel (depth - 1) NegInf PosInf
                    (Color_eqb (turn (push search_board move)) BLACK)
                    (push search_board move)) as Hrest.
      destruct (alpha_beta fuel (depth - 1) NegInf PosInf
                  (Color_eqb (turn (push search_board move)) BLACK)
                  (push search_board move)) as [[score b1]| |] eqn:Eab;
        try discriminate.
      cbn [V3.w_reads V3.w_board V3.w_search_board] in Hrun.
      rewrite (Hrest score b1 eq_refl), pop_push in Hrun.
      cbn [V3.w_reads V3.w_board V3.w_search_board] in Hrun.
      apply IH in Hrun as (rest' & E & Hreads).
      cbn [V3.w_reads] in E, Hreads.
      exists rest'. cbn [app List.length]. split; [now rewrite <- E | lia].
Qed.

Lemma V3_select_frame (legal : list Move)
  (move_scores : list (Move * Score)) (w : V3.World) (r : option Move)
  (w' : V3.World) :
  V3.select legal move_scores w = Ok (r, w') -> w' = w.
Proof.
  unfold V3.select. destruct move_scores as [|first others].
  - cbn. now intros [= _ <-].
  - unfold bind, V3.the_board.
    destruct (if Color_eqb (turn (V3.w_board w)) WHITE
              then V3.max_by_score first others
              else V3.min_by_score first others) as [best_move best_score].
    destruct (negb (existsb (Move_eqb best_move)
                      (legal_moves (V3.w_board w))));
      cbn [ret]; now intros [= _ <-].
Qed.

Lemma V3_find_best_move_reads (fuel : nat) (depth time_limit : Z)
  (board : Board) (reads : nat) (r : option Move) (board' : Board)
  (reads' : nat) :
  V3.find_best_move clock fuel depth time_limit (board, reads)
  = Ok (r, (board', reads')) ->
  exists rest,
    legal_moves board
    = within_budget clock time_limit (clock reads) (S reads)
        (legal_moves board) ++ rest /\
    reads'
    = (S reads
       + List.length
           (within_budget clock time_limit (clock reads) (S reads)
              (legal_moves board))
       + match rest with [] => 0 | _ :: _ => 1 end)%nat.
Proof.
  unfold V3.find_best_move, V3.find_best_move_body, copy.
  unfold bind at 1, V3.time_time at 1.
  cbn [V3.w_reads V3.w_board V3.w_search_board].
  unfold bind at 1, V3.the_search_board at 1, on_board, get.
  cbn [V3.w_reads V3.w_board V3.w_search_board].
  destruct (legal_moves board) as [|m ms] eqn:El.
  - cbn. intros [= _ _ <-]. exists []. cbn. split; [reflexivity | lia].
  - unfold bind.
    destruct (V3.root_loop clock fuel depth time_limit (clock reads)
                (m :: ms) [] (V3.mkWorld board board (S reads)))
      as [[move_scores w1]| |] eqn:Eloop; try discriminate.
    apply V3_root_loop_reads in Eloop as (rest & E & Hreads).
    cbn [V3.w_reads] in E, Hreads.
    destruct (V3.select (m :: ms) move_scores w1) as [[r1 w2]| |] eqn:Esel;
      try discriminate.
    apply V3_select_frame in Esel. subst w2.
    intros [= _ _ <-]. exists rest. split; [exact E | exact Hreads].
Qed.

(** X8: root moves are searched in enumeration order until the first time
    check that fires, and the answer and the number of clock readings are
    those of exactly these moves.  Whenever either program returns, the
    scored moves are a prefix of the legal moves; the check before each of
    them did not fire, and when legal moves are left over the check before
    the first of these fired; the answer is the first best of the scored
    moves ([None], respectively the first legal move, when none was scored);
    the board is as before and the clock was read once at the start, once
    for each scored move, and once more when legal moves are left over. *)
Theorem find_best_move_scores_prefix (fuel : nat) (depth time_limit : Z)
  (board : Board) (reads : nat) :
  (forall r w',
     Uci.find_best_move clock fuel depth time_limit (Uci.mkWorld board reads)
     = Ok (r, w') ->
     exists scored rest,
       legal_moves board = map fst scored ++ rest /\
       Forall (fun ms => root_score fuel depth board (fst ms) = Ok (snd ms))
         scored /\
       (forall k, (k < List.length scored)%nat ->
                  clock (S reads + k)%nat - clock reads <= time_limit) /\
       (rest <> [] ->
        clock (S reads + List.length scored)%nat - clock reads
        > time_limit) /\
       match scored with
       | [] => r = None
       | _ :: _ =>
           exists move, r = Some move /\ first_best (turn board) scored move
       end /\
       w' = Uci.mkWorld board
              (S reads + List.length scored
               + match rest with [] => 0 | _ :: _ => 1 end)) /\
  (forall r st',
     V3.find_best_move clock fuel depth time_limit (board, reads)
     = Ok (r, st') ->
     exists scored rest,
       legal_moves board = map fst scored ++ rest /\
       Forall (fun ms => root_score fuel depth board (fst ms) = Ok (snd ms))
         scored /\
       (forall k, (k < List.length scored)%nat ->
                  clock (S reads + k)%nat - clock reads <= time_limit) /\
       (rest <> [] ->
        clock (S reads + List.length scored)%nat - clock reads
        > time_limit) /\
       match scored with
       | [] => r = hd_error (legal_moves board)
       | _ :: _ =>
           exists move, r = Some move /\ first_best (turn board) scored move
       end /\
       st' = (board,
              (S reads + List.length scored
               + match rest with [] => 0 | _ :: _ => 1 end)%nat)).
Proof.
  destruct (within_budget_stops clock time_limit (clock reads)
              (legal_moves board) (S reads)) as (rest & E & Hpass & Hstop).
  split.
  - intros r [board' reads'] Hrun.
    destruct (Uci_find_best_move_reads _ _ _ _ _ _ _ Hrun)
      as (rest' & E' & Hreads).
    assert (rest' = rest) as ->
      by (rewrite E in E' at 1; now apply app_inv_head in E').
    apply Uci_find_best_move_ok in Hrun
      as (Hboard & scored & Hmoves & Hscores & Hbest).
    cbn [Uci.w_board Uci.w_reads] in *. subst board'.
    rewrite <- Hmoves in E, Hpass, Hstop, Hreads.
    rewrite length_map in Hpass, Hstop, Hreads.
    exists scored, rest. repeat split; try assumption.
    + destruct scored as [|first others]; [exact Hbest|].
      destruct (running_best_scored fuel depth board first others Hscores)
        as (move & Hfst & Hfb).
      exists move. split; [congruence | exact Hfb].
    + now rewrite Hreads.
  - intros r [board' reads'] Hrun.
    destruct (V3_find_best_move_reads _ _ _ _ _ _ _ _ Hrun)
      as (rest' & E' & Hreads).
    assert (rest' = rest) as ->
      by (rewrite E in E' at 1; now apply app_inv_head in E').
    apply V3_find_best_move_ok in Hrun
      as (-> & scored & Hmoves & Hscores & Hbest).
    rewrite <- Hmoves in E, Hpass, Hstop, Hreads.
    rewrite length_map in Hpass, Hstop, Hreads.
    exists scored, rest. repeat split; try assumption.
    now rewrite Hreads.
Qed.

End SelectExtras.

Lemma find_best_move_minimax_choice_witness :
  1 <= 1 /\ (Z.to_nat (1 - 1) < 1)%nat /\
  Uci.find_best_move (H := Examples.example_rules) Examples.frozen_clock
    1 1 2 (Uci.mkWorld Examples.starting_board 0)
  = Ok (Some (Examples.mv 15 31), Uci.mkWorld Examples.starting_board 21) /\
  first_best (turn Examples.starting_board)
    (minimax_scores (H := Examples.example_rules) 1 Examples.starting_board
       (within_budget Examples.frozen_clock 2 (Examples.frozen_clock 0%nat)
          1 (legal_moves (Rules := Examples.example_rules)
               Examples.starting_board)))
    (Examples.mv 15 31).
Proof.
  assert (Hrun :
    Uci.find_best_move (H := Examples.example_rules) Examples.frozen_clock
      1 1 2 (Uci.mkWorld Examples.starting_board 0)
    = Ok (Some (Examples.mv 15 31), Uci.mkWorld Examples.starting_board 21))
    by (vm_compute; reflexivity).
  assert (Hd : 1 <= 1) by lia.
  assert (Hf : (Z.to_nat (1 - 1) < 1)%nat) by (cbn; lia).
  split; [exact Hd|]. split; [exact Hf|]. split; [exact Hrun|].
  exact (proj1 (find_best_move_minimax_choice (H := Examples.example_rules)
                  Examples.frozen_clock 1 1 2 Examples.starting_board 0
                  (Examples.mv 15 31) Hd Hf) _ Hrun).
Defined.

Lemma Uci_find_best_move_none_iff_witness :
  1 <= 3 /\ (Z.to_nat (3 - 1) < 3)%nat /\
  exists r reads',
    Uci.find_best_move (H := Examples.example_rules) Examples.slow_clock
      3 3 2 (Uci.mkWorld Examples.starting_board 0)
    = Ok (r, Uci.mkWorld Examples.starting_board reads') /\
    (r = None <->
     legal_moves (Rules := Examples.example_rules) Examples.starting_board
     = [] \/
     Examples.slow_clock 1%nat - Examples.slow_clock 0%nat > 2).
Proof.
  assert (Hd : 1 <= 3) by lia.
  assert (Hf : (Z.to_nat (3 - 1) < 3)%nat) by (cbn; lia).
  split; [exact Hd|]. split; [exact Hf|].
  exact (Uci_find_best_move_none_iff (H := Examples.example_rules)
           Examples.slow_clock 3 3 2 Examples.starting_board 0 Hd Hf).
Defined.

Lemma V3_find_best_move_none_iff_witness :
  1 <= 3 /\ (Z.to_nat (3 - 1) < 3)%nat /\
  exists r reads',
    V3.find_best_move (H := Examples.example_rules) Examples.slow_clock
      3 3 2 (Examples.starting_board, 0%nat)
    = Ok (r, (Examples.starting_board, reads')) /\
    (r = None <->
     legal_moves (Rules := Examples.example_rules) Examples.starting_board
     = []) /\
    (forall move, r = Some move ->
       In move (legal_moves (Rules := Examples.example_rules)
                  Examples.starting_board)).
Proof.
  assert (Hd : 1 <= 3) by lia.
  assert (Hf : (Z.to_nat (3 - 1) < 3)%nat) by (cbn; lia).
  split; [exact Hd|]. split; [exact Hf|].
  exact (V3_find_best_move_none_iff (H := Examples.example_rules)
           Examples.slow_clock 3 3 2 Examples.starting_board 0 Hd Hf).
Defined.

Lemma find_best_move_variants_agree_witness :
  Uci.find_best_move (H := Examples.example_rules) Examples.frozen_clock
    1 1 2 (Uci.mkWorld Examples.starting_board 0)
  = Ok (Some (Examples.mv 15 31), Uci.mkWorld Examples.starting_board 21) /\
  V3.find_best_move (H := Examples.example_rules) Examples.frozen_clock
    1 1 2 (Examples.starting_board, 0%nat)
  = Ok (Some (Examples.mv 15 31), (Examples.starting_board, 21%nat)) /\
  Some (Examples.mv 15 31) = Some (Examples.mv 15 31).
Proof.
  assert (Huci :
    Uci.find_best_move (H := Examples.example_rules) Examples.frozen_clock
      1 1 2 (Uci.mkWorld Examples.starting_board 0)
    = Ok (Some (Examples.mv 15 31), Uci.mkWorld Examples.starting_board 21))
    by (vm_compute; reflexivity).
  assert (Hv3 :
    V3.find_best_move (H := Examples.example_rules) Examples.frozen_clock
      1 1 2 (Examples.starting_board, 0%nat)
    = Ok (Some (Examples.mv 15 31), (Examples.starting_board, 21%nat)))
    by (vm_compute; reflexivity).
  split; [exact Huci|]. split; [exact Hv3|].
  exact (find_best_move_variants_agree (H := Examples.example_rules)
           Examples.frozen_clock 1 1 2 Examples.starting_board 0
           (Examples.mv 15 31) _ _ _ Huci Hv3).
Defined.

Lemma find_best_move_scores_prefix_witness :
  V3.find_best_move (H := Examples.example_rules) Examples.frozen_clock
    1 1 2 (Examples.starting_board, 0%nat)
  = Ok (Some (Examples.mv 15 31), (Examples.starting_board, 21%nat)) /\
  exists scored rest,
    Examples.starting_moves = map fst scored ++ rest /\
    List.length scored = 20%nat /\ rest = [] /\
    first_best WHITE scored (Examples.mv 15 31).
Proof.
  assert (Hrun :
    V3.find_best_move (H := Examples.example_rules) Examples.frozen_clock
      1 1 2 (Examples.starting_board, 0%nat)
    = Ok (Some (Examples.mv 15 31), (Examples.starting_board, 21%nat)))
    by (vm_compute; reflexivity).
  split; [exact Hrun|].
  destruct (proj2 (find_best_move_scores_prefix
                     (H := Examples.example_rules) Examples.frozen_clock
                     1 1 2 Examples.starting_board 0) _ _ Hrun)
    as (scored & rest & Hlegal & _ & _ & Hstop & Hbest & Hstate).
  change (legal_moves (Rules := Examples.example_rules)
            Examples.starting_board)
    with Examples.starting_moves in Hlegal.
  assert (Hrest : rest = []).
  { destruct rest as [|m rest]; [reflexivity|]. exfalso.
    assert (Hne : m :: rest <> []) by discriminate.
    apply Hstop in Hne. unfold Examples.frozen_clock in Hne. lia. }
  subst rest. injection Hstate as Hreads.
  assert (Hlen : List.length scored = 20%nat) by lia.
  exists scored, []. split; [exact Hlegal|]. split; [exact Hlen|].
  split; [reflexivity|].
  destruct scored as [|first others]; [discriminate Hlen|].
  destruct Hbest as (move & Emove & Hfb).
  injection Emove as <-. exact Hfb.
Defined.

(** ** The [position] command, in general *)

Lemma slice_middle {A : Type} (pre mid post : list A) :
  slice (pre ++ mid ++ post) (Z.of_nat (List.length pre))
    (Z.of_nat (List.length pre) + Z.of_nat (List.length mid))
  = mid.
Proof.
  unfold slice. rewrite !length_app.
  set (p := List.length pre). set (m := List.length mid).
  set (q := List.length post).
  replace (Z.of_nat p <? 0) with false by (symmetry; apply Z.ltb_ge; lia).
  replace (Z.of_nat p + Z.of_nat m <? 0) with false
    by (symmetry; apply Z.ltb_ge; lia).
  replace (Z.min (Z.of_nat p) (Z.of_nat (p + (m + q)))) with (Z.of_nat p)
    by lia.
  replace (Z.min (Z.of_nat p + Z.of_nat m) (Z.of_nat (p + (m + q))))
    with (Z.of_nat p + Z.of_nat m) by lia.
  rewrite Nat2Z.id.
  replace (Z.to_nat (Z.of_nat p + Z.of_nat m - Z.of_nat p)) with m by lia.
  unfold p, m. rewrite skipn_app, skipn_all, Nat.sub_diag. cbn [skipn app].
  now rewrite firstn_app, firstn_all, Nat.sub_diag, firstn_O, app_nil_r.
Qed.

Lemma index_first (x : string) (pre post : list string) :
  ~ In x pre -> index x (pre ++ x :: post) = Z.of_nat (List.length pre).
Proof.
  induction pre as [|p pre IH]; intros Hnot; cbn [app index List.length].
  - now rewrite String.eqb_refl.
  - destruct (String.eqb_spec p x) as [-> | _].
    + exfalso. apply Hnot. now left.
    + rewrite IH by (intros Hin; apply Hnot; now right). lia.
Qed.

Lemma contains_In (x : string) (parts : list string) :
  contains x parts = true <-> In x parts.
Proof.
  unfold contains. rewrite existsb_exists. split.
  - intros (y & Hin & E). apply String.eqb_eq in E. now subst.
  - intros Hin. exists x. split; [exact Hin | apply String.eqb_refl].
Qed.

(** White space is what [str.isspace] says it is, the no-break space and
    the next-line character included. *)
Lemma split_strip_no_break_space :
  split ("position" ++ String (ascii_of_nat 160) "x startpos e2e4")
  = ["position"; "x"; "startpos"; "e2e4"]%string /\
  position_command ("position" ++ String (ascii_of_nat 160) "x startpos e2e4")
  = Ok Keep /\
  strip (String (ascii_of_nat 160) ("quit" ++ String (ascii_of_nat 133) ""))
  = "quit"%string.
Proof. vm_compute. repeat split. Qed.

(** X9: [position startpos]: when the word after [startpos] is [moves],
    the moves to replay are the words after it; otherwise every word after
    [startpos] is taken as a move.  With nothing after [startpos] the lookup
    [parts[2]] raises [IndexError]. *)
Theorem position_startpos (line w : string) (rest : list string) :
  split line = w :: "startpos"%string :: rest ->
  position_command line
  = match rest with
    | [] => Raise IndexError
    | third :: more =>
        Ok (Startpos (if String.eqb third "moves" then more
                      else third :: more))
    end.
Proof.
  intros Hsplit. unfold position_command. rewrite Hsplit.
  cbn [item nth_error]. rewrite String.eqb_refl.
  destruct rest as [|third more]; cbn [item nth_error]; [reflexivity|].
  destruct (String.eqb third "moves").
  - destruct more; reflexivity.
  - reflexivity.
Qed.

(** X10: [position fen ... moves ...]: the FEN handed to the rules package
    is made of all the words between [fen] and the first [moves], joined by
    single spaces, and the moves to replay are the words after it. *)
Theorem position_fen_with_moves_general (line w : string)
  (fields moves : list string) :
  split line = w :: "fen"%string :: fields ++ "moves"%string :: moves ->
  w <> "moves"%string -> ~ In "moves"%string fields ->
  position_command line = Ok (Fen (join fields) moves).
Proof.
  intros Hsplit Hw Hfields. unfold position_command. rewrite Hsplit.
  cbn [item nth_error].
  change (String.eqb "fen" "startpos") with false.
  rewrite String.eqb_refl. cbv iota.
  set (parts := w :: "fen"%string :: fields ++ "moves"%string :: moves).
  assert (Hin : contains "moves" parts = true).
  { apply contains_In. unfold parts. right. right. apply in_or_app.
    right. now left. }
  assert (Hidx : index "moves" parts = 2 + Z.of_nat (List.length fields)).
  { change parts
      with ((w :: "fen"%string :: fields) ++ "moves"%string :: moves).
    rewrite index_first.
    - cbn [List.length]. lia.
    - intros [E | [E | Hin']]; [now apply Hw | discriminate | contradiction]. }
  unfold fen_of. rewrite Hin, Hidx. f_equal. f_equal.
  - f_equal.
    change parts
      with ([w; "fen"%string] ++ fields ++ "moves"%string :: moves).
    apply (slice_middle [w; "fen"%string] fields
             ("moves"%string :: moves)).
  - unfold slice_from.
    replace (Z.to_nat (2 + Z.of_nat (List.length fields) + 1))
      with (List.length (w :: "fen"%string :: fields ++ ["moves"%string]))
      by (cbn [List.length]; rewrite length_app; cbn [List.length]; lia).
    change parts
      with (w :: "fen"%string :: fields ++ ["moves"%string] ++ moves).
    rewrite app_assoc.
    change (w :: "fen"%string :: (fields ++ ["moves"%string]) ++ moves)
      with ((w :: "fen"%string :: fields ++ ["moves"%string]) ++ moves).
    now rewrite skipn_app, skipn_all, Nat.sub_diag.
Qed.

(** X11: [position fen ...] without a [moves] word: the FEN handed to the
    rules package is made of the words after [fen] except the last one, and
    no move is replayed. *)
Theorem position_fen_without_moves (line w : string) (fields : list string) :
  split line = w :: "fen"%string :: fields ->
  contains "moves" (w :: "fen"%string :: fields) = false ->
  position_command line = Ok (Fen (join (removelast fields)) []).
Proof.
  intros Hsplit Hno. unfold position_command. rewrite Hsplit.
  cbn [item nth_error].
  change (String.eqb "fen" "startpos") with false.
  rewrite String.eqb_refl. cbv iota.
  rewrite Hno, fen_of_no_moves by exact Hno. reflexivity.
Qed.

(** X12: the [position] branch raises [IndexError] exactly when the line
    has a single word, or has the two words [<word> startpos]; a second word
    other than [startpos] and [fen] leaves the board as it is. *)
Theorem position_command_failure (line : string) :
  (position_command line = Raise IndexError <->
   (List.length (split line) <= 1)%nat \/
   exists w, split line = [w; "startpos"%string]) /\
  (forall w second rest,
     split line = w :: second :: rest ->
     second <> "startpos"%string -> second <> "fen"%string ->
     position_command line = Ok Keep).
Proof.
  unfold position_command.
  destruct (split line) as [|w [|second rest]]; cbn [item nth_error].
  - split; [|discriminate]. split; [intros _; left; cbn; lia | reflexivity].
  - split; [|discriminate]. split; [intros _; left; cbn; lia | reflexivity].
  - destruct (String.eqb_spec second "startpos") as [-> | Hs].
    + split.
      * destruct rest as [|third more]; cbn [item nth_error List.length].
        -- split; [intros _; right; eauto | reflexivity].
        -- split.
           ++ destruct (String.eqb third "moves");
                [destruct more|]; discriminate.
           ++ intros [Hlen | (w' & E)]; [cbn in Hlen; lia | discriminate].
      * intros w' second' rest' [= _ <- _] Hne. now elim Hne.
    + destruct (String.eqb_spec second "fen") as [-> | Hf].
      * split.
        -- split.
           ++ destruct (contains "moves" (w :: "fen"%string :: rest));
                discriminate.
           ++ intros [Hlen | (w' & E)]; [cbn in Hlen; lia | discriminate].
        -- intros w' second' rest' [= _ <- _] _ Hne. now elim Hne.
      * split.
        -- split; [discriminate|].
           intros [Hlen | (w' & E)]; [cbn in Hlen; lia|].
           injection E as _ -> _. now elim Hs.
        -- reflexivity.
Qed.

Lemma position_startpos_witness :
  split "position startpos moves e2e4 e7e5"
  = ["position"; "startpos"; "moves"; "e2e4"; "e7e5"]%string /\
  position_command "position startpos moves e2e4 e7e5"
  = Ok (Startpos ["e2e4"; "e7e5"]%string).
Proof.
  assert (Hs : split "position startpos moves e2e4 e7e5"
               = ["position"; "startpos"; "moves"; "e2e4"; "e7e5"]%string)
    by (vm_compute; reflexivity).
  split; [exact Hs|].
  exact (position_startpos _ _ _ Hs).
Defined.

Lemma position_fen_with_moves_general_witness :
  split "position fen 8/8/8/8/8/8/8/K1k5 w - - 0 25 moves a1a2"
  = "position"%string :: "fen"%string
    :: ["8/8/8/8/8/8/8/K1k5"; "w"; "-"; "-"; "0"; "25"]%string
       ++ "moves"%string :: ["a1a2"%string] /\
  "position"%string <> "moves"%string /\
  ~ In "moves"%string ["8/8/8/8/8/8/8/K1k5"; "w"; "-"; "-"; "0"; "25"]%string /\
  position_command "position fen 8/8/8/8/8/8/8/K1k5 w - - 0 25 moves a1a2"
  = Ok (Fen (join ["8/8/8/8/8/8/8/K1k5"; "w"; "-"; "-"; "0"; "25"]%string)
          ["a1a2"%string]).
Proof.
  assert (Hs : split "position fen 8/8/8/8/8/8/8/K1k5 w - - 0 25 moves a1a2"
               = "position"%string :: "fen"%string
                 :: ["8/8/8/8/8/8/8/K1k5"; "w"; "-"; "-"; "0"; "25"]%string
                    ++ "moves"%string :: ["a1a2"%string])
    by (vm_compute; reflexivity).
  assert (Hw : "position"%string <> "moves"%string) by discriminate.
  assert (Hf : ~ In "moves"%string
                 ["8/8/8/8/8/8/8/K1k5"; "w"; "-"; "-"; "0"; "25"]%string)
    by (cbn; intuition discriminate).
  split; [exact Hs|]. split; [exact Hw|]. split; [exact Hf|].
  exact (position_fen_with_moves_general _ _ _ _ Hs Hw Hf).
Defined.

Lemma position_fen_without_moves_witness :
  split "position fen 8/8/8/8/8/8/8/K1k5 w - - 0 25"
  = ["position"; "fen"; "8/8/8/8/8/8/8/K1k5"; "w"; "-"; "-"; "0"; "25"]%string
  /\
  contains "moves"
    ["position"; "fen"; "8/8/8/8/8/8/8/K1k5"; "w"; "-"; "-"; "0"; "25"]%string
  = false /\
  position_command "position fen 8/8/8/8/8/8/8/K1k5 w - - 0 25"
  = Ok (Fen (join (removelast
                     ["8/8/8/8/8/8/8/K1k5"; "w"; "-"; "-"; "0"; "25"]%string))
          []).
Proof.
  assert (Hs : split "position fen 8/8/8/8/8/8/8/K1k5 w - - 0 25"
               = ["position"; "fen"; "8/8/8/8/8/8/8/K1k5"; "w"; "-"; "-";
                  "0"; "25"]%string) by (vm_compute; reflexivity).
  assert (Hno : contains "moves"
                  ["position"; "fen"; "8/8/8/8/8/8/8/K1k5"; "w"; "-"; "-";
                   "0"; "25"]%string = false) by (vm_compute; reflexivity).
  split; [exact Hs|]. split; [exact Hno|].
  exact (position_fen_without_moves _ _ _ Hs Hno).
Defined.

Lemma position_command_failure_witness :
  split "position startpos" = ["position"; "startpos"]%string /\
  position_command "position startpos" = Raise IndexError.
Proof.
  assert (Hs : split "position startpos" = ["position"; "startpos"]%string)
    by (vm_compute; reflexivity).
  split; [exact Hs|].
  apply (proj1 (position_command_failure "position startpos")).
  right. exists "position"%string. exact Hs.
Defined.

(** ** The static score stays far from the mate scores *)

Lemma nth_within (lo hi : Z) (l : list Z) (n : nat) :
  Forall (fun x => lo <= x <= hi) l -> lo <= 0 <= hi ->
  lo <= nth n l 0 <= hi.
Proof.
  intros Hall H0. destruct (nth_in_or_default n l 0) as [Hin | ->].
  - rewrite Forall_forall in Hall. now apply Hall.
  - exact H0.
Qed.

Lemma PAWN_PST_within (i : Z) : -20 <= pst_get PAWN_PST i <= 50.
Proof.
  unfold pst_get. apply nth_within; [|lia].
  unfold PAWN_PST. repeat (constructor; [lia|]). constructor.
Qed.

Lemma KNIGHT_PST_within (i : Z) : -50 <= pst_get KNIGHT_PST i <= 20.
Proof.
  unfold pst_get. apply nth_within; [|lia].
  unfold KNIGHT_PST. repeat (constructor; [lia|]). constructor.
Qed.

Lemma KING_PST_within (i : Z) : -50 <= pst_get KING_PST i <= 30.
Proof.
  unfold pst_get. apply nth_within; [|lia].
  unfold KING_PST. repeat (constructor; [lia|]). constructor.
Qed.

(** What one square adds to the total: about 20000 for a White king, about
    -20000 for a Black king, at most 920 either way for anything else. *)
Lemma square_contribution (board : Board) (square : Square) :
  let c := material_at board square + pst_at board square in
  if is_king_of WHITE board square then 19950 <= c <= 20030
  else if is_king_of BLACK board square then -20030 <= c <= -19950
  else -920 <= c <= 920.
Proof.
  unfold material_at, pst_at, is_king_of.
  destruct (piece_at board square) as [[pt col]|]; cbn [piece_type color];
    [|cbn; lia].
  pose proof (PAWN_PST_within square) as Hp.
  pose proof (PAWN_PST_within (square_mirror square)) as Hp'.
  pose proof (KNIGHT_PST_within square) as Hn.
  pose proof (KNIGHT_PST_within (square_mirror square)) as Hn'.
  pose proof (KING_PST_within square) as Hk.
  pose proof (KING_PST_within (square_mirror square)) as Hk'.
  destruct pt, col;
    cbn [PieceType_eqb Color_eqb andb PIECE_VALUES PST_TABLES];
    unfold BISHOP_PST, ROOK_PST, QUEEN_PST; cbv zeta; lia.
Qed.

Lemma not_both_kings (board : Board) (square : Square) :
  is_king_of WHITE board square = true ->
  is_king_of BLACK board square = true -> False.
Proof.
  unfold is_king_of. destruct (piece_at board square) as [[pt []]|];
    cbn [color Color_eqb]; rewrite ?andb_false_r; discriminate.
Qed.

Lemma contributions_bounded (board : Board) (l : list Square) :
  let w := Z.of_nat (kings_in WHITE board l) in
  let b := Z.of_nat (kings_in BLACK board l) in
  let n := Z.of_nat (List.length l) in
  let total := Zsum (map (material_at board) l) + Zsum (map (pst_at board) l) in
  w + b <= n /\
  19950 * w - 20030 * b - 920 * (n - w - b) <= total
  <= 20030 * w - 19950 * b + 920 * (n - w - b).
Proof.
  unfold kings_in, Zsum.
  induction l as [|sq l IH]; cbn [map fold_right filter List.length].
  - cbn. lia.
  - pose proof (square_contribution board sq) as Hsq. cbv zeta in Hsq, IH |- *.
    pose proof (not_both_kings board sq) as Hnot.
    destruct (is_king_of WHITE board sq), (is_king_of BLACK board sq);
      cbn [List.length]; try (exfalso; now apply Hnot); lia.
Qed.

Lemma total_score_bounded (board : Board) :
  kings WHITE board = 1%nat -> kings BLACK board = 1%nat ->
  -57120 <= total_score board <= 57120.
Proof.
  unfold kings. intros Hw Hb. rewrite total_score_sum.
  pose proof (contributions_bounded board SQUARES) as Hc. cbv zeta in Hc.
  rewrite Hw, Hb in Hc.
  replace (List.length SQUARES) with 64%nat in Hc
    by (unfold SQUARES; now rewrite length_map, length_seq).
  lia.
Qed.

Section EvaluatorRange.
Context `{Rules}.

(** X13: on a board with one king of each colour, a position that is not
    checkmate is scored within 57120 of zero, so the value is 99999 or
    -99999 exactly when the position is checkmate: no static score can be
    taken for a mate. *)
Theorem evaluate_position_mate_score_only_for_mate (board : Board) :
  kings WHITE board = 1%nat -> kings BLACK board = 1%nat ->
  (is_checkmate board = false ->
   -57120 <= evaluate_position board <= 57120) /\
  (is_checkmate board = true <->
   evaluate_position board = 99999 \/ evaluate_position board = -99999).
Proof.
  intros Hw Hb. pose proof (total_score_bounded board Hw Hb) as Ht.
  assert (Hrange : is_checkmate board = false ->
                   -57120 <= evaluate_position board <= 57120).
  { intros Hc. unfold evaluate_position. rewrite Hc.
    destruct (is_stalemate board || is_insufficient_material board);
      [lia|].
    cbv zeta. destruct (Color_eqb (turn board) WHITE); lia. }
  split; [exact Hrange|]. split.
  - intros Hc. unfold evaluate_position. rewrite Hc.
    destruct (Color_eqb (turn board) WHITE); [now right | now left].
  - intros Hv. destruct (is_checkmate board) eqn:Hc; [reflexivity|].
    specialize (Hrange eq_refl). lia.
Qed.

End EvaluatorRange.

Lemma evaluate_position_mate_score_only_for_mate_witness :
  kings WHITE Examples.starting_board = 1%nat /\
  kings BLACK Examples.starting_board = 1%nat /\
  -57120 <= @evaluate_position Examples.example_rules Examples.starting_board
  <= 57120.
Proof.
  assert (Hw : kings WHITE Examples.starting_board = 1%nat)
    by (vm_compute; reflexivity).
  assert (Hb : kings BLACK Examples.starting_board = 1%nat)
    by (vm_compute; reflexivity).
  split; [exact Hw|]. split; [exact Hb|].
  apply (proj1 (@evaluate_position_mate_score_only_for_mate
                  Examples.example_rules Examples.starting_board Hw Hb)).
  vm_compute; reflexivity.
Defined.

(** ** The protocol loop *)

Lemma startswith_cons (p line : string) (a : ascii) :
  startswith line (String a p) = true ->
  exists rest, line = String a rest /\ startswith rest p = true.
Proof.
  unfold startswith. destruct line as [|b rest]; cbn [String.prefix];
    [discriminate|].
  destruct (ascii_dec a b) as [<- |]; [|discriminate]. eauto.
Qed.

Lemma startswith_go (line : string) :
  startswith line "go" = true ->
  exists rest, line = String "g" (String "o" rest).
Proof.
  intros Hg. apply startswith_cons in Hg as (r1 & -> & Hg).
  apply startswith_cons in Hg as (r2 & -> & _). eauto.
Qed.

Lemma startswith_position (line : string) :
  startswith line "position" = true -> exists rest, line = String "p" rest.
Proof. intros Hp. apply startswith_cons in Hp as (r1 & -> & _). eauto. Qed.

Section SelectChoice.
Context `{Rules}.

Lemma map_fst_minimax_scores (depth : Z) (board : Board) (moves : list Move) :
  map fst (minimax_scores depth board moves) = moves.
Proof.
  unfold minimax_scores. rewrite map_map. cbn [fst]. apply map_id.
Qed.

End SelectChoice.

Section ProtocolLoop.
Context `{Rules} `{Codec}.
Variable clock : Clock.
Variable second : Z.

(** The search of the [go] branch returns, hands the board back, and its
    answer is the first best of the moves reached in time. *)
Lemma search_runs (fuel : nat) (s : Session) :
  (2 < fuel)%nat ->
  exists r reads',
    search clock second fuel s
    = Ok (r, {| s_board := s_board s; s_reads := reads';
                s_output := s_output s |}) /\
    (r = None ->
     legal_moves (s_board s) = [] \/
     clock (S (s_reads s)) - clock (s_reads s) > 2 * second) /\
    (forall m, r = Some m ->
       first_best (turn (s_board s))
         (minimax_scores 3 (s_board s)
            (within_budget clock (2 * second) (clock (s_reads s))
               (S (s_reads s)) (legal_moves (s_board s)))) m /\
       In m (legal_moves (s_board s))).
Proof.
  intros Hfuel.
  assert (Hd : 1 <= 3) by lia.
  assert (Hf : (Z.to_nat (3 - 1) < fuel)%nat) by lia.
  destruct (Uci_find_best_move_returns clock fuel 3 (2 * second) (s_board s)
              (s_reads s) Hd Hf) as (r & reads' & Hrun).
  exists r, reads'. unfold search. rewrite Hrun. cbn [Uci.w_board Uci.w_reads].
  split; [reflexivity|]. split.
  - intros ->.
    exact (Uci_find_best_move_none_cases clock _ _ _ _ _ _ Hd Hf Hrun).
  - intros m ->.
    apply Uci_find_best_move_ok in Hrun
      as (_ & scored & Hmoves & Hscores & Hbest).
    cbn [Uci.w_board Uci.w_reads] in *.
    assert (Hfb : first_best (turn (s_board s))
                    (minimax_scores 3 (s_board s)
                       (within_budget clock (2 * second) (clock (s_reads s))
                          (S (s_reads s)) (legal_moves (s_board s)))) m).
    { rewrite <- Hmoves,
        <- (scored_minimax fuel 3 (s_board s) scored Hd Hf Hscores).
      destruct (running_best (turn (s_board s)) scored None _)
        as [bm bs] eqn:Erun.
      cbn [fst] in Hbest. subst bm.
      now apply running_best_first_best in Erun. }
    split; [exact Hfb|].
    apply first_best_in in Hfb. rewrite map_fst_minimax_scores in Hfb.
    now apply within_budget_incl in Hfb.
Qed.

(** What one pass of the loop body does to the store, branch by branch. *)
Lemma uci_body_effect (fuel : nat) (raw : string) (s : Session)
  (next : Next) (s' : Session) :
  uci_body clock second fuel raw s = Ok (next, s') ->
  let line := strip raw in
  (exists printed,
     s_output s' = s_output s ++ printed /\
     Forall protocol_line printed /\
     (line <> "uci"%string -> line <> "isready"%string ->
      startswith line "go" = false -> printed = [])) /\
  (line <> "ucinewgame"%string -> startswith line "position" = false ->
   s_board s' = s_board s) /\
  (startswith line "go" = false -> s_reads s' = s_reads s) /\
  (next = Break <-> line = "quit"%string).
Proof.
  unfold uci_body. cbv zeta. set (line := strip raw).
  assert (Hfixed : forall text,
            In text ["id name SimpleChess 1500"; "id author xAI"; "uciok";
                     "readyok"; "bestmove (none)"]%string ->
            protocol_line text) by (intros text Hin; now left).
  destruct (String.eqb_spec line "uci") as [Euci | Nuci].
  { intros Hrun. cbn in Hrun. injection Hrun as <- <-. cbn [s_output s_board s_reads].
    rewrite Euci. repeat split; try congruence; try discriminate.
    exists ["id name SimpleChess 1500"; "id author xAI"; "uciok"]%string.
    rewrite <- !app_assoc. cbn [app]. repeat split.
    - repeat constructor; apply Hfixed; cbn; tauto.
    - congruence. }
  destruct (String.eqb_spec line "isready") as [Eready | Nready].
  { intros Hrun. cbn in Hrun. injection Hrun as <- <-. cbn [s_output s_board s_reads].
    rewrite Eready. repeat split; try congruence; try discriminate.
    exists ["readyok"%string]. repeat split.
    - repeat constructor; apply Hfixed; cbn; tauto.
    - congruence. }
  destruct (String.eqb_spec line "ucinewgame") as [Enew | Nnew].
  { intros Hrun. cbn in Hrun. injection Hrun as <- <-. cbn [s_output s_board s_reads].
    rewrite Enew. repeat split; try congruence; try discriminate.
    exists []. rewrite app_nil_r. repeat split. constructor. }
  destruct (startswith line "position") eqn:Epos.
  { intros Hrun.
    destruct (startswith_position line Epos) as (rest & Eline).
    assert (Hgo : startswith line "go" = false) by (rewrite Eline; reflexivity).
    assert (Hquit : line <> "quit"%string) by (rewrite Eline; discriminate).
    assert (Hout : s_output s' = s_output s /\ s_reads s' = s_reads s
                   /\ next = Continue).
    { unfold bind, position_branch in Hrun.
      destruct (position_command line) as [[moves|fen moves|]| |];
        try discriminate.
      - unfold bind, set_board, the_session_board, on_board in Hrun.
        cbn [s_board s_reads s_output] in Hrun.
        destruct (push_each moves new_board) as [[[] b]| |];
          try discriminate.
        injection Hrun as <- <-. now cbn.
      - destruct (board_of_fen fen) as [b0| |]; try discriminate.
        unfold bind, set_board, the_session_board, on_board in Hrun.
        cbn [s_board s_reads s_output] in Hrun.
        destruct (push_each moves b0) as [[[] b]| |]; try discriminate.
        injection Hrun as <- <-. now cbn.
      - injection Hrun as <- <-. now cbn. }
    destruct Hout as (Hout & Hreads & ->).
    repeat split; try congruence; try discriminate.
    exists []. rewrite app_nil_r. repeat split; [exact Hout | constructor]. }
  destruct (startswith line "go") eqn:Ego.
  { intros Hrun.
    destruct (startswith_go line Ego) as (rest & Eline).
    assert (Hquit : line <> "quit"%string) by (rewrite Eline; discriminate).
    unfold bind, go_branch in Hrun. unfold bind, search in Hrun.
    destruct (Uci.find_best_move clock fuel 3 (2 * second)
                {| Uci.w_board := s_board s; Uci.w_reads := s_reads s |})
      as [[r w]| |] eqn:Hsearch; try discriminate.
    apply Uci_find_best_move_ok in Hsearch as (Hboard & _).
    cbn [Uci.w_board] in Hboard.
    assert (Hprint : exists text,
               protocol_line text /\ next = Continue /\
               s' = {| s_board := Uci.w_board w; s_reads := Uci.w_reads w;
                       s_output := s_output s ++ [text] |}).
    { destruct r as [m|]; [destruct (truthy m)|]; cbn in Hrun;
        injection Hrun as <- <-; eexists; (split; [|split; reflexivity]).
      - right. now exists m.
      - apply Hfixed; cbn; tauto.
      - apply Hfixed; cbn; tauto. }
    destruct Hprint as (text & Htext & -> & ->). cbn [s_output s_board s_reads].
    repeat split; try congruence; try discriminate.
    exists [text]. repeat split; [now constructor | discriminate]. }
  destruct (String.eqb_spec line "quit") as [Equit | Nquit].
  { intros Hrun. cbn in Hrun. injection Hrun as <- <-.
    repeat split; try congruence.
    exists []. rewrite app_nil_r. repeat split. constructor. }
  intros Hrun. cbn in Hrun. injection Hrun as <- <-.
  repeat split; try congruence; try discriminate.
  exists []. rewrite app_nil_r. repeat split. constructor.
Qed.

(** With a recursion budget of 3 the loop body fails only in the [position]
    branch. *)
Lemma uci_body_failure (fuel : nat) (raw : string) (s : Session) :
  (2 < fuel)%nat ->
  uci_body clock second fuel raw s <> OutOfFuel /\
  (forall e, uci_body clock second fuel raw s = Raise e ->
             startswith (strip raw) "position" = true).
Proof.
  intros Hfuel. unfold uci_body. cbv zeta. set (line := strip raw).
  destruct (String.eqb line "uci"); [cbn; split; [|intros e]; discriminate|].
  destruct (String.eqb line "isready");
    [cbn; split; [|intros e]; discriminate|].
  destruct (String.eqb line "ucinewgame");
    [cbn; split; [|intros e]; discriminate|].
  destruct (startswith line "position") eqn:Epos.
  { split; [|reflexivity].
    unfold bind, position_branch.
    destruct (position_command line) as [[moves|fen moves|]| |] eqn:Ecmd;
      try discriminate.
    - unfold bind, set_board, the_session_board, on_board.
      cbn [s_board s_reads s_output].
      assert (Hpush : forall l b, push_each l b <> OutOfFuel).
      { induction l as [|m l IH]; intros b; cbn [push_each];
          [discriminate|].
        unfold bind, push_uci. destruct (parse_uci b m);
          [apply IH | discriminate]. }
      specialize (Hpush moves new_board).
      destruct (push_each moves new_board) as [[[] b]| |];
        try discriminate. now elim Hpush.
    - unfold board_of_fen. destruct (parse_fen fen) as [p|];
        [|discriminate].
      unfold bind, set_board, the_session_board, on_board.
      cbn [s_board s_reads s_output].
      assert (Hpush : forall l b, push_each l b <> OutOfFuel).
      { induction l as [|m l IH]; intros b; cbn [push_each];
          [discriminate|].
        unfold bind, push_uci. destruct (parse_uci b m);
          [apply IH | discriminate]. }
      specialize (Hpush moves {| position := p; move_stack := [] |}).
      destruct (push_each moves _) as [[[] b]| |];
        try discriminate. now elim Hpush.
    - unfold position_command in Ecmd.
      destruct (item (split line) 1) as [word| |] eqn:E1;
        [|discriminate|unfold item in E1;
          destruct (nth_error (split line) 1); discriminate].
      destruct (String.eqb word "startpos").
      + destruct (item (split line) 2) as [third| |] eqn:E2;
          [|discriminate|unfold item in E2;
            destruct (nth_error (split line) 2); discriminate].
        destruct (_ <? _)%nat; discriminate.
      + destruct (String.eqb word "fen"); [|discriminate].
        destruct (contains "moves" (split line)); discriminate. }
  destruct (startswith line "go") eqn:Ego.
  { destruct (search_runs fuel s Hfuel) as (r & reads' & Hrun & _).
    unfold bind, go_branch. unfold bind. rewrite Hrun.
    destruct r as [m|]; [destruct (truthy m)|]; cbn;
      split; [|intros e| |intros e| |intros e]; discriminate. }
  destruct (String.eqb line "quit"); cbn; split; [|intros e| |intros e];
    discriminate.
Qed.

(** X14: a line that starts with [go] is answered by exactly one line,
    whatever follows [go] on it; the board is left as it was.  The answer is
    [bestmove (none)] when the board has no legal move or the first time
    check of the search fires; otherwise it names the first best of the root
    moves reached within two seconds, on their minimax values two plies deep,
    a legal move of the board (or, if that move object counts as false,
    [bestmove (none)] again). *)
Theorem go_prints_one_bestmove (fuel : nat) (raw : string) (s : Session) :
  startswith (strip raw) "go" = true -> (2 < fuel)%nat ->
  let board := s_board s in
  let reached :=
    within_budget clock (2 * second) (clock (s_reads s)) (S (s_reads s))
      (legal_moves board) in
  exists text reads',
    uci_body clock second fuel raw s
    = Ok (Continue, {| s_board := board; s_reads := reads';
                       s_output := s_output s ++ [text] |}) /\
    ((text = "bestmove (none)"%string /\
      (legal_moves board = [] \/
       clock (S (s_reads s)) - clock (s_reads s) > 2 * second)) \/
     (exists m,
        first_best (turn board) (minimax_scores 3 board reached) m /\
        In m (legal_moves board) /\
        text = if truthy m then ("bestmove " ++ uci m)%string
               else "bestmove (none)"%string)).
Proof.
  intros Hgo Hfuel. cbv zeta.
  destruct (startswith_go _ Hgo) as (rest & Eline).
  destruct (search_runs fuel s Hfuel) as (r & reads' & Hrun & Hnone & Hsome).
  unfold uci_body. cbv zeta. rewrite Eline in Hgo |- *.
  change (String.eqb (String "g" (String "o" rest)) "uci") with false.
  change (String.eqb (String "g" (String "o" rest)) "isready") with false.
  change (String.eqb (String "g" (String "o" rest)) "ucinewgame") with false.
  change (startswith (String "g" (String "o" rest)) "position") with false.
  rewrite Hgo. unfold bind, go_branch. unfold bind. rewrite Hrun.
  destruct r as [m|].
  - destruct (Hsome m eq_refl) as (Hfb & Hin).
    exists (if truthy m then ("bestmove " ++ uci m)%string
            else "bestmove (none)"%string), reads'.
    split; [now destruct (truthy m)|]. right. now exists m.
  - exists "bestmove (none)"%string, reads'. split; [reflexivity|].
    left. split; [reflexivity|]. now apply Hnone.
Qed.

(** X15: what a pass of the loop leaves alone: the board changes only on
    [ucinewgame] and on lines that start with [position]; lines are printed
    only on [uci], [isready] and lines that start with [go]; the clock is
    read only on lines that start with [go]; the loop is left exactly on
    [quit].  The line is compared after stripping white space at both
    ends. *)
Theorem uci_body_frame (fuel : nat) (raw : string) (s : Session)
  (next : Next) (s' : Session) :
  uci_body clock second fuel raw s = Ok (next, s') ->
  let line := strip raw in
  (line <> "ucinewgame"%string -> startswith line "position" = false ->
   s_board s' = s_board s) /\
  (line <> "uci"%string -> line <> "isready"%string ->
   startswith line "go" = false -> s_output s' = s_output s) /\
  (startswith line "go" = false -> s_reads s' = s_reads s) /\
  (next = Break <-> line = "quit"%string).
Proof.
  intros Hrun. cbv zeta.
  destruct (uci_body_effect fuel raw s next s' Hrun)
    as ((printed & Hout & _ & Hnone) & Hboard & Hreads & Hbreak).
  repeat split; try assumption; try apply Hbreak.
  intros H1 H2 H3. rewrite Hout, (Hnone H1 H2 H3). apply app_nil_r.
Qed.

Lemma uci_loop_on_output (fuel : nat) (input : list string) :
  forall s,
    Forall protocol_line (s_output s) ->
    Forall protocol_line (snd (uci_loop_on clock second fuel input s)).
Proof.
  induction input as [|raw rest IH]; intros s Hs; cbn [uci_loop_on].
  - exact Hs.
  - destruct (uci_body clock second fuel raw s) as [[[] s']| |] eqn:Hrun;
      cbn [snd]; try exact Hs;
      destruct (uci_body_effect fuel raw s _ s' Hrun)
        as ((printed & Hout & Hprinted & _) & _).
    + apply IH. rewrite Hout. apply Forall_app. now split.
    + rewrite Hout. apply Forall_app. now split.
Qed.

(** X16: whatever is read, and however the program ends, every line it has
    printed is one of [id name SimpleChess 1500], [id author xAI], [uciok],
    [readyok], [bestmove (none)], or [bestmove] followed by the name of a
    move. *)
Theorem uci_loop_prints_protocol_lines (fuel : nat) (input : list string) :
  Forall protocol_line (snd (uci_loop clock second fuel input)).
Proof. unfold uci_loop. apply uci_loop_on_output. constructor. Qed.

(** X17: how the program can end.  It returns only at a line that is [quit]
    once stripped, the first such line of the input, and what comes after it
    is not read.  An exception other than [EOFError] leaves it only from a
    line that starts with [position].  It ends on [EOFError] when the input
    has no [quit] line and nothing failed before.  The searches always
    finish. *)
Theorem uci_loop_endings (fuel : nat) (input : list string) (s : Session) :
  (2 < fuel)%nat ->
  match uci_loop_on clock second fuel input s with
  | (Returned, out) =>
      exists before raw after,
        input = before ++ raw :: after /\
        strip raw = "quit"%string /\
        Forall (fun l => strip l <> "quit"%string) before /\
        forall after',
          uci_loop_on clock second fuel (before ++ raw :: after') s
          = (Returned, out)
  | (Uncaught e, _) =>
      exists before raw after,
        input = before ++ raw :: after /\
        startswith (strip raw) "position" = true /\
        Forall (fun l => strip l <> "quit"%string) before
  | (UncaughtEOFError, _) =>
      Forall (fun l => strip l <> "quit"%string) input
  | (Unfinished, _) => False
  end.
Proof.
  intros Hfuel. revert s.
  induction input as [|raw rest IH]; intros s; cbn [uci_loop_on].
  - constructor.
  - destruct (uci_body_failure fuel raw s Hfuel) as (Hfin & Hraise).
    destruct (uci_body clock second fuel raw s) as [[next s']|e|] eqn:Hrun.
    + destruct (uci_body_effect fuel raw s next s' Hrun)
        as (_ & _ & _ & Hbreak).
      destruct next.
      * assert (Hnq : strip raw <> "quit"%string).
        { intros Eq. apply Hbreak in Eq. discriminate. }
        specialize (IH s').
        destruct (uci_loop_on clock second fuel rest s') as [[|e| |] out].
        -- destruct IH as (before & raw' & after & -> & Hq & Hbefore & Hrest).
           exists (raw :: before), raw', after.
           repeat split; try assumption; [now constructor|].
           intros after'. cbn [app uci_loop_on]. rewrite Hrun. apply Hrest.
        -- destruct IH as (before & raw' & after & -> & Hp & Hbefore).
           exists (raw :: before), raw', after.
           repeat split; try assumption. now constructor.
        -- now constructor.
        -- exact IH.
      * exists [], raw, rest. repeat split.
        -- now apply Hbreak.
        -- constructor.
        -- intros after'. cbn [app uci_loop_on]. now rewrite Hrun.
    + exists [], raw, rest. repeat split; [now apply (Hraise e) | constructor].
    + now elim Hfin.
Qed.

End ProtocolLoop.

Lemma go_prints_one_bestmove_witness :
  startswith (strip "go depth 9") "go" = true /\ (2 < 3)%nat /\
  exists text reads',
    @uci_body Examples.example_rules ProtocolExamples.example_codec
      Examples.frozen_clock 1 3 "go depth 9" ProtocolExamples.fresh
    = Ok (Continue, {| s_board := Examples.starting_board;
                       s_reads := reads';
                       s_output := [text] |}).
Proof.
  assert (Hgo : startswith (strip "go depth 9") "go" = true)
    by (vm_compute; reflexivity).
  assert (Hf : (2 < 3)%nat) by (repeat constructor).
  split; [exact Hgo|]. split; [exact Hf|].
  destruct (@go_prints_one_bestmove Examples.example_rules
              ProtocolExamples.example_codec Examples.frozen_clock 1 3
              "go depth 9" ProtocolExamples.fresh Hgo Hf)
    as (text & reads' & Hrun & _).
  exists text, reads'. exact Hrun.
Defined.

Lemma uci_body_frame_witness :
  @uci_body Examples.example_rules ProtocolExamples.example_codec
    Examples.frozen_clock 1 3 " isready" ProtocolExamples.fresh
  = Ok (Continue, {| s_board := Examples.starting_board;
                     s_reads := 0;
                     s_output := ["readyok"%string] |}) /\
  (Continue = Break <-> strip " isready" = "quit"%string).
Proof.
  assert (Hrun : @uci_body Examples.example_rules
                   ProtocolExamples.example_codec Examples.frozen_clock 1 3
                   " isready" ProtocolExamples.fresh
                 = Ok (Continue, {| s_board := Examples.starting_board;
                                    s_reads := 0;
                                    s_output := ["readyok"%string] |}))
    by reflexivity.
  split; [exact Hrun|].
  exact (proj2 (proj2 (proj2
           (@uci_body_frame Examples.example_rules
              ProtocolExamples.example_codec Examples.frozen_clock 1 3
              " isready" ProtocolExamples.fresh _ _ Hrun)))).
Defined.

Lemma uci_loop_endings_witness :
  (2 < 3)%nat /\
  fst (@uci_loop_on Examples.example_rules ProtocolExamples.example_codec
         Examples.frozen_clock 1 3 ["isready"; " quit "; "go"]%string
         ProtocolExamples.fresh) <> Unfinished.
Proof.
  assert (Hf : (2 < 3)%nat) by (repeat constructor).
  split; [exact Hf|].
  pose proof (@uci_loop_endings Examples.example_rules
                ProtocolExamples.example_codec Examples.frozen_clock 1 3
                ["isready"; " quit "; "go"]%string ProtocolExamples.fresh Hf)
    as Hend.
  destruct (@uci_loop_on Examples.example_rules ProtocolExamples.example_codec
              Examples.frozen_clock 1 3 ["isready"; " quit "; "go"]%string
              ProtocolExamples.fresh) as [[|e| |] out];
    cbn [fst]; try discriminate. now elim Hend.
Defined.

(** ** The console game *)

Section ConsoleGame.
Context `{Rules} `{Codec}.
Variable clock : Clock.
Variable second : Z.

Lemma V3_find_best_move_result (fuel : nat) (depth time_limit : Z)
  (board : Board) (reads : nat) (r : option Move) (board' : Board)
  (reads' : nat) :
  V3.find_best_move clock fuel depth time_limit (board, reads)
  = Ok (r, (board', reads')) ->
  board' = board /\
  (r = None -> legal_moves board = []) /\
  (forall move, r = Some move -> In move (legal_moves board)).
Proof.
  intros Hrun.
  apply V3_find_best_move_ok in Hrun
    as (-> & scored & Hmoves & Hscores & Hbest).
  split; [reflexivity|].
  destruct scored as [|first others].
  - subst r. split.
    + destruct (legal_moves board); [reflexivity | discriminate].
    + intros move E. destruct (legal_moves board); [discriminate|].
      injection E as <-. now left.
  - destruct Hbest as (move & -> & Hfb).
    split; [discriminate|]. intros move' [= <-].
    apply first_best_in in Hfb. rewrite Hmoves in Hfb.
    now apply within_budget_incl in Hfb.
Qed.

(** White's turn ends with one legal move pushed. *)
Lemma human_turn_legal (input : list string) (board board' : Board)
  (rest : list string) :
  human_turn input board = Some (board', rest) ->
  exists move, In move (legal_moves board) /\ board' = push board move.
Proof.
  induction input as [|text input IH]; cbn [human_turn]; [discriminate|].
  destruct (parse_san board text) as [move|]; [|exact IH].
  destruct (existsb (Move_eqb move) (legal_moves board)) eqn:Hin;
    [|exact IH].
  intros [= <- <-]. exists move. split; [|reflexivity].
  now apply existsb_Move_eqb.
Qed.

Lemma Color_not_WHITE (c : Color) : Color_eqb c WHITE = false -> c = BLACK.
Proof. destruct c; [discriminate | reflexivity]. Qed.

(** X18: how the console game can end, when the searches are given room
    (depth 5).  The loop ends regularly only on a board the rules package
    calls finished.  The branch that reports an invalid engine move is never
    taken, and no exception other than [EOFError] leaves the program.  The
    engine gives up only on Black's turn on an unfinished board, when the
    board has no legal move or the chosen legal move counts as false.
    [EOFError] ends the program only on White's turn.  As long as the game
    goes on, each pass of the loop puts exactly one move on the board's
    stack. *)
Theorem play_game_endings (rounds fuel : nat) (input : list string)
  (board : Board) (reads : nat) :
  (4 < fuel)%nat ->
  match play_loop clock second rounds fuel input board reads with
  | (GameOver, final) => is_game_over final = true
  | (InvalidEngineMove, _) => False
  | (EngineHasNoMoves, final) =>
      is_game_over final = false /\ turn final = BLACK /\
      (legal_moves final = [] \/
       exists move, In move (legal_moves final) /\ truthy move = false)
  | (GameUncaughtEOFError, final) =>
      is_game_over final = false /\ turn final = WHITE
  | (GameUncaught _, _) => False
  | (GameUnfinished, final) =>
      List.length (move_stack final)
      = (rounds + List.length (move_stack board))%nat
  end.
Proof.
  intros Hfuel. revert input board reads.
  induction rounds as [|rounds IH]; intros input board reads;
    cbn [play_loop]; [reflexivity|].
  assert (Hnext : forall input' move reads',
            match play_loop clock second rounds fuel input'
                    (push board move) reads' with
            | (GameOver, final) => is_game_over final = true
            | (InvalidEngineMove, _) => False
            | (EngineHasNoMoves, final) =>
                is_game_over final = false /\ turn final = BLACK /\
                (legal_moves final = [] \/
                 exists move, In move (legal_moves final) /\
                              truthy move = false)
            | (GameUncaughtEOFError, final) =>
                is_game_over final = false /\ turn final = WHITE
            | (GameUncaught _, _) => False
            | (GameUnfinished, final) =>
                List.length (move_stack final)
                = (S rounds + List.length (move_stack board))%nat
            end).
  { intros input' move reads'.
    specialize (IH input' (push board move) reads').
    destruct (play_loop clock second rounds fuel input' (push board move)
                reads') as [[| | | |e|] final]; try exact IH.
    rewrite IH. cbn [push move_stack List.length]. lia. }
  destruct (is_game_over board) eqn:Hover; [exact Hover|].
  destruct (Color_eqb (turn board) WHITE) eqn:Hturn.
  - destruct (human_turn input board) as [[board' rest]|] eqn:Hhuman.
    + apply human_turn_legal in Hhuman as (move & _ & ->). apply Hnext.
    + split; [exact Hover|]. now destruct (turn board).
  - assert (Hd : 1 <= 5) by lia.
    assert (Hf : (Z.to_nat (5 - 1) < fuel)%nat) by lia.
    destruct (V3_find_best_move_returns clock fuel 5 (3 * second) board reads
                Hd Hf) as (r & reads' & Hrun).
    rewrite Hrun.
    destruct (V3_find_best_move_result _ _ _ _ _ _ _ _ Hrun)
      as (_ & Hnone & Hsome).
    destruct r as [move|].
    + specialize (Hsome move eq_refl).
      destruct (truthy move) eqn:Htruthy.
      * rewrite (proj2 (existsb_Move_eqb move (legal_moves board)) Hsome).
        apply Hnext.
      * split; [exact Hover|]. split; [now apply Color_not_WHITE|].
        right. now exists move.
    + split; [exact Hover|]. split; [now apply Color_not_WHITE|].
      left. now apply Hnone.
Qed.

(** X19: the board only ever receives legal moves: the board at the end of
    the game is reached from the board at its start by pushing moves, one
    per pass of the loop at most, each a legal move of the board it is
    pushed on, whatever is typed and whatever the engine finds. *)
Theorem play_game_pushes_legal_moves (rounds fuel : nat)
  (input : list string) (board : Board) (reads : nat) :
  within_plies rounds board
    (snd (play_loop clock second rounds fuel input board reads)).
Proof.
  revert input board reads.
  induction rounds as [|rounds IH]; intros input board reads;
    cbn [play_loop]; [apply within_here|].
  destruct (is_game_over board); [apply within_here|].
  destruct (Color_eqb (turn board) WHITE).
  - destruct (human_turn input board) as [[board' rest]|] eqn:Hhuman;
      [|apply within_here].
    apply human_turn_legal in Hhuman as (move & Hin & ->).
    eapply within_step; [exact Hin | apply IH].
  - destruct (V3.find_best_move clock fuel 5 (3 * second) (board, reads))
      as [[[move|] [board' reads']]|e|] eqn:Hrun; cbn [snd];
      try apply within_here.
    + destruct (V3_find_best_move_result _ _ _ _ _ _ _ _ Hrun)
        as (-> & _ & Hsome).
      specialize (Hsome move eq_refl).
      destruct (truthy move); [|apply within_here].
      rewrite (proj2 (existsb_Move_eqb move (legal_moves board)) Hsome).
      eapply within_step; [exact Hsome | apply IH].
    + destruct (V3_find_best_move_result _ _ _ _ _ _ _ _ Hrun) as (-> & _).
      apply within_here.
Qed.

End ConsoleGame.

Lemma play_game_endings_witness :
  (4 < 5)%nat /\
  fst (@play_loop Examples.example_rules ProtocolExamples.example_codec
         Examples.frozen_clock 1 2 5 ["Nf3"; "e2e4"]%string
         Examples.starting_board 0) <> InvalidEngineMove.
Proof.
  assert (Hf : (4 < 5)%nat) by (repeat constructor).
  split; [exact Hf|].
  pose proof (@play_game_endings Examples.example_rules
                ProtocolExamples.example_codec Examples.frozen_clock 1 2 5
                ["Nf3"; "e2e4"]%string Examples.starting_board 0 Hf) as Hend.
  destruct (@play_loop Examples.example_rules ProtocolExamples.example_codec
              Examples.frozen_clock 1 2 5 ["Nf3"; "e2e4"]%string
              Examples.starting_board 0) as [[| | | |e|] final];
    cbn [fst]; try discriminate. now elim Hend.
Defined.

(** ** One ply: the sign of the leaf scores *)

Section DepthOne.
Context `{Rules}.
Variable clock : Clock.

Lemma minimax_scores_depth_one (board : Board) (moves : list Move) :
  minimax_scores 1 board moves
  = map (fun m => (m, Fin (evaluate_position (push board m)))) moves.
Proof.
  unfold minimax_scores. change (Z.to_nat (1 - 1)) with 0%nat.
  reflexivity.
Qed.

Lemma first_best_depth_one (board : Board) (reached : list Move)
  (move : Move) :
  (forall m, In m reached ->
     non_terminal (push board m) /\
     turn (push board m) = opposite (turn board)) ->
  first_best (turn board) (minimax_scores 1 board reached) move ->
  forall m', In m' reached ->
    total_score (push board move) <= total_score (push board m').
Proof.
  intros Hchildren (i & s & Hi & Hall) m' Hin'.
  rewrite minimax_scores_depth_one in Hi, Hall.
  rewrite nth_error_map in Hi.
  destruct (nth_error reached i) as [m0|] eqn:Ei; [|discriminate].
  cbn [option_map] in Hi. injection Hi as -> <-.
  assert (Hin : In move reached) by (eapply nth_error_In; eassumption).
  apply In_nth_error in Hin' as (j & Ej).
  specialize (Hall j m' (Fin (evaluate_position (push board m')))).
  rewrite nth_error_map, Ej in Hall. specialize (Hall eq_refl).
  destruct (Hchildren move Hin) as (Hnt & Hturn).
  destruct (Hchildren m') as (Hnt' & Hturn');
    [eapply nth_error_In; eassumption|].
  rewrite (evaluate_position_non_terminal _ Hnt),
    (evaluate_position_non_terminal _ Hnt'), Hturn, Hturn' in Hall.
  destruct (turn board); cbn [opposite Color_eqb] in Hall;
    destruct Hall as (Hle & _); apply Score_le_Fin in Hle; lia.
Qed.

(** X20: searching one ply deep, the move chosen is, for White as for Black,
    the one among the root moves reached in time that leaves the lowest
    static total counted in White's favour.  The positions after the root
    moves are taken not to be finished and to have the other side to move:
    their leaf scores are then relative to the side to move, while the root
    compares them as scores in White's favour.  This holds for both
    programs. *)
Theorem depth_one_choice_minimises_total (fuel : nat) (time_limit : Z)
  (board : Board) (reads : nat) (move : Move) :
  (0 < fuel)%nat ->
  (forall m, In m (legal_moves board) ->
     non_terminal (push board m) /\
     turn (push board m) = opposite (turn board)) ->
  let reached := within_budget clock time_limit (clock reads) (S reads)
                   (legal_moves board) in
  (forall w',
     Uci.find_best_move clock fuel 1 time_limit (Uci.mkWorld board reads)
     = Ok (Some move, w') ->
     forall m', In m' reached ->
       total_score (push board move) <= total_score (push board m')) /\
  (forall st',
     V3.find_best_move clock fuel 1 time_limit (board, reads)
     = Ok (Some move, st') ->
     reached <> [] ->
     forall m', In m' reached ->
       total_score (push board move) <= total_score (push board m')).
Proof.
  intros Hfuel Hchildren. cbv zeta.
  assert (Hd : 1 <= 1) by lia.
  assert (Hf : (Z.to_nat (1 - 1) < fuel)%nat) by (cbn; lia).
  assert (Hreached : forall m,
            In m (within_budget clock time_limit (clock reads) (S reads)
                    (legal_moves board)) ->
            non_terminal (push board m) /\
            turn (push board m) = opposite (turn board)).
  { intros m Hin. apply Hchildren. now apply within_budget_incl in Hin. }
  destruct (first_best_minimax_scores clock fuel 1 time_limit board reads
              move Hd Hf) as (Huci & Hv3).
  split.
  - intros w' Hrun. apply (first_best_depth_one _ _ _ Hreached).
    now apply (Huci w').
  - intros st' Hrun Hne. apply (first_best_depth_one _ _ _ Hreached).
    now apply (Hv3 st').
Qed.

End DepthOne.

Lemma depth_one_choice_minimises_total_witness :
  (0 < 1)%nat /\
  (forall m,
     In m (@legal_moves Examples.example_rules Examples.starting_board) ->
     @non_terminal Examples.example_rules
       (@push Examples.example_rules Examples.starting_board m) /\
     turn (@push Examples.example_rules Examples.starting_board m)
     = opposite (turn Examples.starting_board)) /\
  total_score
    (@push Examples.example_rules Examples.starting_board (Examples.mv 15 31))
  <= total_score
       (@push Examples.example_rules Examples.starting_board
          (Examples.mv 12 28)).
Proof.
  assert (Hf : (0 < 1)%nat) by (repeat constructor).
  assert (Hchildren : forall m,
            In m (@legal_moves Examples.example_rules
                    Examples.starting_board) ->
            @non_terminal Examples.example_rules
              (@push Examples.example_rules Examples.starting_board m) /\
            turn (@push Examples.example_rules Examples.starting_board m)
            = opposite (turn Examples.starting_board)).
  { intros m Hin. vm_compute in Hin.
    repeat (destruct Hin as [<- | Hin];
            [split; [repeat split; vm_compute; reflexivity | reflexivity]|]).
    contradiction. }
  split; [exact Hf|]. split; [exact Hchildren|].
  apply (proj1 (@depth_one_choice_minimises_total Examples.example_rules
                  Examples.frozen_clock 1 2 Examples.starting_board 0
                  (Examples.mv 15 31) Hf Hchildren)
           (Uci.mkWorld Examples.starting_board 21)).
  - vm_compute; reflexivity.
  - vm_compute. do 15 right. now left.
Defined.

(** ** The [position] command, acting on the board *)

Section PositionBranch.
Context `{Rules} `{Codec}.

Lemma push_each_stack (moves : list string) :
  forall board board',
    push_each moves board = Ok (tt, board') ->
    List.length (move_stack board')
    = (List.length moves + List.length (move_stack board))%nat.
Proof.
  induction moves as [|text moves IH]; intros board board';
    cbn [push_each List.length].
  - intros [= <-]. reflexivity.
  - unfold bind, push_uci.
    destruct (parse_uci board text) as [move|]; [|discriminate].
    intros Hrest. apply IH in Hrest. rewrite Hrest.
    cbn [push move_stack List.length]. lia.
Qed.

(** X21: a [position startpos] or [position fen] command that succeeds
    replaces the board: the new board does not depend on the one before, and
    its move stack holds exactly as many moves as the command lists; nothing
    is printed and the clock is not read. *)
Theorem position_branch_replaces_board (line : string) (s s' : Session)
  (moves : list string) :
  position_branch line s = Ok (tt, s') ->
  position_command line = Ok (Startpos moves) \/
  (exists fen, position_command line = Ok (Fen fen moves)) ->
  List.length (move_stack (s_board s')) = List.length moves /\
  s_reads s' = s_reads s /\ s_output s' = s_output s /\
  forall s2, exists s2',
    position_branch line s2 = Ok (tt, s2') /\ s_board s2' = s_board s'.
Proof.
  unfold position_branch. intros Hrun [Hcmd | (fen & Hcmd)];
    rewrite Hcmd in Hrun |- *.
  - unfold bind, set_board, the_session_board, on_board in Hrun |- *.
    cbn [s_board s_reads s_output] in Hrun |- *.
    destruct (push_each moves new_board) as [[[] b]| |] eqn:Hpush;
      try discriminate.
    injection Hrun as <-. cbn [s_board s_reads s_output].
    apply push_each_stack in Hpush. cbn [new_board move_stack List.length] in Hpush.
    repeat split; [lia|].
    intros s2. eexists. split; reflexivity.
  - destruct (board_of_fen fen) as [b0| |] eqn:Hfen; try discriminate.
    unfold bind, set_board, the_session_board, on_board in Hrun |- *.
    cbn [s_board s_reads s_output] in Hrun |- *.
    destruct (push_each moves b0) as [[[] b]| |] eqn:Hpush;
      try discriminate.
    injection Hrun as <-. cbn [s_board s_reads s_output].
    apply push_each_stack in Hpush.
    unfold board_of_fen in Hfen.
    destruct (parse_fen fen) as [p|]; [|discriminate].
    injection Hfen as <-. cbn [move_stack List.length] in Hpush.
    repeat split; [lia|].
    intros s2. eexists. split; reflexivity.
Qed.

End PositionBranch.

Lemma position_branch_replaces_board_witness :
  @position_branch Examples.example_rules ProtocolExamples.example_codec
    "position startpos moves e2e4" ProtocolExamples.fresh
  = Ok (tt, {| s_board := Examples.e4_board; s_reads := 0; s_output := [] |})
  /\
  (position_command "position startpos moves e2e4"
   = Ok (Startpos ["e2e4"%string]) \/
   exists fen, position_command "position startpos moves e2e4"
               = Ok (Fen fen ["e2e4"%string])) /\
  List.length (move_stack Examples.e4_board) = 1%nat.
Proof.
  assert (Hrun : @position_branch Examples.example_rules
                   ProtocolExamples.example_codec
                   "position startpos moves e2e4" ProtocolExamples.fresh
                 = Ok (tt, {| s_board := Examples.e4_board; s_reads := 0;
                              s_output := [] |}))
    by (vm_compute; reflexivity).
  assert (Hcmd : position_command "position startpos moves e2e4"
                 = Ok (Startpos ["e2e4"%string]) \/
                 exists fen, position_command "position startpos moves e2e4"
                             = Ok (Fen fen ["e2e4"%string]))
    by (left; vm_compute; reflexivity).
  split; [exact Hrun|]. split; [exact Hcmd|].
  exact (proj1 (@position_branch_replaces_board Examples.example_rules
                  ProtocolExamples.example_codec _ _ _ _ Hrun Hcmd)).
Defined.
